(** * docgen: the comment-command engine of [main.cpp]

    A shallow embedding of the parsing and expansion engine of the
    documentation generator: the lexical primitives ([strip],
    [simplify_whitespace], [parse_args]), the comment extractor and the
    in-comment interpreter ([process_source], [process_src_command]), the
    orchestration interpreter ([process_md_command]) and the driver loop of
    [main]; then the properties of the specification that concern them.

    Conventions of the embedding.
    - A [std::string] is a [text], a list of characters.  [s[i]] is
      [at_ s i]; reading [s[s.size()]] gives the NUL character, as C++
      defines it.  A read further out is undefined in C++: where the source
      can make one, the function returns [Undefined].
    - Positions ([size_t]) are natural numbers: a string holds fewer than
      [2^63] characters, so adding one or two to a position never wraps.  A
      difference of positions does wrap around when it is negative
      ([size_sub]); the source relies on it when it passes such a count to
      [substr].
    - [int] values are integers in [Z].  The depth counters move by one per
      character read, [std::stoi] checks its range, and the one conversion
      from [size_t] is [to_int].
    - [substr], [std::stoi] and [fs::create_directories] can throw; nothing
      in the program catches, so an exception ends the run.  Every
      operation that can reach one returns an [outcome].
    - A loop that assigns a later position to its index is a recursion on
      the text that remains, which passes over the characters in between.
    - Text written to [std::cerr] is collected, message by message, in the
      field [cerr] that the embedding adds to the context record.  What
      [NEW_COMMAND] writes and compiles is collected in the field [built],
      added likewise; the file system, the glob library and the loader
      answer from it. *)

From Stdlib Require Import ZArith Ascii String Lia.
From stdpp Require Import gmap strings list.

Local Open Scope char_scope.
Local Open Scope Z_scope.
Local Open Scope nat_scope.
Local Open Scope list_scope.

(** ** Text *)

Abbreviation text := (list ascii).

Definition txt (s : string) : text := list_ascii_of_string s.

(** The double quote and the line feed, which a literal cannot hold. *)
Definition dquote : ascii := "034".
Definition newline : ascii := "010".

(** [s[i]]; NUL at (and, in the model, beyond) the end. *)
Definition at_ (s : text) (i : nat) : ascii := nth i s zero.

Definition code (c : ascii) : N := N_of_ascii c.

(** The character classes of [<cctype>] in the C locale; no character
    above 127 is in any of them. *)
Definition isspace (c : ascii) : bool :=
  (code c =? 32)%N || ((9 <=? code c)%N && (code c <=? 13)%N).

Definition isdigit (c : ascii) : bool :=
  (48 <=? code c)%N && (code c <=? 57)%N.

Definition isupper (c : ascii) : bool :=
  (65 <=? code c)%N && (code c <=? 90)%N.

Definition islower (c : ascii) : bool :=
  (97 <=? code c)%N && (code c <=? 122)%N.

Definition isalnum (c : ascii) : bool :=
  isdigit c || isupper c || islower c.

(** The test [isalnum(c) || c == '_'] that the source repeats. *)
Definition is_ident (c : ascii) : bool := isalnum c || Ascii.eqb c "_".

(** ** Outcomes *)

Inductive exn : Set :=
| std_out_of_range
| std_invalid_argument
| fs_filesystem_error.

(** [Undefined] marks a read outside a string, on which C++ says nothing;
    [DepthExceeded] is returned when the bound on nested alias expansions
    is used up (see [process_source]). *)
Inductive outcome (A : Type) : Type :=
| Ok (a : A)
| Throw (e : exn)
| Undefined
| DepthExceeded.

Arguments Ok {A} a.
Arguments Throw {A} e.
Arguments Undefined {A}.
Arguments DepthExceeded {A}.

Definition bind {A B : Type} (m : outcome A) (k : A -> outcome B) : outcome B :=
  match m with
  | Ok a => k a
  | Throw e => Throw e
  | Undefined => Undefined
  | DepthExceeded => DepthExceeded
  end.

Notation "'let*' x ':=' m 'in' k" := (bind m (fun x => k))
  (at level 10, x pattern, m at level 100, k at level 200).

(** ** [size_t] arithmetic and [substr] *)

Definition size_max : Z := (2 ^ 64)%Z.

(** [a - b - c] on [size_t]: a negative difference wraps around.  For
    operands that a string can hold this is the difference modulo [2^64]
    (lemma [size_sub_mod]). *)
Definition size_sub (a b : nat) (c : Z) : Z :=
  let d := (Z.of_nat a - Z.of_nat b - c)%Z in
  if (d <? 0)%Z then (d + size_max)%Z else d.

(** [s.substr(pos, n)] throws when [pos > s.size()]; otherwise it returns
    [slice s pos n], the characters from [pos], [n] of them at most. *)
Definition slice (s : text) (pos : nat) (n : Z) : text :=
  take (Z.to_nat (Z.min n (Z.of_nat (length s - pos)))) (drop pos s).

Definition substr (s : text) (pos : nat) (n : Z) : outcome text :=
  if length s <? pos then Throw std_out_of_range else Ok (slice s pos n).

(** [s.substr(pos)] *)
Definition substr_from (s : text) (pos : nat) : outcome text :=
  if length s <? pos then Throw std_out_of_range else Ok (drop pos s).

(** ** Loops over a string *)

(** [a == b] on strings. *)
Fixpoint text_eqb (a b : text) : bool :=
  match a, b with
  | [], [] => true
  | x :: a', y :: b' => Ascii.eqb x y && text_eqb a' b'
  | _, _ => false
  end.

(** [while (i < s.size() && p(s[i])) i++], started with [rest] the suffix
    of [s] at [i]. *)
Fixpoint scan_while (p : ascii -> bool) (rest : text) (i : nat) : nat :=
  match rest with
  | [] => i
  | c :: rest' => if p c then scan_while p rest' (S i) else i
  end.

(** [while (e > 0 && p(s[e-1])) e--] *)
Fixpoint back_while (p : ascii -> bool) (s : text) (e : nat) : nat :=
  match e with
  | O => O
  | S e' => if p (at_ s e') then back_while p s e' else e
  end.

(** [s.find(pat, pos)], with [None] for [npos]; [rest] is the suffix of [s]
    at [i]. *)
Fixpoint find_in (pat : text) (rest : text) (i : nat) : option nat :=
  if text_eqb (take (length pat) rest) pat then Some i
  else match rest with
       | [] => None
       | _ :: rest' => find_in pat rest' (S i)
       end.

Definition find (pat : text) (s : text) (pos : nat) : option nat :=
  if length s <? pos then None else find_in pat (drop pos s) pos.

(** ** [strip] and [simplify_whitespace] *)

(** [start] never passes [s.size()], so the [substr] of [strip] cannot
    throw and is written as the [slice] it returns. *)
Definition strip (s : text) : text :=
  let start := scan_while isspace s 0 in
  let end_ := back_while isspace s (length s) in
  slice s start (size_sub end_ start 0).

(** The loop of [simplify_whitespace]: [skipping] is true inside a run of
    white space whose single blank has been written already. *)
Fixpoint collapse_ws (s : text) (skipping : bool) : text :=
  match s with
  | [] => []
  | c :: s' =>
      if isspace c then
        if skipping then collapse_ws s' true else " " :: collapse_ws s' true
      else c :: collapse_ws s' false
  end.

Definition simplify_whitespace (s : text) : text := strip (collapse_ws s false).

(** ** The argument splitter, [parse_args] *)

(** The local variables of [parse_args]. *)
Record PState : Type := mkPState {
  lastPos : nat;
  parenDepth : Z;
  bracketDepth : Z;
  braceDepth : Z;
  inQuote : bool;
  args : list text
}.

Definition parse_init (index : nat) : PState :=
  mkPState index 0 0 0 false [].

(** The chain of [if ... else if] on a character outside a quoted literal.
    When a comma splits, [lastPos < i < src.size()], so that [substr] cannot
    throw and is written as its [slice]. *)
Definition parse_char (src : text) (c : ascii) (i : nat) (st : PState) : PState :=
  let 'mkPState lp pd bd cd q ar := st in
  if Ascii.eqb c "(" then mkPState lp (pd + 1) bd cd q ar
  else if Ascii.eqb c ")" then mkPState lp (pd - 1) bd cd q ar
  else if Ascii.eqb c "[" then mkPState lp pd (bd + 1) cd q ar
  else if Ascii.eqb c "]" then mkPState lp pd (bd - 1) cd q ar
  else if Ascii.eqb c "{" then mkPState lp pd bd (cd + 1) q ar
  else if Ascii.eqb c "}" then mkPState lp pd bd (cd - 1) q ar
  else if Ascii.eqb c "," && (pd =? 0)%Z && (bd =? 0)%Z && (cd =? 0)%Z
       then mkPState i pd bd cd q (ar ++ [strip (slice src (S lp) (size_sub i lp 1))])
  else st.

(** The toggle of [inQuote] on a double-quote character. *)
Definition toggle_quote (c : ascii) (st : PState) : PState :=
  let 'mkPState lp pd bd cd q ar := st in
  mkPState lp pd bd cd (if Ascii.eqb c dquote then negb q else q) ar.

(** The [for] loop, with [rest] the suffix of [src] at [i].  The result is
    the vector returned and the value left in the reference [index]. *)
Fixpoint parse_loop (src rest : text) (i : nat) (st : PState) (index : nat)
  : outcome (list text * nat) :=
  match rest with
  | [] =>
      let* a := substr src (S (lastPos st)) (size_sub (length src) (lastPos st) 2) in
      Ok (args st ++ [strip a], index)
  | c :: rest' =>
      let st1 := toggle_quote c st in
      if inQuote st1 then parse_loop src rest' (S i) st1 index
      else
        let st2 := parse_char src c i st1 in
        if (parenDepth st2 =? -1)%Z then
          let poss := scan_while (fun x => negb (Ascii.eqb x ")")) rest i in
          let* a := substr src (S (lastPos st2)) (size_sub poss (lastPos st2) 1) in
          Ok (args st2 ++ [strip a], poss)
        else parse_loop src rest' (S i) st2 index
  end.

Definition parse_args (src : text) (index : nat) : outcome (list text * nat) :=
  parse_loop src (drop (S index) src) (S index) (parse_init index) index.

(** ** The document context

    The members of the struct, followed by what the run leaves outside
    it: [cerr], the messages written to [std::cerr], and [built], the
    argument lists of the [NEW_COMMAND]s carried out so far, each of which
    wrote a source file under [outputDir/commands] and ran the compiler on
    it. *)

Record DocContext : Type := mkDocContext {
  sections : gmap text text;
  mainSection : text;
  outputDir : text;
  inputDocgen : text;
  currentSection : text;
  output : text;
  aliases : gmap text text;
  cerr : list text;
  built : list (list text)
}.

Definition set_sections (f : gmap text text -> gmap text text) (c : DocContext) :=
  mkDocContext (f (sections c)) (mainSection c) (outputDir c) (inputDocgen c)
    (currentSection c) (output c) (aliases c) (cerr c) (built c).

Definition set_mainSection (f : text -> text) (c : DocContext) :=
  mkDocContext (sections c) (f (mainSection c)) (outputDir c) (inputDocgen c)
    (currentSection c) (output c) (aliases c) (cerr c) (built c).

Definition set_currentSection (s : text) (c : DocContext) :=
  mkDocContext (sections c) (mainSection c) (outputDir c) (inputDocgen c)
    s (output c) (aliases c) (cerr c) (built c).

Definition set_output (f : text -> text) (c : DocContext) :=
  mkDocContext (sections c) (mainSection c) (outputDir c) (inputDocgen c)
    (currentSection c) (f (output c)) (aliases c) (cerr c) (built c).

Definition set_aliases (f : gmap text text -> gmap text text) (c : DocContext) :=
  mkDocContext (sections c) (mainSection c) (outputDir c) (inputDocgen c)
    (currentSection c) (output c) (f (aliases c)) (cerr c) (built c).

Definition set_built (f : list (list text) -> list (list text)) (c : DocContext) :=
  mkDocContext (sections c) (mainSection c) (outputDir c) (inputDocgen c)
    (currentSection c) (output c) (aliases c) (cerr c) (f (built c)).

(** One message written to [std::cerr]. *)
Definition report (msg : text) (c : DocContext) :=
  mkDocContext (sections c) (mainSection c) (outputDir c) (inputDocgen c)
    (currentSection c) (output c) (aliases c) (cerr c ++ [msg]) (built c).

Record CommentData : Type := mkCommentData {
  index : nat;
  end_index : nat;
  comment : text
}.

(** [sections[k] += c]: [operator[]] creates an empty buffer when [k] is
    new. *)
Definition append_to (k : text) (c : ascii) (m : gmap text text) : gmap text text :=
  <[k := default [] (m !! k) ++ [c]]> m.

Definition process_char (c : ascii) (context : DocContext) : DocContext :=
  match currentSection context with
  | [] => set_mainSection (fun b => b ++ [c]) context
  | _ => set_sections (append_to (currentSection context) c) context
  end.

Definition process_string (s : text) (context : DocContext) : DocContext :=
  fold_left (fun ctx c => process_char c ctx) s context.

(** ** The text each built-in command derives from the source

    In all of them [ei] is [comment.end_index]. *)

Definition not_char (c : ascii) : ascii -> bool := fun x => negb (Ascii.eqb x c).

(** [std::stoi]: white space, an optional sign, then decimal digits; what
    follows the digits is ignored. *)
Fixpoint skip_spaces (s : text) : text :=
  match s with
  | c :: s' => if isspace c then skip_spaces s' else s
  | [] => []
  end.

Fixpoint read_digits (s : text) (acc : option Z) : option Z :=
  match s with
  | c :: s' =>
      if isdigit c
      then read_digits s' (Some (10 * default 0 acc + (Z.of_N (code c) - 48)))%Z
      else acc
  | [] => acc
  end.

Definition int_min : Z := (- 2 ^ 31)%Z.
Definition int_max : Z := (2 ^ 31 - 1)%Z.

Definition stoi (s : text) : outcome Z :=
  let s1 := skip_spaces s in
  let '(neg, s2) := match s1 with
                    | "-" :: r => (true, r)
                    | "+" :: r => (false, r)
                    | _ => (false, s1)
                    end in
  match read_digits s2 None with
  | None => Throw std_invalid_argument
  | Some v =>
      let v' := if neg then (- v)%Z else v in
      if ((v' <? int_min) || (int_max <? v'))%Z then Throw std_out_of_range
      else Ok v'
  end.

(** The conversion of a [size_t] value to [int]. *)
Definition to_int (z : Z) : Z := ((z + 2 ^ 31) mod 2 ^ 32 - 2 ^ 31)%Z.

Definition next_line (src : text) (ei : nat) : outcome text :=
  let e := scan_while (not_char newline) (drop (S ei) src) (S ei) in
  let* a := substr src ei (size_sub e ei 0) in
  Ok (strip a).

(** The two backward loops of [FUNC_NAME]: from the first opening round
    bracket after the comment, back over what is not an identifier
    character, then back over identifier characters.  The result is the
    span [start, end) of the identifier. *)
Definition ident_before_bracket (src : text) (ei : nat) : nat * nat :=
  let e1 := scan_while (not_char "(") (drop (S ei) src) (S ei) in
  let e2 := back_while (fun c => negb (is_ident c)) src e1 in
  let start := back_while is_ident src e2 in
  (start, e2).

(** The backward loops start by reading [src[end-1]]; with [end = ei + 1]
    at least, that read is inside the string (or on its NUL) only when
    [ei <= src.size()]. *)
Definition func_name (src : text) (ei : nat) : outcome text :=
  if length src <? ei then Undefined else
  let '(start, e2) := ident_before_bracket src ei in
  let* a := substr src start (size_sub e2 start 0) in
  if text_eqb (strip a) (txt "operator") then
    let e3 := scan_while (not_char "(") (drop e2 src) e2 in
    let* a' := substr src start (size_sub e3 start 0) in
    Ok (strip a')
  else Ok (strip a).

Definition next_decl (src : text) (ei : nat) : outcome text :=
  let stop c := Ascii.eqb c ";" || Ascii.eqb c "=" || Ascii.eqb c "{" in
  let e := scan_while (fun c => negb (stop c)) (drop (S ei) src) (S ei) in
  let* a := substr src (S ei) (size_sub e ei 1) in
  Ok (strip a ++ txt ";").

Definition func_ret (src : text) (ei : nat) : outcome text :=
  let start := S ei in
  let e1 := scan_while (not_char "(") (drop (S ei) src) (S ei) in
  if length src <? ei then Undefined else
  let e2 := back_while (fun c => negb (isspace c)) src e1 in
  let* a := substr src start (size_sub e2 start 0) in
  Ok (strip a).

(** The loop that looks for the bracket closing the one at [end_]. *)
Fixpoint match_paren (rest : text) (end_ : nat) (depth : Z) : nat :=
  match rest with
  | [] => end_
  | c :: rest' =>
      let d := if Ascii.eqb c "(" then (depth + 1)%Z
               else if Ascii.eqb c ")" then (depth - 1)%Z else depth in
      if (d =? 0)%Z then end_ else match_paren rest' (S end_) d
  end.

Definition func_args (src : text) (ei : nat) : outcome text :=
  let start := scan_while (not_char "(") (drop (S ei) src) (S ei) in
  let end_ := match_paren (drop start src) start 0 in
  let* a := substr src (S start) (size_sub end_ start 1) in
  Ok (strip a).

(** The argument list [FUNC_ARG] splits: the bracketed text, brackets
    included, handed to [parse_args] at index 0. *)
Definition func_arg_list (src : text) (ei : nat) : outcome (list text) :=
  let start := scan_while (not_char "(") (drop (S ei) src) (S ei) in
  let end_ := match_paren (drop start src) start 0 in
  let* argList := substr src start (size_sub end_ start (-1)) in
  let* r := parse_args argList 0 in
  Ok (fst r).

(** The second backward loop of [CLASS_NAME] parses as
    [(start > 0 && isalnum(src[start-1])) || src[start-1] == '_'], so at
    [start = 0] it reads [src[-1]]. *)
Fixpoint class_back (src : text) (start : nat) : outcome nat :=
  match start with
  | O => Undefined
  | S start' => if is_ident (at_ src start') then class_back src start' else Ok start
  end.

Definition class_name (src : text) (ei : nat) : outcome text :=
  let stop c := Ascii.eqb c "{" || Ascii.eqb c ":" || Ascii.eqb c ";" in
  let e1 := scan_while (fun c => negb (stop c)) (drop (S ei) src) (S ei) in
  if length src <? ei then Undefined else
  let e2 := back_while isspace src e1 in
  let* start := class_back src e2 in
  let* a := substr src start (size_sub e2 start 0) in
  Ok (strip a).

Definition next_macro (src : text) (ei : nat) : outcome text :=
  let start := scan_while (not_char "#") (drop (S ei) src) (S ei) in
  let end_ := scan_while (not_char ")") (drop start src) start in
  let* a := substr src start (size_sub end_ start 0) in
  Ok (strip a ++ txt ")").

(** [fs::path(filename).filename()]: what follows the last separator. *)
Fixpoint path_filename (p : text) : text :=
  match p with
  | [] => []
  | c :: p' =>
      if existsb (Ascii.eqb "/") p' then path_filename p'
      else if Ascii.eqb c "/" then p' else p
  end.

(** ** The world outside the engine

    What the file system, the glob library and the dynamic loader answer is
    given from outside.  The only thing the run itself changes in that
    world, besides its document, is what [NEW_COMMAND] writes and compiles
    under [outputDir/commands], so the answers may depend on the
    [NEW_COMMAND]s carried out so far ([built]). *)

Inductive LibResult : Type :=
| LibAbsent                                  (* no [.so] file of that name *)
| LibLoadFailed                              (* [dlopen] returned null *)
| LibNoSymbol                                (* [dlsym] returned null *)
| LibFunc (f : text -> list text -> text).   (* the entry point *)

Record Env : Type := mkEnv {
  (* [fs::exists], [dlopen] and [dlsym] on the module of a command *)
  lib_lookup : list (list text) -> text -> LibResult;
  (* [glob::rglob]: path and content of each match *)
  rglob : list (list text) -> list text -> list (text * text);
  (* the [.docgen] file, if any *)
  docgen_file : option text;
  (* whether [outputDir/commands] exists or [fs::create_directories] can
     make it; when it cannot, it throws *)
  commands_dir_ready : list (list text) -> bool
}.

(** ** [process_src_command] *)

Definition process_str (simplify : bool) (s : text) (context : DocContext) : DocContext :=
  if simplify then process_string (simplify_whitespace s) context
  else process_string s context.

(** A command whose output is a text derived from the source. *)
Definition emit (simplify : bool) (a : outcome text) (context : DocContext)
  : outcome DocContext :=
  let* s := a in Ok (process_str simplify s context).

Definition func_arg (simplify : bool) (args : list text) (src : text) (ei : nat)
    (context : DocContext) : outcome DocContext :=
  match args with
  | [arg] =>
      let* argss := func_arg_list src ei in
      let* n := stoi arg in
      let argNum := if (n <? 0)%Z
                    then to_int ((Z.of_nat (length argss) + n) mod size_max)%Z
                    else n in
      if ((argNum <? 0) || (Z.of_nat (length argss) <=? argNum mod size_max))%Z
      then Ok (report (txt "Error: Argument " ++ arg ++ txt " not found" ++ [newline]) context)
      else Ok (process_str simplify (nth (Z.to_nat argNum) argss []) context)
  | _ => Ok (report (txt "Error: FUNC_ARG requires 1 argument" ++ [newline]) context)
  end.

(** The pseudo-source an alias is expanded to: a comment that opens a
    documentation span around the replacement text, then the source from
    after the comment up to the next comment opener. *)
Definition alias_source (replacement src : text) (ei : nat) : outcome text :=
  let start := S ei in
  let end1 := default (length src) (find (txt "/*") src start) in
  let end2 := default (length src) (find (txt "//") src start) in
  let end_ := if end2 <? end1 then end2 else end1 in
  let* next_scr := substr src start (size_sub end_ start 0) in
  Ok (txt "/* @DOC" ++ [newline] ++ replacement ++ [newline] ++ txt "@END"
        ++ [newline] ++ txt "*/" ++ [newline] ++ next_scr).

Definition run_plugin (env : Env) (simplify : bool) (command : text)
    (args : list text) (src : text) (ei : nat) (context : DocContext)
  : outcome DocContext :=
  match lib_lookup env (built context) command with
  | LibAbsent =>
      Ok (report (txt "Error: Unknown command " ++ command ++ [newline]) context)
  | LibLoadFailed =>
      Ok (report (txt "Error: Could not load command " ++ command ++ [newline]) context)
  | LibNoSymbol =>
      Ok (report (txt "Error: Could not find function " ++ command ++ [newline]) context)
  | LibFunc f =>
      let* code_after_comment := substr_from src (S ei) in
      Ok (process_str simplify (f code_after_comment args) context)
  end.

(** The comparison of the command with the name of a built-in. *)
Definition named (command : text) (name : string) : bool :=
  text_eqb command (txt name).

(** [expand] is [process_source] on a pseudo-source, with [realSource]
    false.  The recursion of the source through [SIMPLIFY] hands the first
    argument over as the command and the remaining ones as its arguments. *)
Fixpoint process_src_command (env : Env)
    (expand : text -> DocContext -> outcome DocContext)
    (command_ : text) (args : list text) (context : DocContext)
    (cmt : CommentData) (src : text) (simplify : bool) (filename : text)
    {struct args}
  : outcome DocContext :=
  let command0 := strip command_ in
  let prefixed := Ascii.eqb (at_ command0 0) "S" && Ascii.eqb (at_ command0 1) "_" in
  let command := if prefixed then drop 2 command0 else command0 in
  let simplify := if prefixed then true else simplify in
  let ei := end_index cmt in
  if named command "SECTION" then
    match args with
    | [] => Ok (set_currentSection [] context)
    | a :: _ => Ok (set_currentSection a context)
    end
  else if named command "NEXT_LINE" then emit simplify (next_line src ei) context
  else if named command "FUNC_NAME" then emit simplify (func_name src ei) context
  else if named command "NEXT_DECL" then emit simplify (next_decl src ei) context
  else if named command "FUNC_RET" then emit simplify (func_ret src ei) context
  else if named command "FUNC_ARGS" then emit simplify (func_args src ei) context
  else if named command "FUNC_ARG" then func_arg simplify args src ei context
  else if named command "CLASS_NAME" then emit simplify (class_name src ei) context
  else if named command "NEXT_MACRO" then emit simplify (next_macro src ei) context
  else if named command "FILE_NAME" then emit simplify (Ok (path_filename filename)) context
  else if named command "SIMPLIFY" || named command "S" then
    match args with
    | [] => Ok (report (txt "Wrong number of arguments in SIMPLIFY!" ++ [newline]) context)
    | a :: new_args =>
        process_src_command env expand a new_args context cmt src true filename
    end
  else
    match aliases context !! command with
    | Some replacement =>
        let* pseudo := alias_source replacement src ei in
        expand pseudo context
    | None => run_plugin env simplify command args src ei context
    end.

(** ** The comment extractor

    The scan of [process_source] over the source.  [rest] is the suffix of
    the source at [idx], so that [src[index]] is its head, [src[index+1]]
    the head of its tail, and [src.size()] is [idx + length rest].  An
    assignment [index = e] with [e > idx] is rendered by passing over the
    [e - idx - 1] characters in between ([skip]). *)
Fixpoint extract (rest : text) (idx skip : nat) : list CommentData :=
  match rest with
  | [] => []
  | c :: rest' =>
      match skip with
      | S k => extract rest' (S idx) k
      | O =>
          let c1 := hd zero rest' in
          if Ascii.eqb c "/" && Ascii.eqb c1 "/" then
            let e := default (idx + length rest) (find_in [newline] rest idx) in
            mkCommentData idx e (strip (slice rest 2 (size_sub e idx 2)))
              :: extract rest' (S idx) (e - idx - 1)
          else if Ascii.eqb c "/" && Ascii.eqb c1 "*" then
            let e := default (idx + length rest) (find_in (txt "*/") rest idx) in
            mkCommentData idx (e + 2) (strip (slice rest 2 (size_sub e idx 2)))
              :: extract rest' (S idx) (e + 2 - idx - 1)
          else extract rest' (S idx) 0
      end
  end.

Definition extract_comments (src : text) : list CommentData := extract src 0 0.

(** ** The in-comment interpreter *)

Definition backslash : ascii := "092".

(** The [while] loop over one comment: [rest] is the suffix of [cmt] at
    [idx]; [run] is [process_src_command] for this comment.  The loop state
    is the flag [doc] and the context. *)
Fixpoint comment_loop
    (run : text -> list text -> DocContext -> outcome DocContext)
    (cmt rest : text) (idx skip : nat) (doc : bool) (context : DocContext)
  : outcome DocContext :=
  match rest with
  | [] => Ok context
  | c :: rest' =>
      match skip with
      | S k => comment_loop run cmt rest' (S idx) k doc context
      | O =>
          if Ascii.eqb c "@" && isupper (hd zero rest') then
            let end_ := scan_while is_ident rest' (S idx) in
            let* cmdName := substr cmt (S idx) (size_sub end_ idx 1) in
            let* parsed :=
              (if Ascii.eqb (at_ cmt end_) "("
               then let* r := parse_args cmt end_ in Ok (fst r, S (snd r))
               else Ok ([], end_)) in
            let '(args, index1) := parsed in
            let* state :=
              (if named cmdName "DOC" then Ok (true, context)
               else if named cmdName "END" then Ok (false, context)
               else if doc
                    then let* context' := run cmdName args context in
                         Ok (doc, context')
                    else Ok (doc, context)) in
            let '(doc', context') := state in
            let index2 :=
              if (S index1 <? length cmt) && Ascii.eqb (at_ cmt index1) backslash
                 && Ascii.eqb (at_ cmt (S index1)) "("
              then S index1 else index1 in
            comment_loop run cmt rest' (S idx) (index2 - idx - 1) doc' context'
          else
            comment_loop run cmt rest' (S idx) 0 doc
              (if doc then process_char c context else context)
      end
  end.

Definition process_comment (env : Env)
    (expand : text -> DocContext -> outcome DocContext)
    (src : text) (realSource : bool) (filename : text)
    (cmt : CommentData) (context : DocContext) : outcome DocContext :=
  let run cmdName args ctx :=
    process_src_command env expand cmdName args ctx cmt src false filename in
  let* context' := comment_loop run (comment cmt) (comment cmt) 0 0 false context in
  Ok (if realSource then set_currentSection [] context' else context').

Fixpoint process_comments (env : Env)
    (expand : text -> DocContext -> outcome DocContext)
    (src : text) (realSource : bool) (filename : text)
    (comments : list CommentData) (context : DocContext) : outcome DocContext :=
  match comments with
  | [] => Ok context
  | cmt :: comments' =>
      let* context' := process_comment env expand src realSource filename cmt context in
      process_comments env expand src realSource filename comments' context'
  end.

(** [process_source].  [depth] bounds how many alias expansions may be
    nested inside this call; the source has no such bound. *)
Fixpoint process_source (depth : nat) (env : Env) (src : text)
    (context : DocContext) (realSource : bool) (filename : text)
  : outcome DocContext :=
  let expand : text -> DocContext -> outcome DocContext :=
    match depth with
    | O => fun _ _ => DepthExceeded
    | S depth' => fun pseudo ctx => process_source depth' env pseudo ctx false filename
    end in
  process_comments env expand src realSource filename (extract_comments src) context.

(** What [process_src_command] calls to expand an alias inside a call of
    [process_source] at [depth]. *)
Definition alias_expander (depth : nat) (env : Env) (filename : text)
  : text -> DocContext -> outcome DocContext :=
  match depth with
  | O => fun _ _ => DepthExceeded
  | S depth' => fun pseudo ctx => process_source depth' env pseudo ctx false filename
  end.

(** ** [simplify_md]

    [std::regex_replace] with the pattern: a line feed, blanks and tabs, a
    line feed, blanks and tabs, a line feed.  The blanks are matched
    greedily and no line feed is a blank, so a match at a position is
    unique when there is one. *)

Definition isblank (c : ascii) : bool := Ascii.eqb c " " || Ascii.eqb c "009".

Fixpoint skip_blanks (s : text) (n : nat) : text * nat :=
  match s with
  | c :: s' => if isblank c then skip_blanks s' (S n) else (s, n)
  | [] => ([], n)
  end.

(** The length of the match that starts at the head of [s], if any. *)
Definition md_match (s : text) : option nat :=
  match s with
  | "010" :: s1 =>
      match skip_blanks s1 1 with
      | ("010" :: s2, n) =>
          match skip_blanks s2 (S n) with
          | ("010" :: _, m) => Some (S m)
          | _ => None
          end
      | _ => None
      end
  | _ => None
  end.

(** Matches are looked for from left to right, each search starting where
    the last match ended; [skip] counts the characters of the current match
    still to pass over. *)
Fixpoint md_replace (s : text) (skip : nat) : text :=
  match s with
  | [] => []
  | c :: s' =>
      match skip with
      | S k => md_replace s' k
      | O =>
          match md_match s with
          | Some n => newline :: newline :: md_replace s' (n - 1)
          | None => c :: md_replace s' 0
          end
      end
  end.

Definition simplify_md (s : text) : text := md_replace s 0.

(** ** The orchestration interpreter, [process_md_command] *)

(** [NEW_ALIAS] drops what encloses the replacement text. *)
Definition unwrap_alias (arg : text) : text :=
  let s := strip arg in
  let c := at_ s 0 in
  if Ascii.eqb c "(" || Ascii.eqb c "{" || Ascii.eqb c "[" || Ascii.eqb c dquote
  then slice s 1 (size_sub (length s) 0 2)
  else s.

Fixpoint process_sources (depth : nat) (env : Env) (sources : list (text * text))
    (context : DocContext) : outcome DocContext :=
  match sources with
  | [] => Ok context
  | (path, src) :: sources' =>
      let* context' := process_source depth env src context true path in
      process_sources depth env sources' context'
  end.

(** The position arguments of the source function are never read and are
    left out.  [NEW_COMMAND] first makes sure of the directory
    [outputDir/commands], and [fs::create_directories] throws when it
    cannot make it; it then writes the source file of the command and runs
    the compiler on it, neither of which can end the run (a stream that
    fails to open is silently not written, and the status of [system] is
    not read).  What this leaves in the file system is recorded in
    [built], from which the loader and the glob library answer later. *)
Definition process_md_command (depth : nat) (env : Env) (command_ : text)
    (context : DocContext) : outcome DocContext :=
  let command := strip command_ in
  let* parsed :=
    (match find (txt "(") command 0 with
     | Some pos =>
         let* name := substr command 0 (Z.of_nat pos) in
         let* r := parse_args command pos in
         Ok (strip name, fst r)
     | None => Ok (strip command, [])
     end) in
  let '(cmdName, args) := parsed in
  if named cmdName "NEW_COMMAND" then
    if negb (length args =? 2) && negb (length args =? 3)
    then Ok (report (txt "Error: NEW_COMMAND requires 2 arguments" ++ [newline]) context)
    else if commands_dir_ready env (built context)
         then Ok (set_built (fun b => b ++ [args]) context)
         else Throw fs_filesystem_error
  else if named cmdName "PROCESS_SOURCES" then
    let sources := rglob env (built context) args in
    let* context' := process_sources depth env sources context in
    match sources with
    | [] =>
        Ok (fold_left (fun ctx s => report (s ++ [newline]) ctx) args
              (report (txt "Error: No sources found" ++ [newline]) context'))
    | _ => Ok context'
    end
  else if named cmdName "INSERT_SECTION" then
    match args with
    | [name] =>
        match sections context !! name with
        | None =>
            Ok (report (txt "Error: Section " ++ name ++ txt " not found" ++ [newline])
                  context)
        | Some buffer =>
            Ok (set_output (fun o => o ++ simplify_md buffer ++ [newline; newline])
                  context)
        end
    | _ => Ok (report (txt "Error: INSERT_SECTION requires 1 argument" ++ [newline]) context)
    end
  else if named cmdName "NEW_ALIAS" then
    match args with
    | [name; replacement] =>
        Ok (set_aliases (fun m => <[name := unwrap_alias replacement]> m) context)
    | _ => Ok (report (txt "Error: NEW_ALIAS requires 2 arguments" ++ [newline]) context)
    end
  else Ok (report (txt "Error: Unknown command " ++ cmdName ++ [newline]) context).

(** ** The driver, [main] *)

(** The lines [std::getline] yields. *)
Fixpoint getlines (s : text) (line : text) : list text :=
  match s with
  | [] => match line with [] => [] | _ => [line] end
  | c :: s' =>
      if Ascii.eqb c newline then line :: getlines s' []
      else getlines s' (line ++ [c])
  end.

Definition is_command_line (line : text) : bool :=
  Ascii.eqb (at_ line 0) "@" && Ascii.eqb (at_ line 1) "@".

(** The reading loop.  [pending] holds the text of a command whose closing
    marker has not been read yet: the inner [while] of the source. *)
Fixpoint main_loop (depth : nat) (env : Env) (lines : list text)
    (pending : option text) (context : DocContext) : outcome DocContext :=
  match lines with
  | [] =>
      match pending with
      | Some command => process_md_command depth env command context
      | None => Ok context
      end
  | line :: lines' =>
      match pending with
      | Some command =>
          if is_command_line line then
            let* context' :=
              process_md_command depth env (command ++ drop 2 line) context in
            main_loop depth env lines' None context'
          else main_loop depth env lines' (Some (command ++ line ++ [newline])) context
      | None =>
          if is_command_line line then
            match find (txt "@@") line 2 with
            | Some pos =>
                let* command := substr line 2 (size_sub pos 0 2) in
                let* context' := process_md_command depth env command context in
                main_loop depth env lines' None context'
            | None => main_loop depth env lines' (Some (drop 2 line)) context
            end
          else main_loop depth env lines' None
                 (set_output (fun o => o ++ line ++ [newline]) context)
      end
  end.

Definition empty_context (dir docgen : text) : DocContext :=
  mkDocContext ∅ [] dir docgen [] [] ∅ [] [].

(** The result is the text written to [index.md], or [None] when there is
    no [.docgen] file and the program leaves at once. *)
Definition main (depth : nat) (env : Env) : outcome (option text) :=
  match docgen_file env with
  | None => Ok None
  | Some docgenSrc =>
      let* context :=
        main_loop depth env (getlines docgenSrc []) None
          (empty_context (txt "docs") docgenSrc) in
      let context1 := set_output (fun o => o ++ simplify_md (mainSection context)) context in
      Ok (Some (strip (simplify_md (output context1))))
  end.

(** ** Definitions used to state the properties *)

(** One turn of the loop of [parse_args] on the character [c] at [i],
    without the early return: the effect on the local variables. *)
Definition parse_iter (src : text) (c : ascii) (i : nat) (st : PState) : PState :=
  let st1 := toggle_quote c st in
  if inQuote st1 then st1 else parse_char src c i st1.

(** The local variables after the loop has run over [body], which starts
    at position [i]. *)
Fixpoint scan (src body : text) (i : nat) (st : PState) : PState :=
  match body with
  | [] => st
  | c :: body' => scan src body' (S i) (parse_iter src c i st)
  end.

(** The round-bracket depth is never [-1] while the loop runs over
    [body]. *)
Fixpoint stays_open (src body : text) (i : nat) (st : PState) : bool :=
  match body with
  | [] => true
  | c :: body' =>
      let st' := parse_iter src c i st in
      negb (parenDepth st' =? -1)%Z && stays_open src body' (S i) st'
  end.

(** The reading of the specification for the splitter, on the text
    alone.  A double quote toggles a flag: [quoted_from q t] is the flag
    after [t], and [outside_quotes_from q t] are the characters of [t] that
    are read with the flag off.  The nesting depth of a family of brackets
    after a text is the number of its opening brackets less the number of
    its closing ones among those characters. *)
Fixpoint quoted_from (q : bool) (t : text) : bool :=
  match t with
  | [] => q
  | x :: t' => quoted_from (if Ascii.eqb x dquote then negb q else q) t'
  end.

Fixpoint outside_quotes_from (q : bool) (t : text) : text :=
  match t with
  | [] => []
  | x :: t' =>
      let q' := if Ascii.eqb x dquote then negb q else q in
      if q' then outside_quotes_from q' t' else x :: outside_quotes_from q' t'
  end.

Definition occurrences (c : ascii) (t : text) : Z :=
  Z.of_nat (length (List.filter (fun x => Ascii.eqb x c) t)).

Definition nesting (opener closer : ascii) (before : text) : Z :=
  (occurrences opener (outside_quotes_from false before)
   - occurrences closer (outside_quotes_from false before))%Z.

(** What follows [before] is outside any quoted literal and at depth zero
    of the round, square and curly brackets. *)
Definition top_level (before : text) : bool :=
  negb (quoted_from false before)
  && (nesting "(" ")" before =? 0)%Z
  && (nesting "[" "]" before =? 0)%Z
  && (nesting "{" "}" before =? 0)%Z.

(** The text [rest], which comes after [before], cut at its commas at top
    level; [cur] is the part of the current piece already read. *)
Fixpoint split_top_level (before rest cur : text) : list text :=
  match rest with
  | [] => [cur]
  | x :: rest' =>
      if Ascii.eqb x "," && top_level before
      then cur :: split_top_level (before ++ [x]) rest' []
      else split_top_level (before ++ [x]) rest' (cur ++ [x])
  end.

(** The pieces put back together, with a comma between two of them. *)
Fixpoint join_commas (pieces : list text) : text :=
  match pieces with
  | [] => []
  | [p] => p
  | p :: ps => p ++ "," :: join_commas ps
  end.

(** No closing round bracket of [rest] comes without its opening one: the
    round depth is never [-1] on the way. *)
Fixpoint round_open (before rest : text) : bool :=
  match rest with
  | [] => true
  | x :: rest' =>
      negb (nesting "(" ")" (before ++ [x]) =? -1)%Z && round_open (before ++ [x]) rest'
  end.

(** The local variables of the splitter agree with the text read. *)
Definition tracks (before : text) (st : PState) : Prop :=
  inQuote st = quoted_from false before
  /\ parenDepth st = nesting "(" ")" before
  /\ bracketDepth st = nesting "[" "]" before
  /\ braceDepth st = nesting "{" "}" before.

(** The buffer that produced text goes to: the main buffer, or the buffer
    of the selected section (empty as long as nothing was written to
    it). *)
Definition active_buffer (c : DocContext) : text :=
  match currentSection c with
  | [] => mainSection c
  | k => default [] (sections c !! k)
  end.

(** A text that [strip] leaves as it is: empty, or with no white space at
    either end. *)
Definition trimmed (t : text) : Prop :=
  t = [] \/ (isspace (hd zero t) = false /\ isspace (List.last t zero) = false).

(** The reading of the specification for a source file: the file's
    comments are interpreted with no reset in between, and the section
    selector is cleared once, after the last one. *)
Definition process_source_reset_per_file (depth : nat) (env : Env) (src : text)
    (context : DocContext) (filename : text) : outcome DocContext :=
  let* context' := process_source depth env src context false filename in
  Ok (set_currentSection [] context').

(** [e2] answers as [e1] wherever [e1] does not run out of depth. *)
Definition expand_le (e1 e2 : text -> DocContext -> outcome DocContext) : Prop :=
  forall pseudo context, e1 pseudo context <> DepthExceeded ->
                         e2 pseudo context = e1 pseudo context.


(** ** Sample inputs *)

(** The buffer [(a, (b,c), "d,e")]. *)
Definition sample_buffer : text :=
  txt "(a, (b,c), " ++ dquote :: txt "d,e" ++ dquote :: txt ")".

(** The same with square and curly brackets: [(a, [b,c], {d,e})]. *)
Definition sample_families : text := txt "(a, [b,c], {d,e})".

(** A documented declaration with three parameters, and its comment. *)
Definition sample_decl : text :=
  txt "/* @DOC @FUNC_ARG(-1) @END */ void f(int a, char b, long c);".

Definition sample_decl_comment : CommentData :=
  mkCommentData 0 29 (txt "@DOC @FUNC_ARG(-1) @END").

(** A world with no extension module, no source file and no [.docgen]. *)
Definition bare_env : Env :=
  mkEnv (fun _ _ => LibAbsent) (fun _ _ => []) None (fun _ => true).

Definition bare_context : DocContext := empty_context (txt "docs") [].

(** A documented comparison operator, and the end of its comment. *)
Definition sample_operator : text :=
  txt "/* @DOC @FUNC_NAME @END */" ++ newline :: txt "bool operator==(int a);".

Definition sample_operator_comment : CommentData :=
  mkCommentData 0 26 (txt "@DOC @FUNC_NAME @END").

(** A file with two comments, the first of which selects a section. *)
Definition sample_two_comments : text :=
  txt "/* @DOC @SECTION(x) a @END */ /* @DOC b @END */".

(** The pseudo-source that expanding an alias [X] with replacement [@X]
    produces when nothing follows the comment, and a file that uses the
    alias. *)
Definition self_alias_pseudo : text :=
  txt "/* @DOC" ++ [newline] ++ txt "@X" ++ [newline] ++ txt "@END" ++ [newline]
    ++ txt "*/" ++ [newline].

Definition self_alias_source : text := txt "/* @DOC @X @END */" ++ [newline].

Definition self_alias_context : DocContext :=
  set_aliases (fun m => <[txt "X" := txt "@X"]> m) bare_context.





(** A source file whose comment passes a non-numeric argument to
    [FUNC_ARG], and a run over it: the template holds the one command
    [PROCESS_SOURCES] and its pattern matches that file. *)
Definition non_numeric_source : text :=
  txt "/* @DOC @FUNC_ARG(abc) @END */ void f(int a);".

Definition non_numeric_env : Env :=
  mkEnv (fun _ _ => LibAbsent)
        (fun _ _ => [(txt "f.cpp", non_numeric_source)])
        (Some (txt "@@PROCESS_SOURCES(src/*.cpp)@@" ++ [newline]))
        (fun _ => true).

(** A context whose section [s] holds two lines separated by three blank
    lines. *)
Definition blank_lines_context : DocContext :=
  set_sections
    (fun m => <[txt "s" := txt "a" ++ [newline; newline; newline; newline] ++ txt "b"]> m)
    bare_context.

(** A run over one file whose only comment is [@DOC @FILE_NAME @END]. *)
Definition file_name_env : Env :=
  mkEnv (fun _ _ => LibAbsent)
        (fun _ _ => [(txt "src/unit.src", txt "/* @DOC @FILE_NAME @END */")])
        (Some (txt "@@PROCESS_SOURCES(src/*.src)@@" ++ [newline]))
        (fun _ => true).

(** ** Tactics *)

(** The cases [x = c] and [x <> c] of a character. *)
Ltac case_char x c := destruct (Ascii.eqb_spec x c) as [-> | ?].
(** ** Definitions used to state further properties *)

(** A text in which every white-space character is a blank and no two
    blanks are adjacent. *)
Fixpoint single_spaced (t : text) : bool :=
  match t with
  | [] => true
  | c :: t' =>
      (negb (isspace c) || (Ascii.eqb c " " && negb (isspace (hd "a" t'))))
      && single_spaced t'
  end.

(** The characters of a text that are not white space, in order. *)
Definition visible (t : text) : text := List.filter (fun c => negb (isspace c)) t.

(** The text between a round bracket and the bracket that closes it, as
    the loop of [FUNC_ARGS] counts: from [depth] the count of open round
    brackets never comes to zero inside the text and is one at its end. *)
Fixpoint inner_balanced (body : text) (depth : Z) : bool :=
  match body with
  | [] => (depth =? 1)%Z
  | c :: body' =>
      let d := if Ascii.eqb c "(" then (depth + 1)%Z
               else if Ascii.eqb c ")" then (depth - 1)%Z else depth in
      negb (d =? 0)%Z && inner_balanced body' d
  end.

(** Comment spans of [src] laid out one after the other from position
    [lo]: each starts on a comment opener at or after the end of the one
    before, covers at least the opener, and ends no further than two
    characters past the end of the text (an unterminated block comment). *)
Fixpoint spans_from (src : text) (lo : nat) (cs : list CommentData) : Prop :=
  match cs with
  | [] => True
  | c :: cs' =>
      lo <= index c
      /\ (take 2 (drop (index c) src) = txt "//"
          \/ take 2 (drop (index c) src) = txt "/*")
      /\ index c + 2 <= end_index c <= length src + 2
      /\ spans_from src (end_index c) cs'
  end.

(** The characters of a text that are neither blanks, tabs nor line
    feeds, in order. *)
Definition printed (t : text) : text :=
  List.filter (fun c => negb (isblank c || Ascii.eqb c newline)) t.

(** The characters [NEW_ALIAS] takes for the opening of an enclosure. *)
Definition is_opener (c : ascii) : bool :=
  Ascii.eqb c "(" || Ascii.eqb c "{" || Ascii.eqb c "[" || Ascii.eqb c dquote.

(** A text with a line feed added at its end when it is not empty and
    does not end with one. *)
Definition with_final_newline (t : text) : text :=
  match t with
  | [] => []
  | _ => if Ascii.eqb (List.last t zero) newline then t else t ++ [newline]
  end.

(** The lines put back together, each followed by a line feed. *)
Definition join_lines (lines : list text) : text :=
  concat (map (fun l => l ++ [newline]) lines).



(** What a context may become while a source is processed: the document
    text, the aliases and the two paths are the same, and the main buffer,
    the messages and every section buffer there was are extended at their
    end (new sections may appear, the current section may change). *)
Definition grows (c c' : DocContext) : Prop :=
  outputDir c' = outputDir c
  /\ inputDocgen c' = inputDocgen c
  /\ output c' = output c
  /\ aliases c' = aliases c
  /\ mainSection c `prefix_of` mainSection c'
  /\ cerr c `prefix_of` cerr c'
  /\ forall k v, sections c !! k = Some v ->
       exists v', sections c' !! k = Some v' /\ v `prefix_of` v'.

(** What a context may become while the template is read: the two paths
    are the same, the document text, the main buffer, the messages and
    every section buffer there was are extended at their end, and every
    alias there was is still defined (possibly anew). *)
Definition md_grows (c c' : DocContext) : Prop :=
  outputDir c' = outputDir c
  /\ inputDocgen c' = inputDocgen c
  /\ output c `prefix_of` output c'
  /\ mainSection c `prefix_of` mainSection c'
  /\ cerr c `prefix_of` cerr c'
  /\ (forall k v, sections c !! k = Some v ->
        exists v', sections c' !! k = Some v' /\ v `prefix_of` v')
  /\ (forall k, is_Some (aliases c !! k) -> is_Some (aliases c' !! k)).




(** A template that processes a file, defines the command the file uses,
    and processes the file again, in a world where the loader finds the
    module of [HI] once a [NEW_COMMAND] has been carried out. *)
Definition rebuilt_template : text :=
  txt "@@PROCESS_SOURCES(src/a.cpp)@@" ++ [newline]
  ++ txt "@@NEW_COMMAND(HI, {return code;})@@" ++ [newline]
  ++ txt "@@PROCESS_SOURCES(src/a.cpp)@@" ++ [newline].

Definition rebuilt_env : Env :=
  mkEnv (fun b name =>
           match b with
           | [] => LibAbsent
           | _ => if text_eqb name (txt "HI")
                  then LibFunc (fun code _ => txt "<" ++ code ++ txt ">")
                  else LibAbsent
           end)
        (fun _ _ => [(txt "src/a.cpp", txt "/* @DOC @HI @END */ int x;")])
        (Some rebuilt_template)
        (fun _ => true).
(** ** Properties of the lexical primitives *)

Lemma size_sub_mod (a b : nat) (c : Z) :
  (Z.of_nat a < 2 ^ 63)%Z -> (Z.of_nat b < 2 ^ 63)%Z -> (-1 <= c <= 2)%Z ->
  size_sub a b c = ((Z.of_nat a - Z.of_nat b - c) mod size_max)%Z.
Proof.
  intros Ha Hb Hc. unfold size_sub, size_max.
  destruct (Z.ltb_spec (Z.of_nat a - Z.of_nat b - c) 0) as [Hn | Hn].
  - rewrite <- (Z.mod_unique_pos (Z.of_nat a - Z.of_nat b - c) (2 ^ 64) (-1)
                  (Z.of_nat a - Z.of_nat b - c + 2 ^ 64)); lia.
  - rewrite Z.mod_small; lia.
Qed.

Lemma size_sub_exact (a b : nat) (c : Z) :
  (0 <= Z.of_nat a - Z.of_nat b - c)%Z ->
  size_sub a b c = (Z.of_nat a - Z.of_nat b - c)%Z.
Proof.
  intros H. unfold size_sub.
  destruct (Z.ltb_spec (Z.of_nat a - Z.of_nat b - c) 0); lia.
Qed.

Lemma slice_exact (s : text) (pos : nat) (n : Z) :
  (0 <= n)%Z -> slice s pos n = take (Z.to_nat n) (drop pos s).
Proof.
  intros Hn. unfold slice.
  destruct (Z.min_spec n (Z.of_nat (length s - pos))) as [[_ ->] | [Hle ->]].
  - reflexivity.
  - rewrite Nat2Z.id. rewrite !take_ge; [reflexivity | | ];
      rewrite length_drop; lia.
Qed.

Lemma slice_at_end (s : text) (pos : nat) (n : Z) :
  length s <= pos -> slice s pos n = [].
Proof.
  intros H. unfold slice. rewrite drop_ge by lia. apply take_nil.
Qed.

Lemma scan_while_all (p : ascii -> bool) (l : text) (i : nat) :
  forallb p l = true -> scan_while p l i = i + length l.
Proof.
  revert i. induction l as [| c l IH]; intros i H; simpl in *.
  - lia.
  - apply andb_true_iff in H as [-> H]. rewrite IH by assumption. lia.
Qed.

Lemma scan_while_stop (p : ascii -> bool) (l r : text) (c : ascii) (i : nat) :
  forallb p l = true -> p c = false ->
  scan_while p (l ++ c :: r) i = i + length l.
Proof.
  revert i. induction l as [| x l IH]; intros i H Hc; simpl in *.
  - rewrite Hc. lia.
  - apply andb_true_iff in H as [-> H]. rewrite IH by assumption. lia.
Qed.

Lemma at_app_l (l r : text) (i : nat) : i < length l -> at_ (l ++ r) i = at_ l i.
Proof. intros H. unfold at_. apply app_nth1. exact H. Qed.

Lemma at_app_r (l r : text) (i : nat) :
  length l <= i -> at_ (l ++ r) i = at_ r (i - length l).
Proof. intros H. unfold at_. apply app_nth2. lia. Qed.

Lemma back_while_prefix (p : ascii -> bool) (l r : text) (e : nat) :
  e <= length l -> back_while p (l ++ r) e = back_while p l e.
Proof.
  induction e as [| e IH]; intros H; simpl.
  - reflexivity.
  - rewrite at_app_l by lia. rewrite IH by lia. reflexivity.
Qed.

Lemma back_while_all (p : ascii -> bool) (l r : text) :
  forallb p r = true ->
  back_while p (l ++ r) (length l + length r) = back_while p l (length l).
Proof.
  induction r as [| c r IH] using rev_ind; intros H.
  - rewrite app_nil_r, Nat.add_0_r. reflexivity.
  - rewrite forallb_app in H. apply andb_true_iff in H as [Hr Hc].
    simpl in Hc. apply andb_true_iff in Hc as [Hc _].
    rewrite length_app. simpl.
    replace (length l + (length r + 1)) with (S (length l + length r)) by lia.
    simpl. rewrite app_assoc.
    rewrite at_app_r by (rewrite length_app; lia).
    rewrite <- length_app, Nat.sub_diag. unfold at_ at 1. simpl. rewrite Hc.
    rewrite back_while_prefix by lia. rewrite length_app.
    apply IH, Hr.
Qed.

Lemma back_while_stop (p : ascii -> bool) (l : text) (c : ascii) :
  p c = false -> back_while p (l ++ [c]) (S (length l)) = S (length l).
Proof.
  intros Hc. simpl. rewrite at_app_r by lia. rewrite Nat.sub_diag.
  unfold at_. simpl. rewrite Hc. reflexivity.
Qed.

Lemma back_while_le (p : ascii -> bool) (s : text) (e : nat) :
  back_while p s e <= e.
Proof.
  induction e as [| e IH]; simpl; [lia |]. destruct (p (at_ s e)); lia.
Qed.

Lemma trimmed_cases (m : text) :
  trimmed m ->
  m = [] \/ exists c m0 d, isspace c = false /\ isspace d = false /\
                          (m = [c] /\ m0 = [] /\ d = c \/ m = c :: m0 ++ [d]).
Proof.
  intros [-> | [Hh Hl]]; [left; reflexivity |].
  destruct m as [| c m]; [left; reflexivity | right].
  simpl in Hh.
  destruct (@exists_last _ (c :: m)) as [m1 [d Hm]]; [discriminate |].
  rewrite Hm in Hl. rewrite last_last in Hl.
  destruct m1 as [| c' m1]; simpl in Hm.
  - assert (d = c) by congruence. assert (m = []) by congruence. subst d m.
    exists c, [], c. repeat split; try assumption. left. auto.
  - assert (c' = c) by congruence. assert (m = m1 ++ [d]) by congruence.
    subst c' m. exists c, m1, d. repeat split; try assumption. right. reflexivity.
Qed.

Lemma strip_decomp (l m r : text) :
  forallb isspace l = true -> forallb isspace r = true -> trimmed m ->
  strip (l ++ m ++ r) = m.
Proof.
  intros Hl Hr Hm. unfold strip.
  destruct (trimmed_cases m Hm) as [-> | (c & m0 & d & Hc & Hd & Hshape)].
  - simpl. rewrite scan_while_all by (rewrite forallb_app, Hl, Hr; reflexivity).
    apply slice_at_end. simpl. lia.
  - assert (Hm' : exists m1, m = m1 ++ [d] /\ m = c :: tl m).
    { destruct Hshape as [(-> & _ & ->) | ->].
      - exists []. split; reflexivity.
      - exists (c :: m0). split; reflexivity. }
    destruct Hm' as (m1 & Hsnoc & Hcons).
    assert (Hstart : scan_while isspace (l ++ m ++ r) 0 = length l).
    { rewrite Hcons. simpl. rewrite scan_while_stop by assumption. lia. }
    assert (Hend : back_while isspace (l ++ m ++ r) (length (l ++ m ++ r))
                   = length l + length m).
    { rewrite Hsnoc. rewrite !app_assoc. rewrite length_app.
      rewrite back_while_all by assumption.
      rewrite <- app_assoc. rewrite length_app.
      rewrite (length_app m1). simpl.
      replace (length l + (length m1 + 1)) with (S (length (l ++ m1)))
        by (rewrite length_app; lia).
      rewrite app_assoc. apply back_while_stop. exact Hd. }
    rewrite Hstart, Hend.
    rewrite size_sub_exact by lia. rewrite slice_exact by lia.
    replace (Z.to_nat (Z.of_nat (length l + length m) - Z.of_nat (length l) - 0))
      with (length m) by lia.
    rewrite drop_app_length. apply take_app_length.
Qed.

Lemma strip_exists (s : text) :
  exists l m r, s = l ++ m ++ r /\ forallb isspace l = true /\
                forallb isspace r = true /\ trimmed m.
Proof.
  induction s as [| c s (l & m & r & -> & Hl & Hr & Hm)].
  - exists [], [], []. repeat split; try reflexivity. left; reflexivity.
  - destruct (isspace c) eqn:Hc.
    + destruct m as [| x m].
      * exists (c :: l), [], r. repeat split; simpl; try assumption.
        rewrite Hc, Hl. reflexivity.
      * destruct l as [| y l].
        -- exists [c], (x :: m), r. repeat split; simpl; try assumption.
           rewrite Hc. reflexivity.
        -- exists (c :: y :: l), (x :: m), r. repeat split; try assumption.
           simpl. simpl in Hl. rewrite Hc, Hl. reflexivity.
    + destruct (trimmed_cases m Hm) as [-> | (x & m0 & d & Hx & Hd & Hshape)].
      * exists [], [c], (l ++ r). repeat split; simpl; try reflexivity.
        -- rewrite forallb_app, Hl, Hr. reflexivity.
        -- right. simpl. auto.
      * exists [], (c :: l ++ m), r. repeat split; try assumption.
        -- simpl. rewrite <- !app_assoc. reflexivity.
        -- right. split; [exact Hc |].
           destruct Hshape as [(-> & _ & ->) | ->].
           ++ change (c :: l ++ [x]) with ((c :: l) ++ [x]).
              rewrite last_last. exact Hx.
           ++ replace (c :: l ++ x :: m0 ++ [d]) with ((c :: l ++ x :: m0) ++ [d])
                by (simpl; rewrite <- !app_assoc; reflexivity).
              rewrite last_last. exact Hd.
Qed.

Lemma strip_trimmed (s : text) : trimmed (strip s).
Proof.
  destruct (strip_exists s) as (l & m & r & -> & Hl & Hr & Hm).
  rewrite strip_decomp; assumption.
Qed.

Lemma strip_fixed (t : text) : trimmed t -> strip t = t.
Proof.
  intros H. rewrite <- (app_nil_r t) at 1.
  apply (strip_decomp [] t []); auto.
Qed.

Lemma strip_idem (s : text) : strip (strip s) = strip s.
Proof. apply strip_fixed, strip_trimmed. Qed.

(** ** The argument splitter *)

Lemma parse_char_args (src : text) (c : ascii) (i : nat) (st : PState) :
  args (parse_char src c i st) = args st \/
  (c = "," /\ parenDepth st = 0%Z /\ bracketDepth st = 0%Z /\ braceDepth st = 0%Z /\
   args (parse_char src c i st)
   = args st ++ [strip (slice src (S (lastPos st)) (size_sub i (lastPos st) 1))]).
Proof.
  destruct st as [lp pd bd cd q ar]. unfold parse_char.
  do 6 (match goal with
        | |- context [if Ascii.eqb c ?x then _ else _] =>
            destruct (Ascii.eqb c x); [left; reflexivity |]
        end).
  destruct (Ascii.eqb_spec c ","); simpl; [| left; reflexivity].
  destruct (Z.eqb_spec pd 0), (Z.eqb_spec bd 0), (Z.eqb_spec cd 0); simpl;
    try (left; reflexivity).
  right. subst. auto.
Qed.

Lemma toggle_quote_args (c : ascii) (st : PState) :
  args (toggle_quote c st) = args st.
Proof. destruct st. reflexivity. Qed.

Lemma parse_iter_args (src : text) (c : ascii) (i : nat) (st : PState) :
  args (parse_iter src c i st) = args st \/
  (c = "," /\ inQuote st = false /\
   parenDepth st = 0%Z /\ bracketDepth st = 0%Z /\ braceDepth st = 0%Z).
Proof.
  unfold parse_iter. destruct (inQuote (toggle_quote c st)) eqn:Hq.
  - left. apply toggle_quote_args.
  - destruct (parse_char_args src c i (toggle_quote c st))
      as [H | (-> & Hp & Hb & Hc & _)].
    + left. rewrite H. apply toggle_quote_args.
    + right. destruct st as [lp pd bd cd q ar]. simpl in *. auto.
Qed.

Lemma parse_char_trimmed (P : text -> Prop) (src : text) (c : ascii) (i : nat)
    (st : PState) :
  (forall s, P (strip s)) -> Forall P (args st) ->
  Forall P (args (parse_char src c i st)).
Proof.
  intros HP Hst.
  destruct (parse_char_args src c i st) as [-> | (_ & _ & _ & _ & ->)].
  - exact Hst.
  - apply Forall_app. split; [exact Hst |]. constructor; [apply HP | constructor].
Qed.

Lemma parse_loop_trimmed (P : text -> Prop) (src rest : text) (i : nat)
    (st : PState) (index : nat) (r : list text * nat) :
  (forall s, P (strip s)) -> Forall P (args st) ->
  parse_loop src rest i st index = Ok r -> Forall P (fst r).
Proof.
  intros HP. revert i st.
  induction rest as [| c rest IH]; intros i st Hst Hr; simpl in Hr.
  - destruct (substr src (S (lastPos st)) _) as [a | | |]; simpl in Hr;
      try discriminate.
    injection Hr as <-. simpl. apply Forall_app. split; [exact Hst |].
    constructor; [apply HP | constructor].
  - destruct (inQuote (toggle_quote c st)) eqn:Hq.
    + apply (IH _ _ ltac:(rewrite toggle_quote_args; exact Hst) Hr).
    + pose proof (parse_char_trimmed P src c i (toggle_quote c st) HP
                    ltac:(rewrite toggle_quote_args; exact Hst)) as Hst'.
      destruct (parenDepth (parse_char src c i (toggle_quote c st)) =? -1)%Z.
      * destruct (substr src _ _) as [a | | |]; simpl in Hr; try discriminate.
        injection Hr as <-. simpl. apply Forall_app. split; [exact Hst' |].
        constructor; [apply HP | constructor].
      * apply (IH _ _ Hst' Hr).
Qed.

Lemma parse_char_lastPos (src : text) (c : ascii) (i : nat) (st : PState) :
  lastPos (parse_char src c i st) = lastPos st \/ lastPos (parse_char src c i st) = i.
Proof.
  destruct st as [lp pd bd cd q ar]. unfold parse_char.
  repeat (match goal with
          | |- context [if ?b then _ else _] => destruct b
          end); simpl; auto.
Qed.




(** While the depth stays off [-1] the loop does not return early: it runs
    to the end of the text and takes the exit after the loop. *)
Lemma parse_loop_open (src rest : text) (i : nat) (st : PState) (index : nat) :
  stays_open src rest i st = true ->
  parse_loop src rest i st index
  = (let stf := scan src rest i st in
     let* a := substr src (S (lastPos stf)) (size_sub (length src) (lastPos stf) 2) in
     Ok (args stf ++ [strip a], index)).
Proof.
  revert i st. induction rest as [| c rest IH]; intros i st H; simpl in *.
  - reflexivity.
  - apply andb_true_iff in H as [Hd H]. apply negb_true_iff in Hd.
    unfold parse_iter in *.
    destruct (inQuote (toggle_quote c st)).
    + apply IH, H.
    + rewrite Hd. apply IH, H.
Qed.

(** The loop over a text that keeps the depth off [-1], followed by a
    closing round bracket met outside a literal at depth zero: the early
    return is taken at that bracket. *)
Lemma parse_loop_closes (src body rest : text) (i : nat) (st : PState) (index : nat) :
  stays_open src body i st = true ->
  inQuote (scan src body i st) = false ->
  parenDepth (scan src body i st) = 0%Z ->
  parse_loop src (body ++ ")" :: rest) i st index
  = (let stf := scan src body i st in
     let close := i + length body in
     let* a := substr src (S (lastPos stf)) (size_sub close (lastPos stf) 1) in
     Ok (args stf ++ [strip a], close)).
Proof.
  revert i st. induction body as [| c body IH]; intros i st H Hq Hd; simpl in *.
  - destruct st as [lp pd bd cd q ar]. simpl in *. subst q pd. simpl.
    rewrite Nat.add_0_r. reflexivity.
  - apply andb_true_iff in H as [Hn H]. apply negb_true_iff in Hn.
    unfold parse_iter in *.
    replace (i + S (length body)) with (S i + length body) by lia.
    destruct (inQuote (toggle_quote c st)).
    + apply IH; assumption.
    + rewrite Hn. apply IH; assumption.
Qed.

Lemma substr_ok (s : text) (pos : nat) (n : Z) :
  pos <= length s -> substr s pos n = Ok (slice s pos n).
Proof.
  intros H. unfold substr. destruct (Nat.ltb_spec (length s) pos); [lia | reflexivity].
Qed.

(** ** The splitter against the nesting of the text *)

Lemma quoted_from_snoc (q : bool) (t : text) (x : ascii) :
  quoted_from q (t ++ [x])
  = if Ascii.eqb x dquote then negb (quoted_from q t) else quoted_from q t.
Proof.
  revert q. induction t as [| y t IH]; intros q; simpl; [reflexivity | apply IH].
Qed.

Lemma outside_quotes_snoc (q : bool) (t : text) (x : ascii) :
  outside_quotes_from q (t ++ [x])
  = outside_quotes_from q t ++ (if quoted_from q (t ++ [x]) then [] else [x]).
Proof.
  revert q. induction t as [| y t IH]; intros q; simpl.
  - destruct (if Ascii.eqb x dquote then negb q else q); reflexivity.
  - destruct (if Ascii.eqb y dquote then negb q else q); rewrite IH; reflexivity.
Qed.

Lemma occurrences_app (c : ascii) (u v : text) :
  occurrences c (u ++ v) = (occurrences c u + occurrences c v)%Z.
Proof. unfold occurrences. rewrite List.filter_app, length_app. lia. Qed.

Lemma nesting_snoc (o c : ascii) (before : text) (x : ascii) :
  nesting o c (before ++ [x])
  = (nesting o c before
     + if quoted_from false (before ++ [x]) then 0
       else (if Ascii.eqb x o then 1 else 0) - (if Ascii.eqb x c then 1 else 0))%Z.
Proof.
  unfold nesting. rewrite outside_quotes_snoc.
  destruct (quoted_from false (before ++ [x])).
  - rewrite app_nil_r. lia.
  - rewrite !occurrences_app. unfold occurrences at 2 4. simpl.
    destruct (Ascii.eqb x o), (Ascii.eqb x c); simpl; lia.
Qed.

Lemma tracks_init (index : nat) : tracks [] (parse_init index).
Proof. repeat split. Qed.

Lemma tracks_step (src : text) (x : ascii) (i : nat) (before : text) (st : PState) :
  tracks before st -> tracks (before ++ [x]) (parse_iter src x i st).
Proof.
  destruct st as [lp pd bd cd q ar]. intros (Hq & Hp & Hb & Hc). simpl in *. subst.
  unfold tracks. rewrite !nesting_snoc, quoted_from_snoc.
  unfold parse_iter, toggle_quote, parse_char.
  case_char x dquote.
  { destruct (quoted_from false before); simpl; repeat split; lia. }
  destruct (quoted_from false before); simpl; [repeat split; lia |].
  case_char x "("; [simpl; repeat split; lia |].
  case_char x ")"; [simpl; repeat split; lia |].
  case_char x "["; [simpl; repeat split; lia |].
  case_char x "]"; [simpl; repeat split; lia |].
  case_char x "{"; [simpl; repeat split; lia |].
  case_char x "}"; [simpl; repeat split; lia |].
  destruct (Ascii.eqb x "," && _ && _ && _); simpl; repeat split; lia.
Qed.

Lemma parse_iter_split (src : text) (x : ascii) (i : nat) (before : text) (st : PState) :
  tracks before st ->
  args (parse_iter src x i st)
  = (if Ascii.eqb x "," && top_level before
     then args st ++ [strip (slice src (S (lastPos st)) (size_sub i (lastPos st) 1))]
     else args st)
  /\ lastPos (parse_iter src x i st)
     = (if Ascii.eqb x "," && top_level before then i else lastPos st).
Proof.
  destruct st as [lp pd bd cd q ar]. intros (Hq & Hp & Hb & Hc). simpl in *. subst.
  unfold parse_iter, toggle_quote, parse_char, top_level.
  case_char x dquote.
  { destruct (quoted_from false before); simpl; split; reflexivity. }
  destruct (quoted_from false before); simpl.
  { rewrite andb_false_r. split; reflexivity. }
  case_char x "("; [split; reflexivity |].
  case_char x ")"; [split; reflexivity |].
  case_char x "["; [split; reflexivity |].
  case_char x "]"; [split; reflexivity |].
  case_char x "{"; [split; reflexivity |].
  case_char x "}"; [split; reflexivity |].
  destruct (Ascii.eqb x ","); simpl; [| split; reflexivity].
  destruct ((_ =? 0)%Z && _ && _); split; reflexivity.
Qed.

Lemma split_top_level_nonempty (before rest cur : text) :
  split_top_level before rest cur <> [].
Proof.
  revert before cur. induction rest as [| x rest IH]; intros before cur; simpl.
  - discriminate.
  - destruct (Ascii.eqb x "," && top_level before); [discriminate | apply IH].
Qed.

Lemma removelast_cons_nonempty {A : Type} (a : A) (l : list A) :
  l <> [] -> removelast (a :: l) = a :: removelast l.
Proof. destruct l; [congruence | reflexivity]. Qed.

Lemma last_cons_nonempty {A : Type} (a d : A) (l : list A) :
  l <> [] -> List.last (a :: l) d = List.last l d.
Proof. destruct l; [congruence | reflexivity]. Qed.

(** The loop of the splitter cuts the text where the specification says:
    after [rest] its arguments are the trimmed pieces of [rest] that a
    comma at top level ends, and [lastPos] is just before the piece that
    is still open. *)
Lemma scan_pieces (src tl : text) (rest : text) :
  forall (before cur : text) (st : PState) (i : nat),
    tracks before st ->
    drop (S (lastPos st)) src = cur ++ rest ++ tl ->
    S (lastPos st) + length cur = i ->
    let st' := scan src rest i st in
    let pieces := split_top_level before rest cur in
    args st' = args st ++ map strip (removelast pieces)
    /\ drop (S (lastPos st')) src = List.last pieces [] ++ tl
    /\ S (lastPos st') + length (List.last pieces []) = i + length rest
    /\ tracks (before ++ rest) st'
    /\ stays_open src rest i st = round_open before rest.
Proof.
  induction rest as [| x rest IH]; intros before cur st i Ht Hd Hi; cbn zeta.
  - simpl. rewrite !app_nil_r. simpl in Hd. repeat split; try assumption; try lia.
    apply Ht. apply Ht. apply Ht. apply Ht.
  - cbn [scan split_top_level stays_open round_open length].
    pose proof (tracks_step src x i before st Ht) as Ht1.
    destruct (parse_iter_split src x i before st Ht) as [Ha Hl].
    assert (Hpd : parenDepth (parse_iter src x i st) = nesting "(" ")" (before ++ [x]))
      by apply Ht1.
    rewrite Hpd.
    replace (before ++ x :: rest) with ((before ++ [x]) ++ rest)
      by (rewrite <- app_assoc; reflexivity).
    destruct (Ascii.eqb x "," && top_level before).
    + assert (Hslice : slice src (S (lastPos st)) (size_sub i (lastPos st) 1) = cur).
      { rewrite size_sub_exact by lia. rewrite slice_exact by lia.
        replace (Z.to_nat (Z.of_nat i - Z.of_nat (lastPos st) - 1)) with (length cur)
          by lia.
        rewrite Hd. apply take_app_length. }
      rewrite Hslice in Ha.
      assert (Hd1 : drop (S (lastPos (parse_iter src x i st))) src = [] ++ rest ++ tl).
      { rewrite Hl. replace (S i) with (S (lastPos st) + (length cur + 1)) by lia.
        rewrite <- drop_drop, Hd.
        change (cur ++ (x :: rest) ++ tl) with (cur ++ [x] ++ rest ++ tl).
        rewrite app_assoc.
        replace (length cur + 1) with (length (cur ++ [x]))
          by (rewrite length_app; reflexivity).
        apply drop_app_length. }
      destruct (IH (before ++ [x]) [] (parse_iter src x i st) (S i) Ht1 Hd1
                  ltac:(rewrite Hl; simpl; lia)) as (H1 & H2 & H3 & H4 & H5).
      cbn zeta in *.
      pose proof (split_top_level_nonempty (before ++ [x]) rest []) as Hne.
      rewrite removelast_cons_nonempty, last_cons_nonempty by exact Hne.
      rewrite H1, Ha, H5. cbn [map]. rewrite <- app_assoc.
      repeat split; try assumption; try lia; apply H4.
    + assert (Hd1 : drop (S (lastPos (parse_iter src x i st))) src
                    = (cur ++ [x]) ++ rest ++ tl).
      { rewrite Hl, Hd, <- app_assoc. reflexivity. }
      destruct (IH (before ++ [x]) (cur ++ [x]) (parse_iter src x i st) (S i) Ht1 Hd1
                  ltac:(rewrite Hl, length_app; simpl; lia)) as (H1 & H2 & H3 & H4 & H5).
      cbn zeta in *.
      rewrite H1, Ha, H5.
      repeat split; try assumption; try lia; apply H4.
Qed.

Lemma join_commas_split (before rest cur : text) :
  join_commas (split_top_level before rest cur) = cur ++ rest.
Proof.
  revert before cur. induction rest as [| x rest IH]; intros before cur;
    cbn [split_top_level].
  - simpl. rewrite app_nil_r. reflexivity.
  - destruct (Ascii.eqb_spec x ",") as [-> | Hx]; cbn [andb].
    + destruct (top_level before).
      * pose proof (split_top_level_nonempty (before ++ [","%char]) rest []) as Hne.
        specialize (IH (before ++ [","%char]) []).
        destruct (split_top_level (before ++ [","%char]) rest []) as [| p ps];
          [congruence |].
        cbn [join_commas]. cbn [join_commas] in IH. rewrite IH. reflexivity.
      * rewrite IH, <- app_assoc. reflexivity.
    + rewrite IH, <- app_assoc. reflexivity.
Qed.

Lemma parse_args_top_level (pre body post : text) (o : ascii) :
  round_open [] body = true ->
  quoted_from false body = false ->
  nesting "(" ")" body = 0%Z ->
  parse_args (pre ++ o :: body ++ ")" :: post) (length pre)
  = Ok (map strip (split_top_level [] body []), S (length pre) + length body).
Proof.
  intros Hopen Hq Hn.
  set (src := pre ++ o :: body ++ ")" :: post). set (index := length pre).
  assert (Hdrop : drop (S index) src = body ++ ")" :: post).
  { unfold src, index. replace (S (length pre)) with (length pre + 1) by lia.
    rewrite <- drop_drop, drop_app_length. reflexivity. }
  destruct (scan_pieces src (")" :: post) body [] [] (parse_init index) (S index)
              (tracks_init index) Hdrop ltac:(simpl; lia))
    as (Ha & Hd & Hl & Ht & Hs).
  cbn zeta in *. simpl app in Ht.
  set (st := scan src body (S index) (parse_init index)) in *.
  set (pieces := split_top_level [] body []) in *.
  destruct Ht as (Htq & Htp & _ & _).
  unfold parse_args. rewrite Hdrop.
  rewrite parse_loop_closes by (fold st; congruence). fold st. cbv zeta.
  assert (Hlen : S (lastPos st) < length src).
  { destruct (Nat.lt_ge_cases (S (lastPos st)) (length src)) as [H | H]; [exact H |].
    rewrite drop_ge in Hd by exact H. destruct (List.last pieces []); discriminate. }
  rewrite substr_ok by lia. cbn [bind].
  rewrite size_sub_exact by lia. rewrite slice_exact by lia.
  replace (Z.to_nat (Z.of_nat (S index + length body) - Z.of_nat (lastPos st) - 1))
    with (length (List.last pieces [])) by lia.
  rewrite Hd, take_app_length, Ha. cbn [args parse_init app].
  change [strip (List.last pieces [])] with (map strip [List.last pieces []]).
  rewrite <- map_app, <- app_removelast_last by apply split_top_level_nonempty.
  reflexivity.
Qed.

(** C2.  The buffer [(a, (b,c), "d,e")] with the opening bracket at index 0
    is split into exactly [a], [(b,c)] and ["d,e"], and the same buffer
    with square and curly brackets in place of the inner ones into [a],
    [[b,c]] and [{d,e}].  In general, when the text between the opening
    delimiter and the closing round bracket that ends the list is cut at
    the commas that are outside every quoted literal and at depth zero of
    the round, square and curly brackets of that text, and nowhere else,
    the arguments returned are the pieces so obtained, each trimmed, and the
    index is left on the closing bracket; the pieces, with the commas put
    back between them, are the text.  Every argument returned is trimmed:
    trimming it again changes nothing and it has no white space at either
    end. *)
Theorem parse_args_sample_split :
  parse_args sample_buffer 0
  = Ok ([txt "a"; txt "(b,c)"; dquote :: txt "d,e" ++ [dquote]], 16)
  /\ parse_args sample_families 0 = Ok ([txt "a"; txt "[b,c]"; txt "{d,e}"], 16)
  /\ (forall (pre body post : text) (o : ascii),
        round_open [] body = true ->
        quoted_from false body = false ->
        nesting "(" ")" body = 0%Z ->
        parse_args (pre ++ o :: body ++ ")" :: post) (length pre)
        = Ok (map strip (split_top_level [] body []), S (length pre) + length body))
  /\ (forall body : text, join_commas (split_top_level [] body []) = body)
  /\ (forall src index,
        match parse_args src index with
        | Ok r => Forall (fun a => strip a = a /\ trimmed a) (fst r)
        | _ => True
        end).
Proof.
  split; [vm_compute; reflexivity |].
  split; [vm_compute; reflexivity |].
  split; [apply parse_args_top_level |].
  split; [intros body; apply (join_commas_split [] body []) |].
  intros src index. destruct (parse_args src index) as [r | | |] eqn:Hr; try exact I.
  unfold parse_args in Hr.
  eapply parse_loop_trimmed; [| | exact Hr].
  - intros s. split; [apply strip_idem | apply strip_trimmed].
  - constructor.
Qed.

Lemma parse_args_sample_split_witness :
  round_open [] (txt "a, [b,c], {d,e}") = true
  /\ quoted_from false (txt "a, [b,c], {d,e}") = false
  /\ nesting "(" ")" (txt "a, [b,c], {d,e}") = 0%Z
  /\ split_top_level [] (txt "a, [b,c], {d,e}") [] = [txt "a"; txt " [b,c]"; txt " {d,e}"]
  /\ parse_args (txt "f(a, [b,c], {d,e}) rest") 1
     = Ok ([txt "a"; txt "[b,c]"; txt "{d,e}"], 17).
Proof.
  split; [reflexivity | split; [reflexivity | split; [reflexivity |]]].
  split; [reflexivity |].
  pose proof (proj1 (proj2 (proj2 parse_args_sample_split))
                (txt "f") (txt "a, [b,c], {d,e}") (txt " rest") "("
                eq_refl eq_refl eq_refl) as H.
  etransitivity; [exact H | vm_compute; reflexivity].
Defined.



(** C10.  When the opening delimiter is inside the buffer and the scan
    reaches the end of the text with the round-bracket depth never
    negative, the splitter returns the trimmed pieces that the commas at
    top level of the text after the delimiter end, followed by a final
    argument: the text that starts just after the last of those commas (or
    after the opening delimiter) and runs to the end of the buffer, with
    its last character left out, trimmed.  The index is left where it
    was. *)
Theorem parse_args_unclosed (src : text) (index : nat) :
  let body := drop (S index) src in
  let pieces := split_top_level [] body [] in
  index < length src ->
  round_open [] body = true ->
  parse_args src index
  = Ok (map strip (removelast pieces) ++ [strip (removelast (List.last pieces []))],
        index).
Proof.
  intros body pieces Hi Hopen.
  destruct (scan_pieces src [] body [] [] (parse_init index) (S index)
              (tracks_init index) ltac:(simpl; rewrite app_nil_r; reflexivity)
              ltac:(simpl; lia))
    as (Ha & Hd & Hl & _ & Hs).
  cbn zeta in *. fold pieces in Ha, Hd, Hl.
  set (st := scan src body (S index) (parse_init index)) in *.
  rewrite app_nil_r in Hd.
  assert (Hlen : length body = length src - S index) by apply length_drop.
  unfold parse_args. fold body.
  rewrite parse_loop_open by congruence. fold st. cbv zeta.
  rewrite substr_ok by lia. cbn [bind]. rewrite Ha. cbn [args parse_init app].
  repeat f_equal.
  destruct (Nat.eq_dec (S (lastPos st)) (length src)) as [He | Hne].
  - rewrite slice_at_end by lia. rewrite drop_ge in Hd by lia. rewrite <- Hd.
    reflexivity.
  - rewrite size_sub_exact by lia. rewrite slice_exact by lia.
    rewrite Hd, removelast_firstn_len. f_equal. lia.
Qed.

Lemma parse_args_unclosed_witness :
  0 < length (txt "(a, [b, c")
  /\ round_open [] (drop 1 (txt "(a, [b, c")) = true
  /\ split_top_level [] (drop 1 (txt "(a, [b, c")) [] = [txt "a"; txt " [b, c"]
  /\ parse_args (txt "(a, [b, c") 0 = Ok ([txt "a"; txt "[b,"], 0).
Proof.
  split; [simpl; lia | split; [reflexivity | split; [reflexivity |]]].
  etransitivity.
  - apply (parse_args_unclosed (txt "(a, [b, c") 0); [simpl; lia | reflexivity].
  - vm_compute. reflexivity.
Defined.

(** C10, counterexample.  On the empty buffer the scan reaches the end of
    the text at once, with the depth never negative, and the splitter
    returns no final argument: it throws.  [FUNC_ARG] hands it that buffer
    when no opening round bracket follows the comment. *)
Lemma parse_args_empty_buffer_throws :
  round_open [] (drop 1 []) = true
  /\ parse_args [] 0 = Throw std_out_of_range
  /\ substr (txt "/* c */ int x;") 14 (size_sub 14 14 (-1)) = Ok []
  /\ func_arg_list (txt "/* c */ int x;") 7 = Throw std_out_of_range.
Proof. repeat split. Qed.

(** ** [FUNC_ARG] *)

Example sample_decl_comment_extracted :
  extract_comments sample_decl = [sample_decl_comment].
Proof. vm_compute. reflexivity. Qed.

Lemma process_src_command_FUNC_ARG env expand args context cmt src simplify filename :
  process_src_command env expand (txt "FUNC_ARG") args context cmt src simplify filename
  = func_arg simplify args src (end_index cmt) context.
Proof. destruct args; reflexivity. Qed.

Lemma report_buffers (msg : text) (context : DocContext) :
  mainSection (report msg context) = mainSection context
  /\ sections (report msg context) = sections context
  /\ output (report msg context) = output context
  /\ cerr (report msg context) = cerr context ++ [msg].
Proof. repeat split. Qed.


Lemma process_char_active (ch : ascii) (c : DocContext) :
  active_buffer (process_char ch c) = active_buffer c ++ [ch]
  /\ currentSection (process_char ch c) = currentSection c
  /\ cerr (process_char ch c) = cerr c
  /\ output (process_char ch c) = output c.
Proof.
  unfold process_char, active_buffer.
  destruct (currentSection c) as [| a k] eqn:Hs; cbn; rewrite Hs.
  - repeat split.
  - unfold append_to. rewrite lookup_insert_eq. repeat split.
Qed.

Lemma process_string_active (s : text) (c : DocContext) :
  active_buffer (process_string s c) = active_buffer c ++ s
  /\ currentSection (process_string s c) = currentSection c
  /\ cerr (process_string s c) = cerr c
  /\ output (process_string s c) = output c.
Proof.
  unfold process_string. revert c.
  induction s as [| ch s IH]; intros c; cbn [fold_left].
  - rewrite app_nil_r. repeat split.
  - destruct (IH (process_char ch c)) as (H1 & H2 & H3 & H4).
    destruct (process_char_active ch c) as (G1 & G2 & G3 & G4).
    rewrite H1, H2, H3, H4, G1, G2, G3, G4, <- app_assoc. repeat split.
Qed.

Lemma process_str_active (simplify : bool) (s : text) (c : DocContext) :
  active_buffer (process_str simplify s c)
  = active_buffer c ++ (if simplify then simplify_whitespace s else s)
  /\ cerr (process_str simplify s c) = cerr c
  /\ output (process_str simplify s c) = output c.
Proof.
  unfold process_str.
  destruct simplify; [destruct (process_string_active (simplify_whitespace s) c)
                        as (H1 & _ & H3 & H4)
                     | destruct (process_string_active s c) as (H1 & _ & H3 & H4)];
    repeat split; assumption.
Qed.




(** ** [FUNC_NAME] *)

Example sample_operator_comment_extracted :
  extract_comments sample_operator = [sample_operator_comment].
Proof. vm_compute. reflexivity. Qed.

Lemma back_while_between (p : ascii -> bool) (s : text) (e j : nat) :
  back_while p s e <= j < e -> p (at_ s j) = true.
Proof.
  induction e as [| e IH]; simpl; [lia |].
  destruct (p (at_ s e)) eqn:Hp; [| lia].
  intros H. destruct (Nat.eq_dec j e) as [-> | Hne]; [exact Hp | apply IH; lia].
Qed.

Lemma scan_while_ge (p : ascii -> bool) (rest : text) (i : nat) :
  i <= scan_while p rest i <= i + length rest.
Proof.
  revert i. induction rest as [| c rest IH]; intros i; simpl; [lia |].
  destruct (p c); [| lia]. specialize (IH (S i)). lia.
Qed.

Lemma scan_while_between (p : ascii -> bool) (rest : text) (i j : nat) :
  i <= j < scan_while p rest i -> p (nth (j - i) rest zero) = true.
Proof.
  revert i. induction rest as [| c rest IH]; intros i; simpl; [lia |].
  destruct (p c) eqn:Hp; [| lia].
  intros H. destruct (Nat.eq_dec j i) as [-> | Hne].
  - rewrite Nat.sub_diag. exact Hp.
  - replace (j - i) with (S (j - S i)) by lia. apply IH. lia.
Qed.

Lemma scan_while_at (p : ascii -> bool) (rest : text) (i : nat) :
  scan_while p rest i < i + length rest ->
  p (nth (scan_while p rest i - i) rest zero) = false.
Proof.
  revert i. induction rest as [| c rest IH]; intros i; simpl; [lia |].
  destruct (p c) eqn:Hp.
  - intros H. pose proof (scan_while_ge p rest (S i)).
    replace (scan_while p rest (S i) - i) with (S (scan_while p rest (S i) - S i)) by lia.
    apply IH. lia.
  - intros _. rewrite Nat.sub_diag. exact Hp.
Qed.

Lemma nth_drop_at (s : text) (i k : nat) : nth k (drop i s) zero = at_ s (i + k).
Proof.
  revert s. induction i as [| i IH]; intros s; simpl.
  - rewrite drop_0. reflexivity.
  - destruct s as [| c s]; simpl.
    + unfold at_. destruct k; reflexivity.
    + apply IH.
Qed.

Lemma In_take_drop (c : ascii) (s : text) (i n : nat) :
  In c (take n (drop i s)) -> exists j, i <= j < i + n /\ at_ s j = c.
Proof.
  intros H. apply (In_nth _ _ zero) in H as (k & Hk & Hc).
  rewrite length_take in Hk.
  exists (i + k). split; [lia |].
  rewrite <- Hc. rewrite nth_firstn.
  destruct (Nat.ltb_spec k n); [| lia]. symmetry. apply nth_drop_at.
Qed.

Lemma In_slice (c : ascii) (s : text) (pos : nat) (n : Z) :
  In c (slice s pos n) -> In c (drop pos s).
Proof.
  unfold slice. intros H. rewrite <- (take_drop (Z.to_nat (Z.min n (Z.of_nat (length s - pos)))) (drop pos s)).
  apply in_or_app. left. exact H.
Qed.

Lemma In_strip (c : ascii) (s : text) : In c (strip s) -> In c s.
Proof.
  unfold strip. intros H. apply In_slice in H.
  rewrite <- (take_drop (scan_while isspace s 0) s). apply in_or_app. right. exact H.
Qed.

Lemma ident_before_bracket_bounds (src : text) (ei : nat) :
  ei <= length src ->
  fst (ident_before_bracket src ei) <= snd (ident_before_bracket src ei)
  /\ snd (ident_before_bracket src ei) <= length src.
Proof.
  intros Hei. unfold ident_before_bracket. simpl.
  set (e1 := scan_while (not_char "(") (drop (S ei) src) (S ei)).
  split; [apply back_while_le |].
  pose proof (scan_while_ge (not_char "(") (drop (S ei) src) (S ei)) as He1.
  fold e1 in He1. rewrite length_drop in He1.
  pose proof (back_while_le (fun c => negb (is_ident c)) src e1) as Hle.
  destruct (Nat.eq_dec ei (length src)) as [-> | Hne]; [| lia].
  assert (e1 = S (length src)) as -> by lia.
  simpl. unfold at_. rewrite nth_overflow by lia. simpl.
  apply back_while_le.
Qed.

Lemma process_src_command_FUNC_NAME env expand args context cmt src simplify filename :
  process_src_command env expand (txt "FUNC_NAME") args context cmt src simplify filename
  = emit simplify (func_name src (end_index cmt)) context.
Proof. destruct args; reflexivity. Qed.

Lemma text_eqb_eq (a b : text) : text_eqb a b = true <-> a = b.
Proof.
  revert b. induction a as [| x a IH]; intros [| y b]; simpl;
    try (split; [discriminate | discriminate]); [split; reflexivity |].
  rewrite andb_true_iff, Ascii.eqb_eq, IH. split.
  - intros [-> ->]. reflexivity.
  - intros H. injection H as -> ->. split; reflexivity.
Qed.

Lemma is_ident_not_space (c : ascii) : is_ident c = true -> isspace c = false.
Proof.
  destruct c as [[] [] [] [] [] [] [] []]; vm_compute; intros H;
    first [reflexivity | discriminate H].
Qed.

Lemma forallb_In (p : ascii -> bool) (t : text) :
  (forall c, In c t -> p c = true) -> forallb p t = true.
Proof. intros H. apply forallb_forall. exact H. Qed.

Lemma trimmed_no_space (t : text) :
  (forall c, In c t -> isspace c = false) -> trimmed t.
Proof.
  intros H. destruct t as [| c t]; [left; reflexivity | right]. split.
  - apply H. left. reflexivity.
  - apply H. destruct (@exists_last _ (c :: t)) as (t' & d & ->); [discriminate |].
    rewrite last_last. apply in_or_app. right. left. reflexivity.
Qed.

(** Where the two backward loops of [FUNC_NAME] end.  The text before the
    first opening round bracket past the end of the comment is [a], then a
    run [ident] of identifier characters that [a] does not extend, then a
    run [gap] of other characters. *)
Lemma ident_before_bracket_split (a ident gap tail : text) (ei : nat) :
  ei < length (a ++ ident ++ gap) ->
  forallb (not_char "(") (drop (S ei) (a ++ ident ++ gap)) = true ->
  is_ident (List.last a " ") = false ->
  ident <> [] ->
  forallb is_ident ident = true ->
  forallb (fun c => negb (is_ident c)) gap = true ->
  ident_before_bracket (a ++ ident ++ gap ++ "(" :: tail) ei
  = (length a, length a + length ident).
Proof.
  intros Hei Hbr Ha Hne Hid Hgap.
  set (P := a ++ ident ++ gap) in *.
  assert (Hsrc : a ++ ident ++ gap ++ "(" :: tail = P ++ "(" :: tail)
    by (unfold P; rewrite <- !app_assoc; reflexivity).
  rewrite Hsrc. unfold ident_before_bracket.
  rewrite drop_app_le by lia.
  rewrite (scan_while_stop (not_char "(") (drop (S ei) P) tail "(" (S ei) Hbr eq_refl).
  rewrite length_drop. replace (S ei + (length P - S ei)) with (length P) by lia.
  assert (He2 : back_while (fun c => negb (is_ident c)) (P ++ "(" :: tail) (length P)
                = length a + length ident).
  { rewrite back_while_prefix by lia.
    unfold P. rewrite app_assoc.
    replace (length ((a ++ ident) ++ gap)) with (length (a ++ ident) + length gap)
      by (rewrite !length_app; lia).
    rewrite back_while_all by exact Hgap.
    destruct (@exists_last _ ident Hne) as (ident' & d & ->).
    rewrite forallb_app in Hid. apply andb_true_iff in Hid as [_ Hd].
    simpl in Hd. rewrite andb_true_r in Hd.
    rewrite app_assoc.
    replace (length ((a ++ ident') ++ [d])) with (S (length (a ++ ident')))
      by (rewrite !length_app; simpl; lia).
    rewrite back_while_stop by (rewrite Hd; reflexivity).
    rewrite !length_app. simpl. lia. }
  cbv zeta. rewrite He2. f_equal.
  unfold P. rewrite <- !app_assoc, app_assoc.
  rewrite back_while_prefix by (rewrite length_app; lia).
  rewrite <- length_app.
  rewrite length_app, back_while_all by exact Hid.
  destruct a as [| x a] using rev_ind; [reflexivity |].
  rewrite last_last in Ha.
  rewrite (length_app a [x]). simpl. rewrite Nat.add_1_r.
  apply back_while_stop. exact Ha.
Qed.

Lemma func_name_split (a ident gap tail : text) (ei : nat) :
  ei < length (a ++ ident ++ gap) ->
  forallb (not_char "(") (drop (S ei) (a ++ ident ++ gap)) = true ->
  is_ident (List.last a " ") = false ->
  ident <> [] ->
  forallb is_ident ident = true ->
  forallb (fun c => negb (is_ident c)) gap = true ->
  (ident <> txt "operator" ->
     func_name (a ++ ident ++ gap ++ "(" :: tail) ei = Ok ident)
  /\ (ident = txt "operator" -> forallb (not_char "(") gap = true ->
        func_name (a ++ ident ++ gap ++ "(" :: tail) ei = Ok (strip (ident ++ gap))).
Proof.
  intros Hei Hbr Ha Hne Hid Hgap.
  pose proof (ident_before_bracket_split a ident gap tail ei Hei Hbr Ha Hne Hid Hgap)
    as Hpair.
  set (src := a ++ ident ++ gap ++ "(" :: tail) in *.
  assert (Hlen : length src = length a + length ident + length gap + S (length tail)).
  { unfold src. rewrite !length_app. simpl. lia. }
  assert (Hei' : ei < length a + length ident + length gap)
    by (rewrite !length_app in Hei; lia).
  assert (Hda : drop (length a) src = ident ++ gap ++ "(" :: tail)
    by (unfold src; apply drop_app_length).
  assert (Hfix : strip ident = ident).
  { apply strip_fixed, trimmed_no_space. intros c Hin.
    apply is_ident_not_space. rewrite forallb_forall in Hid. apply Hid, Hin. }
  assert (Hfirst : func_name src ei
                   = if text_eqb ident (txt "operator") then
                       let e2 := length a + length ident in
                       let e3 := scan_while (not_char "(") (drop e2 src) e2 in
                       let* a' := substr src (length a) (size_sub e3 (length a) 0) in
                       Ok (strip a')
                     else Ok ident).
  { unfold func_name. destruct (Nat.ltb_spec (length src) ei); [lia |].
    rewrite Hpair. rewrite substr_ok by lia. cbn [bind].
    rewrite size_sub_exact by lia. rewrite slice_exact by lia.
    replace (Z.to_nat (Z.of_nat (length a + length ident) - Z.of_nat (length a) - 0))
      with (length ident) by lia.
    rewrite Hda, take_app_length, Hfix. reflexivity. }
  rewrite Hfirst. split.
  - intros Hop. destruct (text_eqb ident (txt "operator")) eqn:He; [| reflexivity].
    apply text_eqb_eq in He. contradiction.
  - intros Hop Hnb.
    assert (He : text_eqb ident (txt "operator") = true) by (apply text_eqb_eq, Hop).
    rewrite He. cbv zeta.
    assert (Hde : drop (length a + length ident) src = gap ++ "(" :: tail).
    { rewrite <- drop_drop, Hda. apply drop_app_length. }
    rewrite Hde.
    rewrite (scan_while_stop (not_char "(") gap tail "(" _ Hnb eq_refl).
    rewrite substr_ok by lia. cbn [bind].
    rewrite size_sub_exact by lia. rewrite slice_exact by lia.
    replace (Z.to_nat (Z.of_nat (length a + length ident + length gap)
                       - Z.of_nat (length a) - 0))
      with (length (ident ++ gap)) by (rewrite length_app; lia).
    rewrite Hda, app_assoc, take_app_length. reflexivity.
Qed.

Lemma In_collapse_ws (c : ascii) (s : text) (k : bool) :
  In c (collapse_ws s k) -> c = " "%char \/ In c s.
Proof.
  revert k. induction s as [| x s IH]; intros k; simpl; [tauto |].
  destruct (isspace x).
  - destruct k; simpl; intros H.
    + destruct (IH _ H); auto.
    + destruct H as [H | H]; [auto |]. destruct (IH _ H); auto.
  - simpl. intros [H | H]; [auto |]. destruct (IH _ H); auto.
Qed.

Lemma In_simplify_whitespace (c : ascii) (s : text) :
  In c (simplify_whitespace s) -> c = " "%char \/ In c s.
Proof. unfold simplify_whitespace. intros H. apply In_strip, In_collapse_ws in H. exact H. Qed.

Lemma simplify_whitespace_no_space (s : text) :
  (forall c, In c s -> isspace c = false) -> simplify_whitespace s = s.
Proof.
  intros H. unfold simplify_whitespace.
  assert (Hc : forall k, collapse_ws s k = s).
  { induction s as [| x s IH]; intros k; simpl; [reflexivity |].
    rewrite (H x) by (left; reflexivity). f_equal. apply IH.
    intros c Hin. apply H. right. exact Hin. }
  rewrite Hc. apply strip_fixed, trimmed_no_space, H.
Qed.

(** C8, as the code has it.  [FUNC_NAME] takes the first opening round
    bracket at an index greater than the comment's end index.  With the
    text before that bracket read as [a], then a run [ident] of identifier
    characters that [a] does not extend, then a run [gap] of other
    characters, the command produces [ident].  When [ident] is the
    keyword [operator] (and [gap] holds no opening round bracket, which
    can only be one inside the comment), it produces instead the trimmed
    text from the start of the keyword up to the bracket, the bracket left
    out: the text produced contains no opening round bracket.  Producing
    a text puts it, with its white space simplified if the command asks
    for it, at the end of the active buffer. *)
Theorem func_name_operator env expand args context cmt simplify filename
    (a ident gap tail : text) :
  let ei := end_index cmt in
  let src := a ++ ident ++ gap ++ "(" :: tail in
  let run :=
    process_src_command env expand (txt "FUNC_NAME") args context cmt src simplify
      filename in
  let produced (s : text) := if simplify then simplify_whitespace s else s in
  ei < length (a ++ ident ++ gap) ->
  forallb (not_char "(") (drop (S ei) (a ++ ident ++ gap)) = true ->
  is_ident (List.last a " ") = false ->
  ident <> [] ->
  forallb is_ident ident = true ->
  forallb (fun c => negb (is_ident c)) gap = true ->
  (ident <> txt "operator" ->
     run = Ok (process_str simplify ident context) /\ produced ident = ident)
  /\ (ident = txt "operator" -> forallb (not_char "(") gap = true ->
        run = Ok (process_str simplify (strip (ident ++ gap)) context)
        /\ ~ In "("%char (produced (strip (ident ++ gap))))
  /\ (forall s,
        let context' := process_str simplify s context in
        active_buffer context' = active_buffer context ++ produced s
        /\ cerr context' = cerr context
        /\ output context' = output context).
Proof.
  intros ei src run produced Hei Hbr Ha Hne Hid Hgap.
  destruct (func_name_split a ident gap tail ei Hei Hbr Ha Hne Hid Hgap) as [Hplain Hop].
  unfold run. rewrite process_src_command_FUNC_NAME. fold ei. fold src.
  split; [| split].
  - intros Hn. split; [unfold src; rewrite (Hplain Hn); reflexivity |].
    unfold produced. destruct simplify; [| reflexivity].
    apply simplify_whitespace_no_space. intros c Hin.
    apply is_ident_not_space. rewrite forallb_forall in Hid. apply Hid, Hin.
  - intros He Hnb. split.
    + unfold src. rewrite (Hop He Hnb). reflexivity.
    + intros Hin.
      assert (Hin' : In "("%char (strip (ident ++ gap))).
      { unfold produced in Hin. destruct simplify; [| exact Hin].
        apply In_simplify_whitespace in Hin as [Hin | Hin]; [discriminate | exact Hin]. }
      apply In_strip in Hin'. apply in_app_or in Hin' as [Hin' | Hin'].
      * rewrite forallb_forall in Hid. specialize (Hid _ Hin'). discriminate Hid.
      * rewrite forallb_forall in Hnb. specialize (Hnb _ Hin'). discriminate Hnb.
  - intros s. apply process_str_active.
Qed.

Lemma func_name_operator_witness :
  let a := txt "/* @DOC f(x) @FUNC_NAME @END */" ++ newline :: txt "bool " in
  let src := a ++ txt "operator" ++ txt "==" ++ "(" :: txt "int a);" in
  let cmt := mkCommentData 0 31 (txt "@DOC f(x) @FUNC_NAME @END") in
  extract_comments src = [cmt]
  /\ exists context',
       process_src_command bare_env (fun _ _ => DepthExceeded) (txt "FUNC_NAME") []
         bare_context cmt src false (txt "f.cpp")
       = Ok context'
       /\ mainSection context' = txt "operator=="
       /\ ~ In "("%char (txt "operator==").
Proof.
  intros a src cmt.
  split; [vm_compute; reflexivity |].
  assert (Hbr : forallb (not_char "(") (drop 32 (a ++ txt "operator" ++ txt "==")) = true)
    by (vm_compute; reflexivity).
  destruct (func_name_operator bare_env (fun _ _ => DepthExceeded) [] bare_context cmt
              false (txt "f.cpp") a (txt "operator") (txt "==") (txt "int a);")
              ltac:(vm_compute; lia) Hbr eq_refl ltac:(discriminate) eq_refl eq_refl)
    as (_ & Hop & Happ).
  destruct (Hop eq_refl eq_refl) as [Hrun Hno].
  eexists. split; [exact Hrun |].
  split.
  - destruct (Happ (strip (txt "operator" ++ txt "=="))) as (H1 & _).
    etransitivity; [exact H1 | vm_compute; reflexivity].
  - intros Hin. apply Hno. vm_compute. vm_compute in Hin. exact Hin.
Defined.

(** C8, counterexample.  For a comparison operator the identifier found
    is [operator], and the text emitted is [operator==]: it stops before
    the opening round bracket and does not include it. *)
Lemma func_name_operator_excludes_bracket :
  strip (take 8 (drop 32 sample_operator)) = txt "operator"
  /\ exists context',
       process_src_command bare_env (fun _ _ => DepthExceeded) (txt "FUNC_NAME") []
         bare_context sample_operator_comment sample_operator false (txt "f.cpp")
       = Ok context'
       /\ mainSection context' = txt "operator=="
       /\ ~ In "(" (mainSection context').
Proof.
  split; [reflexivity |].
  eexists. split; [vm_compute; reflexivity |].
  split; [reflexivity |].
  simpl. intros H. repeat (destruct H as [H | H]; [discriminate H |]). exact H.
Qed.

(** ** The section selector across the comments of a file *)

Lemma process_source_unfold depth env src context realSource filename :
  process_source depth env src context realSource filename
  = process_comments env (alias_expander depth env filename) src realSource filename
      (extract_comments src) context.
Proof. destruct depth; reflexivity. Qed.

Lemma bind_assoc {A B C : Type} (m : outcome A) (f : A -> outcome B)
    (g : B -> outcome C) :
  bind (bind m f) g = bind m (fun a => bind (f a) g).
Proof. destruct m; reflexivity. Qed.

Lemma process_comments_app env expand src realSource filename cs1 cs2 context :
  process_comments env expand src realSource filename (cs1 ++ cs2) context
  = (let* c1 := process_comments env expand src realSource filename cs1 context in
     process_comments env expand src realSource filename cs2 c1).
Proof.
  revert context. induction cs1 as [| cmt cs1 IH]; intros context; simpl.
  - reflexivity.
  - destruct (process_comment env expand src realSource filename cmt context);
      simpl; auto.
Qed.

Lemma process_comment_real env expand src filename cmt context :
  process_comment env expand src true filename cmt context
  = (let* c := process_comment env expand src false filename cmt context in
     Ok (set_currentSection [] c)).
Proof.
  unfold process_comment.
  destruct (comment_loop _ (comment cmt) (comment cmt) 0 0 false context); reflexivity.
Qed.

Lemma process_comments_selector env expand src filename cs context context' :
  cs <> [] ->
  process_comments env expand src true filename cs context = Ok context' ->
  currentSection context' = [].
Proof.
  revert context. induction cs as [| cmt cs IH]; intros context Hne H; [congruence |].
  simpl in H. rewrite process_comment_real in H.
  destruct (process_comment env expand src false filename cmt context) as [c | | |];
    simpl in H; try discriminate.
  destruct cs as [| cmt' cs].
  - simpl in H. injection H as <-. reflexivity.
  - apply (IH _ ltac:(discriminate) H).
Qed.

(** C1, as the code has it.  In a real source file the section selector is
    cleared after every comment, not once after the last: whatever
    section a comment selects, the comments after it are interpreted
    starting from the main selector, and after a file with at least one
    comment the main selector is current. *)
Theorem section_reset_after_each_comment depth env src context filename cs1 cmt cs2 :
  let expand := alias_expander depth env filename in
  extract_comments src = cs1 ++ cmt :: cs2 ->
  process_source depth env src context true filename
  = (let* c1 := process_comments env expand src true filename cs1 context in
     let* c2 := process_comment env expand src false filename cmt c1 in
     process_comments env expand src true filename cs2 (set_currentSection [] c2))
  /\ (forall context',
        process_source depth env src context true filename = Ok context' ->
        currentSection context' = []).
Proof.
  intros expand Hcs. rewrite process_source_unfold, Hcs. fold expand. split.
  - rewrite process_comments_app.
    destruct (process_comments env expand src true filename cs1 context) as [c1 | | |];
      try reflexivity.
    simpl. rewrite process_comment_real.
    destruct (process_comment env expand src false filename cmt c1); reflexivity.
  - intros context'. apply process_comments_selector.
    destruct cs1; discriminate.
Qed.

Lemma section_reset_after_each_comment_witness :
  extract_comments sample_two_comments
  = [] ++ mkCommentData 0 29 (txt "@DOC @SECTION(x) a @END")
       :: [mkCommentData 30 47 (txt "@DOC b @END")]
  /\ exists context',
       process_source 0 bare_env sample_two_comments bare_context true (txt "f.cpp")
       = Ok context'
       /\ currentSection context' = [].
Proof.
  assert (Hx : extract_comments sample_two_comments
               = [] ++ mkCommentData 0 29 (txt "@DOC @SECTION(x) a @END")
                    :: [mkCommentData 30 47 (txt "@DOC b @END")])
    by (vm_compute; reflexivity).
  split; [exact Hx |].
  destruct (section_reset_after_each_comment 0 bare_env sample_two_comments
              bare_context (txt "f.cpp") []
              (mkCommentData 0 29 (txt "@DOC @SECTION(x) a @END"))
              [mkCommentData 30 47 (txt "@DOC b @END")] Hx) as [_ H].
  eexists. split; [vm_compute; reflexivity |].
  apply H. vm_compute. reflexivity.
Defined.

(** C1, counterexample.  In a file of two comments where the first selects
    section [x], the text of the second comment goes to the main buffer:
    the section does not stay selected.  Had the selector been cleared
    once after the whole file, that text would have gone to [x]. *)
Lemma section_not_kept_between_comments :
  (exists c, process_source 0 bare_env sample_two_comments bare_context true (txt "f.cpp")
             = Ok c
             /\ sections c !! txt "x" = Some (txt " a ")
             /\ mainSection c = txt "  b ")
  /\ (exists c, process_source_reset_per_file 0 bare_env sample_two_comments
                  bare_context (txt "f.cpp") = Ok c
                /\ sections c !! txt "x" = Some (txt " a  b ")
                /\ mainSection c = txt " ")
  /\ process_source 0 bare_env sample_two_comments bare_context true (txt "f.cpp")
     <> process_source_reset_per_file 0 bare_env sample_two_comments bare_context
          (txt "f.cpp").
Proof.
  split; [| split].
  - eexists. split; [vm_compute; reflexivity |]. split; reflexivity.
  - eexists. split; [vm_compute; reflexivity |]. split; reflexivity.
  - vm_compute. intros H. discriminate H.
Qed.

(** ** The bound on alias expansion only cuts runs that exceed it *)

Lemma bind_mono {A B : Type} (m : outcome A) (k1 k2 : A -> outcome B) :
  (forall a, k1 a <> DepthExceeded -> k2 a = k1 a) ->
  bind m k1 <> DepthExceeded -> bind m k2 = bind m k1.
Proof. intros Hk H. destruct m; simpl in *; auto. Qed.

Lemma process_src_command_mono env e1 e2 command_ args context cmt src simplify filename :
  expand_le e1 e2 ->
  process_src_command env e1 command_ args context cmt src simplify filename
    <> DepthExceeded ->
  process_src_command env e2 command_ args context cmt src simplify filename
  = process_src_command env e1 command_ args context cmt src simplify filename.
Proof.
  intros Hle. revert command_ context simplify.
  induction args as [| a args IH]; intros command_ context simplify.
  - cbn [process_src_command].
    repeat (match goal with
            | |- context [if ?b then _ else _] => destruct b
            end; try reflexivity).
    all: try (destruct (aliases context !! _); [| reflexivity]).
    all: apply bind_mono; intros; apply Hle; assumption.
  - cbn [process_src_command].
    repeat (match goal with
            | |- context [if ?b then _ else _] => destruct b
            end; try reflexivity).
    all: try apply IH.
    all: try (destruct (aliases context !! _); [| reflexivity]).
    all: apply bind_mono; intros; apply Hle; assumption.
Qed.

Lemma comment_loop_mono run1 run2 cmt rest idx skip doc context :
  (forall cmdName args ctx, run1 cmdName args ctx <> DepthExceeded ->
                            run2 cmdName args ctx = run1 cmdName args ctx) ->
  comment_loop run1 cmt rest idx skip doc context <> DepthExceeded ->
  comment_loop run2 cmt rest idx skip doc context
  = comment_loop run1 cmt rest idx skip doc context.
Proof.
  intros Hrun. revert idx skip doc context.
  induction rest as [| c rest IH]; intros idx skip doc context; [reflexivity |].
  cbn [comment_loop]. destruct skip as [| k]; [| apply IH].
  destruct (Ascii.eqb c "@" && isupper (hd zero rest)); [| apply IH].
  destruct (substr cmt (S idx) _) as [cmdName | | |]; try reflexivity.
  cbn [bind].
  destruct (if Ascii.eqb (at_ cmt (scan_while is_ident rest (S idx))) "(" then _ else _)
    as [[args index1] | | |]; try reflexivity.
  cbn [bind].
  destruct (named cmdName "DOC"); [apply IH |].
  destruct (named cmdName "END"); [apply IH |].
  destruct doc; [| apply IH].
  destruct (run1 cmdName args context) as [c1 | | |] eqn:H1.
  - rewrite (Hrun cmdName args context) by (rewrite H1; discriminate).
    rewrite H1. apply IH.
  - rewrite (Hrun cmdName args context) by (rewrite H1; discriminate).
    rewrite H1. reflexivity.
  - rewrite (Hrun cmdName args context) by (rewrite H1; discriminate).
    rewrite H1. reflexivity.
  - intros H. exfalso. apply H. reflexivity.
Qed.

Lemma process_comment_mono env e1 e2 src realSource filename cmt context :
  expand_le e1 e2 ->
  process_comment env e1 src realSource filename cmt context <> DepthExceeded ->
  process_comment env e2 src realSource filename cmt context
  = process_comment env e1 src realSource filename cmt context.
Proof.
  intros Hle H. unfold process_comment in *.
  match goal with
  | |- bind (comment_loop ?r2 ?a ?b ?i ?k ?d ?c) _ = bind (comment_loop ?r1 _ _ _ _ _ _) _ =>
      assert (Hloop : comment_loop r2 a b i k d c = comment_loop r1 a b i k d c)
  end.
  { apply comment_loop_mono.
    - intros. apply process_src_command_mono; assumption.
    - intros Hc. apply H. rewrite Hc. reflexivity. }
  rewrite Hloop. reflexivity.
Qed.

Lemma process_comments_mono env e1 e2 src realSource filename comments context :
  expand_le e1 e2 ->
  process_comments env e1 src realSource filename comments context <> DepthExceeded ->
  process_comments env e2 src realSource filename comments context
  = process_comments env e1 src realSource filename comments context.
Proof.
  intros Hle. revert context.
  induction comments as [| cmt comments IH]; intros context H; [reflexivity |].
  cbn [process_comments] in *.
  rewrite (process_comment_mono env e1 e2) by
    (try assumption; intros Hc; apply H; rewrite Hc; reflexivity).
  apply bind_mono; [| exact H]. intros c Hc. apply IH, Hc.
Qed.

(** A result obtained within a bound is the result at every larger bound:
    [DepthExceeded] is returned only when the nesting of expansions goes
    beyond [depth]. *)
Lemma process_source_depth_mono depth env src context realSource filename :
  process_source depth env src context realSource filename <> DepthExceeded ->
  process_source (S depth) env src context realSource filename
  = process_source depth env src context realSource filename.
Proof.
  revert src context realSource.
  induction depth as [| depth IH]; intros src context realSource;
    rewrite !process_source_unfold; apply process_comments_mono.
  - intros pseudo ctx H. exfalso. apply H. reflexivity.
  - intros pseudo ctx H. cbn [alias_expander] in *. apply IH, H.
Qed.

(** ** Alias expansion *)

Lemma process_char_aliases (c : ascii) (context : DocContext) :
  aliases (process_char c context) = aliases context.
Proof. unfold process_char. destruct (currentSection context); reflexivity. Qed.

Lemma process_string_aliases (s : text) (context : DocContext) :
  aliases (process_string s context) = aliases context.
Proof.
  unfold process_string. revert context.
  induction s as [| c s IH]; intros context; simpl; [reflexivity |].
  rewrite IH. apply process_char_aliases.
Qed.

Lemma process_src_command_X env expand args context cmt src simplify filename :
  process_src_command env expand (txt "X") args context cmt src simplify filename
  = match aliases context !! txt "X" with
    | Some replacement =>
        let* pseudo := alias_source replacement src (end_index cmt) in
        expand pseudo context
    | None => run_plugin env simplify (txt "X") args src (end_index cmt) context
    end.
Proof. destruct args; reflexivity. Qed.

(** The interpretation of the comment [@DOC @X @END], and of the comment
    of the pseudo-source, for any command runner. *)
Lemma self_alias_source_loop run (context : DocContext) :
  comment_loop run (txt "@DOC @X @END") (txt "@DOC @X @END") 0 0 false context
  = (let* c := run (txt "X") [] (process_char " " context) in
     Ok (process_char " " c)).
Proof. cbv -[process_char]. destruct (run _ _ _); reflexivity. Qed.

Lemma self_alias_pseudo_loop run (context : DocContext) :
  comment_loop run (txt "@DOC" ++ [newline] ++ txt "@X" ++ [newline] ++ txt "@END")
    (txt "@DOC" ++ [newline] ++ txt "@X" ++ [newline] ++ txt "@END") 0 0 false context
  = (let* c := run (txt "X") [] (process_char newline context) in
     Ok (process_char newline c)).
Proof. cbv -[process_char]. destruct (run _ _ _); reflexivity. Qed.

(** Expanding the alias inside the pseudo-source gives the pseudo-source
    again. *)
Lemma self_alias_pseudo_step depth env context filename :
  aliases context !! txt "X" = Some (txt "@X") ->
  process_source depth env self_alias_pseudo context false filename
  = (let* c := alias_expander depth env filename self_alias_pseudo
                 (process_char newline context) in
     Ok (process_char newline c)).
Proof.
  intros HX. rewrite process_source_unfold.
  assert (Hc : extract_comments self_alias_pseudo
               = [mkCommentData 0 18
                    (txt "@DOC" ++ [newline] ++ txt "@X" ++ [newline] ++ txt "@END")])
    by (vm_compute; reflexivity).
  rewrite Hc. cbn [process_comments]. unfold process_comment. cbn [comment].
  rewrite self_alias_pseudo_loop. rewrite process_src_command_X.
  rewrite process_char_aliases, HX. cbn [end_index].
  assert (Ha : alias_source (txt "@X") self_alias_pseudo 18 = Ok self_alias_pseudo)
    by (vm_compute; reflexivity).
  rewrite Ha. cbn [bind].
  destruct (alias_expander depth env filename self_alias_pseudo _); reflexivity.
Qed.

Lemma self_alias_pseudo_unbounded depth env context filename :
  aliases context !! txt "X" = Some (txt "@X") ->
  process_source depth env self_alias_pseudo context false filename = DepthExceeded.
Proof.
  revert context. induction depth as [| depth IH]; intros context HX;
    rewrite self_alias_pseudo_step by exact HX.
  - reflexivity.
  - cbn [alias_expander]. rewrite IH; [reflexivity |].
    rewrite process_char_aliases. exact HX.
Qed.

(** C9.  With the alias table that maps [X] to [@X], the file whose only
    comment is [@DOC @X @END] has no result at any bound on the nesting
    of alias expansions: each expansion re-enters the interpreter on a
    pseudo-source that invokes the alias again, and nothing stops it. *)
Theorem alias_self_reference_unbounded :
  aliases self_alias_context !! txt "X" = Some (txt "@X")
  /\ forall depth env filename,
       process_source depth env self_alias_source self_alias_context true filename
       = DepthExceeded.
Proof.
  split; [vm_compute; reflexivity |].
  intros depth env filename. rewrite process_source_unfold.
  assert (Hc : extract_comments self_alias_source
               = [mkCommentData 0 18 (txt "@DOC @X @END")])
    by (vm_compute; reflexivity).
  rewrite Hc. cbn [process_comments]. unfold process_comment. cbn [comment].
  rewrite self_alias_source_loop. rewrite process_src_command_X.
  rewrite process_char_aliases.
  assert (HX : aliases self_alias_context !! txt "X" = Some (txt "@X"))
    by (vm_compute; reflexivity).
  rewrite HX. cbn [end_index].
  assert (Ha : alias_source (txt "@X") self_alias_source 18 = Ok self_alias_pseudo)
    by (vm_compute; reflexivity).
  rewrite Ha. cbn [bind].
  destruct depth as [| depth]; cbn [alias_expander]; [reflexivity |].
  rewrite self_alias_pseudo_unbounded; [reflexivity |].
  rewrite process_char_aliases. exact HX.
Qed.

Lemma find_in_cons (pat : text) (c : ascii) (rest : text) (i : nat) :
  find_in pat (c :: rest) i
  = if text_eqb (take (length pat) (c :: rest)) pat then Some i
    else find_in pat rest (S i).
Proof. reflexivity. Qed.

Lemma find_in_shift (pat rest : text) (i : nat) :
  find_in pat rest i = (fun e => i + e) <$> find_in pat rest 0.
Proof.
  revert i. induction rest as [| c rest IH]; intros i; simpl.
  - destruct (text_eqb (take (length pat) []) pat); simpl; [f_equal; lia | reflexivity].
  - destruct (text_eqb (take (length pat) (c :: rest)) pat); simpl; [f_equal; lia |].
    rewrite (IH (S i)), (IH 1). destruct (find_in pat rest 0); simpl; [f_equal; lia | reflexivity].
Qed.

Lemma find_in_ge (pat rest : text) (i e : nat) :
  find_in pat rest i = Some e -> i <= e.
Proof.
  rewrite find_in_shift. destruct (find_in pat rest 0); simpl; [| discriminate].
  intros H. injection H as <-. lia.
Qed.








(** ** Errors and the end of the run *)

(** A run that goes through: the document is the base name of the file. *)
Example file_name_document : main 0 file_name_env = Ok (Some (txt "unit.src")).
Proof. vm_compute. reflexivity. Qed.

(** With no [.docgen] file the program leaves at once and writes nothing. *)
Example no_docgen_no_document : forall depth env,
  docgen_file env = None -> main depth env = Ok None.
Proof. intros depth env H. unfold main. rewrite H. reflexivity. Qed.

Lemma non_numeric_source_throws depth env context filename :
  process_source depth env non_numeric_source context true filename
  = Throw std_invalid_argument.
Proof.
  rewrite process_source_unfold.
  generalize (alias_expander depth env filename). intros expand.
  assert (Hc : extract_comments non_numeric_source
               = [mkCommentData 0 30 (txt "@DOC @FUNC_ARG(abc) @END")])
    by (vm_compute; reflexivity).
  rewrite Hc. cbn [process_comments]. unfold process_comment. cbn [comment].
  assert (Hloop : forall run,
            comment_loop run (txt "@DOC @FUNC_ARG(abc) @END")
              (txt "@DOC @FUNC_ARG(abc) @END") 0 0 false context
            = (let* c := run (txt "FUNC_ARG") [txt "abc"] (process_char " " context) in
               Ok (process_char " " c))).
  { intros run. cbv -[process_char]. destruct (run _ _ _); reflexivity. }
  rewrite Hloop. rewrite process_src_command_FUNC_ARG.
  unfold func_arg. cbn [end_index].
  assert (Hl : func_arg_list non_numeric_source 30 = Ok [txt "int a"])
    by (vm_compute; reflexivity).
  assert (Hs : stoi (txt "abc") = Throw std_invalid_argument)
    by (vm_compute; reflexivity).
  rewrite Hl, Hs. reflexivity.
Qed.

(** An unknown command is reported and the context is otherwise left as it
    was. *)
Lemma unknown_command_reported env expand args context cmt src simplify filename :
  aliases context !! txt "NOPE" = None ->
  lib_lookup env (built context) (txt "NOPE") = LibAbsent ->
  process_src_command env expand (txt "NOPE") args context cmt src simplify filename
  = Ok (report (txt "Error: Unknown command NOPE" ++ [newline]) context).
Proof.
  intros Ha Hl.
  assert (H : process_src_command env expand (txt "NOPE") args context cmt src simplify
                filename
              = match aliases context !! txt "NOPE" with
                | Some replacement =>
                    let* pseudo := alias_source replacement src (end_index cmt) in
                    expand pseudo context
                | None => run_plugin env simplify (txt "NOPE") args src (end_index cmt)
                            context
                end) by (destruct args; reflexivity).
  rewrite H, Ha. unfold run_plugin. rewrite Hl. reflexivity.
Qed.

(** A second way out of the run: a line comment that ends the file and
    asks for the next declaration makes [substr] throw. *)
Example next_decl_at_end_of_file :
  forall depth env context filename,
    process_source depth env (txt "// @DOC @NEXT_DECL") context true filename
    = Throw std_out_of_range.
Proof.
  intros depth env context filename. rewrite process_source_unfold.
  generalize (alias_expander depth env filename). intros expand.
  assert (Hc : extract_comments (txt "// @DOC @NEXT_DECL")
               = [mkCommentData 0 18 (txt "@DOC @NEXT_DECL")])
    by (vm_compute; reflexivity).
  rewrite Hc. cbn [process_comments]. unfold process_comment. cbn [comment].
  assert (Hloop : forall run,
            comment_loop run (txt "@DOC @NEXT_DECL") (txt "@DOC @NEXT_DECL") 0 0 false
              context
            = (let* c := run (txt "NEXT_DECL") [] (process_char " " context) in Ok c)).
  { intros run. cbv -[process_char]. destruct (run _ _ _); reflexivity. }
  rewrite Hloop.
  assert (Hd : forall ctx,
            process_src_command env expand (txt "NEXT_DECL") [] ctx
              (mkCommentData 0 18 (txt "@DOC @NEXT_DECL")) (txt "// @DOC @NEXT_DECL")
              false filename
            = Throw std_out_of_range).
  { intros ctx. vm_compute. reflexivity. }
  rewrite Hd. reflexivity.
Qed.

(** C5, the failing run.  The template asks for the sources to be
    processed and one source file documents a declaration with
    [@FUNC_ARG(abc)].  [std::stoi] throws on the argument, nothing catches
    the exception, and the run ends there: no document is produced. *)
Theorem non_numeric_func_arg_ends_run :
  forall depth, main depth non_numeric_env = Throw std_invalid_argument.
Proof.
  intros depth. unfold main. cbn [docgen_file non_numeric_env].
  assert (Hlines : getlines (txt "@@PROCESS_SOURCES(src/*.cpp)@@" ++ [newline]) []
                   = [txt "@@PROCESS_SOURCES(src/*.cpp)@@"])
    by (vm_compute; reflexivity).
  rewrite Hlines. cbn [main_loop].
  assert (Hcmd : is_command_line (txt "@@PROCESS_SOURCES(src/*.cpp)@@") = true)
    by (vm_compute; reflexivity).
  rewrite Hcmd.
  assert (Hfind : find (txt "@@") (txt "@@PROCESS_SOURCES(src/*.cpp)@@") 2 = Some 28)
    by (vm_compute; reflexivity).
  rewrite Hfind.
  assert (Hsub : substr (txt "@@PROCESS_SOURCES(src/*.cpp)@@") 2 (size_sub 28 0 2)
                 = Ok (txt "PROCESS_SOURCES(src/*.cpp)"))
    by (vm_compute; reflexivity).
  rewrite Hsub. cbn [bind].
  assert (Hmd : forall context,
            process_md_command depth non_numeric_env (txt "PROCESS_SOURCES(src/*.cpp)") context
            = Throw std_invalid_argument).
  { intros context. unfold process_md_command.
    assert (Hp : strip (txt "PROCESS_SOURCES(src/*.cpp)") = txt "PROCESS_SOURCES(src/*.cpp)")
      by (vm_compute; reflexivity).
    rewrite Hp.
    assert (Hf : find (txt "(") (txt "PROCESS_SOURCES(src/*.cpp)") 0 = Some 15)
      by (vm_compute; reflexivity).
    rewrite Hf.
    assert (Hn : substr (txt "PROCESS_SOURCES(src/*.cpp)") 0 (Z.of_nat 15)
                 = Ok (txt "PROCESS_SOURCES")) by (vm_compute; reflexivity).
    assert (Ha : parse_args (txt "PROCESS_SOURCES(src/*.cpp)") 15 = Ok ([txt "src/*.cpp"], 25))
      by (vm_compute; reflexivity).
    rewrite Hn, Ha. cbn [bind fst].
    assert (Hs : strip (txt "PROCESS_SOURCES") = txt "PROCESS_SOURCES")
      by (vm_compute; reflexivity).
    rewrite Hs.
    change (named (txt "PROCESS_SOURCES") "NEW_COMMAND") with false.
    change (named (txt "PROCESS_SOURCES") "PROCESS_SOURCES") with true.
    cbv iota. cbn [rglob non_numeric_env process_sources].
    rewrite non_numeric_source_throws. reflexivity. }
  rewrite Hmd. reflexivity.
Qed.

(** What the command does right: a missing section is reported and the
    output is left as it was, and a run of two blank lines becomes one. *)
Lemma insert_section_missing depth env context :
  sections context !! txt "t" = None ->
  process_md_command depth env (txt "INSERT_SECTION(t)") context
  = Ok (report (txt "Error: Section t not found" ++ [newline]) context).
Proof.
  intros Hs. unfold process_md_command.
  assert (Hp : strip (txt "INSERT_SECTION(t)") = txt "INSERT_SECTION(t)")
    by (vm_compute; reflexivity).
  rewrite Hp.
  assert (Hf : find (txt "(") (txt "INSERT_SECTION(t)") 0 = Some 14)
    by (vm_compute; reflexivity).
  rewrite Hf.
  assert (Hn : substr (txt "INSERT_SECTION(t)") 0 (Z.of_nat 14)
               = Ok (txt "INSERT_SECTION")) by (vm_compute; reflexivity).
  assert (Ha : parse_args (txt "INSERT_SECTION(t)") 14 = Ok ([txt "t"], 16))
    by (vm_compute; reflexivity).
  rewrite Hn, Ha. cbn [bind fst].
  assert (Hc : strip (txt "INSERT_SECTION") = txt "INSERT_SECTION")
    by (vm_compute; reflexivity).
  rewrite Hc.
  change (named (txt "INSERT_SECTION") "NEW_COMMAND") with false.
  change (named (txt "INSERT_SECTION") "PROCESS_SOURCES") with false.
  change (named (txt "INSERT_SECTION") "INSERT_SECTION") with true.
  cbv iota. rewrite Hs. reflexivity.
Qed.

Example simplify_md_two_blank_lines :
  simplify_md (txt "a" ++ [newline; newline; newline] ++ txt "b")
  = txt "a" ++ [newline; newline] ++ txt "b".
Proof. vm_compute. reflexivity. Qed.

(** C7, the failing input.  Section [s] holds [a], three blank lines and
    [b].  Inserting it appends [a], two blank lines and [b], then the
    trailing blank line: the run of blank lines is shortened by one line,
    not collapsed to a single blank line. *)
Theorem insert_section_keeps_blank_run :
  simplify_md (txt "a" ++ [newline; newline; newline; newline] ++ txt "b")
  = txt "a" ++ [newline; newline; newline] ++ txt "b"
  /\ forall depth env,
       process_md_command depth env (txt "INSERT_SECTION(s)") blank_lines_context
       = Ok (set_output
               (fun o => o ++ (txt "a" ++ [newline; newline; newline] ++ txt "b")
                           ++ [newline; newline])
               blank_lines_context).
Proof.
  split; [vm_compute; reflexivity |].
  intros depth env. vm_compute. reflexivity.
Qed.

(** * Further properties of the engine *)

(** ** [strip] *)

(** [strip] removes white space at both ends and nothing else: the text is
    its result between two runs of white space, the result has no white
    space at either end, and it is empty exactly when the text is all
    white space (the case in which the source passes a wrapped-around
    count to [substr]). *)
Theorem strip_removes_outer_whitespace (s : text) :
  (exists l r, s = l ++ strip s ++ r
               /\ forallb isspace l = true /\ forallb isspace r = true)
  /\ trimmed (strip s)
  /\ (strip s = [] <-> forallb isspace s = true).
Proof.
  destruct (strip_exists s) as (l & m & r & Hs & Hl & Hr & Hm).
  assert (Hstrip : strip s = m) by (rewrite Hs; apply strip_decomp; assumption).
  split; [| split].
  - exists l, r. rewrite Hstrip. auto.
  - apply strip_trimmed.
  - rewrite Hstrip. split.
    + intros ->. rewrite Hs. simpl. rewrite forallb_app, Hl, Hr. reflexivity.
    + intros Hall. rewrite Hs, !forallb_app in Hall.
      apply andb_true_iff in Hall as [_ Hall].
      apply andb_true_iff in Hall as [Hall _].
      destruct Hm as [-> | [Hh _]]; [reflexivity |].
      destruct m as [| c m]; [reflexivity |].
      simpl in Hh, Hall. rewrite Hh in Hall. discriminate Hall.
Qed.

(** ** [parse_args]: what it returns and when it throws *)

Lemma drop_cons_at (s : text) (i : nat) (c : ascii) (rest : text) :
  drop i s = c :: rest -> i < length s /\ at_ s i = c /\ drop (S i) s = rest.
Proof.
  intros H.
  assert (Hi : i < length s).
  { destruct (Nat.lt_ge_cases i (length s)) as [Hlt | Hge]; [exact Hlt |].
    rewrite drop_ge in H by lia. discriminate H. }
  split; [exact Hi |]. split.
  - pose proof (nth_drop_at s i 0) as Hn. rewrite H, Nat.add_0_r in Hn.
    simpl in Hn. symmetry. exact Hn.
  - replace (S i) with (i + 1) by lia. rewrite <- drop_drop, H. reflexivity.
Qed.

Lemma parse_char_depth (src : text) (c : ascii) (i : nat) (st : PState) :
  (0 <= parenDepth st)%Z ->
  (parenDepth (parse_char src c i st) = (-1)%Z /\ c = ")")
  \/ (0 <= parenDepth (parse_char src c i st))%Z.
Proof.
  intros Hd. destruct st as [lp pd bd cd q ar]. unfold parse_char. simpl in Hd.
  destruct (Ascii.eqb c "("); [right; simpl; lia |].
  destruct (Ascii.eqb_spec c ")") as [-> | Hc].
  - simpl. destruct (Z.eq_dec pd 0%Z); [left; split; [lia | reflexivity] | right; lia].
  - repeat (match goal with
            | |- context [if ?b then _ else _] => destruct b
            end); right; simpl; lia.
Qed.

Lemma toggle_quote_fields (c : ascii) (st : PState) :
  lastPos (toggle_quote c st) = lastPos st
  /\ parenDepth (toggle_quote c st) = parenDepth st.
Proof. destruct st. split; reflexivity. Qed.

Lemma parse_loop_returns (src rest : text) (i : nat) (st : PState) (index : nat) :
  rest = drop i src -> i <= length src ->
  lastPos st < i -> (0 <= parenDepth st)%Z ->
  exists ar p,
    parse_loop src rest i st index = Ok (ar, p)
    /\ ar <> []
    /\ (p = index \/ (i <= p < length src /\ at_ src p = ")")).
Proof.
  revert i st. induction rest as [| c rest IH]; intros i st Hrest Hi Hlp Hd.
  - simpl. rewrite substr_ok by lia. simpl.
    eexists _, _. split; [reflexivity |]. split; [| left; reflexivity].
    intros H. apply app_eq_nil in H as [_ H]. discriminate H.
  - symmetry in Hrest. apply drop_cons_at in Hrest as (Hlt & Hat & Hrest).
    simpl.
    destruct (toggle_quote_fields c st) as [Hlp1 Hd1].
    destruct (inQuote (toggle_quote c st)).
    + destruct (IH (S i) (toggle_quote c st)) as (ar & p & Hr & Hne & Hp);
        [symmetry; exact Hrest | lia | lia | lia |].
      exists ar, p. split; [exact Hr |]. split; [exact Hne |].
      destruct Hp as [-> | Hp]; [left; reflexivity | right; split; [lia | apply Hp]].
    + pose proof (parse_char_lastPos src c i (toggle_quote c st)) as Hlp2.
      destruct (parse_char_depth src c i (toggle_quote c st) ltac:(lia))
        as [[Hneg ->] | Hpos].
      * rewrite Hneg. simpl.
        rewrite substr_ok by (destruct Hlp2 as [-> | ->]; lia). simpl.
        eexists _, _. split; [reflexivity |]. split.
        -- intros H. apply app_eq_nil in H as [_ H]. discriminate H.
        -- right. split; [lia | exact Hat].
      * destruct (Z.eqb_spec (parenDepth (parse_char src c i (toggle_quote c st))) (-1));
          [lia |].
        destruct (IH (S i) (parse_char src c i (toggle_quote c st)))
          as (ar & p & Hr & Hne & Hp);
          [symmetry; exact Hrest | lia | destruct Hlp2 as [-> | ->]; lia | lia |].
        exists ar, p. split; [exact Hr |]. split; [exact Hne |].
        destruct Hp as [-> | Hp]; [left; reflexivity | right; split; [lia | apply Hp]].
Qed.

(** The splitter throws exactly when the index it is given is not inside
    the buffer.  Otherwise it returns at least one argument (an empty pair
    of brackets gives one empty argument, not none), and the index it
    leaves is either the one it was given or the position, further on, of
    a closing round bracket. *)
Theorem parse_args_returns (src : text) (index : nat) :
  if index <? length src then
    exists ar p,
      parse_args src index = Ok (ar, p)
      /\ ar <> []
      /\ (p = index \/ (index < p < length src /\ at_ src p = ")"))
  else parse_args src index = Throw std_out_of_range.
Proof.
  destruct (Nat.ltb_spec index (length src)) as [Hlt | Hge].
  - destruct (parse_loop_returns src (drop (S index) src) (S index) (parse_init index)
                index eq_refl ltac:(lia) ltac:(simpl; lia) ltac:(simpl; lia))
      as (ar & p & Hr & Hne & Hp).
    exists ar, p. split; [exact Hr |]. split; [exact Hne |].
    destruct Hp as [-> | Hp]; [left; reflexivity | right; split; [lia | apply Hp]].
  - unfold parse_args. rewrite drop_ge by lia. simpl.
    unfold substr. destruct (Nat.ltb_spec (length src) (S index)); [reflexivity | lia].
Qed.

(** ** The buffers: [process_char], [process_string] and [SECTION] *)

Lemma process_string_snoc (s : text) (c : ascii) (context : DocContext) :
  process_string (s ++ [c]) context = process_char c (process_string s context).
Proof. unfold process_string. rewrite fold_left_app. reflexivity. Qed.

Lemma process_string_main (s : text) (context : DocContext) :
  currentSection context = [] ->
  process_string s context = set_mainSection (fun b => b ++ s) context.
Proof.
  intros Hc. induction s as [| c s IH] using rev_ind.
  - destruct context. unfold set_mainSection. simpl. rewrite app_nil_r. reflexivity.
  - rewrite process_string_snoc, IH. unfold process_char. simpl. rewrite Hc.
    unfold set_mainSection. simpl. rewrite app_assoc. reflexivity.
Qed.

Lemma process_string_section (c0 : ascii) (s : text) (context : DocContext) :
  currentSection context <> [] ->
  process_string (c0 :: s) context
  = set_sections
      (fun m => <[currentSection context
                  := default [] (m !! currentSection context) ++ c0 :: s]> m)
      context.
Proof.
  intros Hc. induction s as [| c s IH] using rev_ind.
  - unfold process_string. simpl. unfold process_char.
    destruct (currentSection context) eqn:Hk; [congruence |]. reflexivity.
  - change (c0 :: s ++ [c]) with ((c0 :: s) ++ [c]).
    rewrite process_string_snoc, IH. unfold process_char. simpl.
    destruct (currentSection context) as [| k0 k] eqn:Hk; [congruence |].
    unfold set_sections, append_to. simpl.
    rewrite lookup_insert_eq, insert_insert_eq. simpl.
    rewrite <- app_assoc. reflexivity.
Qed.

(** Every character produced goes to exactly one buffer.  With the main
    selector the text is appended to the main buffer; with a section
    selected a non-empty text is appended to that section's buffer, which
    is created if it did not exist; an empty text changes nothing (so
    selecting a section does not by itself create its buffer).  Nothing
    else in the context changes. *)
Theorem process_string_routes (s : text) (context : DocContext) :
  match currentSection context, s with
  | _, [] => process_string s context = context
  | [], _ => process_string s context = set_mainSection (fun b => b ++ s) context
  | k, _ =>
      process_string s context
      = set_sections (fun m => <[k := default [] (m !! k) ++ s]> m) context
  end.
Proof.
  destruct (currentSection context) as [| k0 k] eqn:Hk; destruct s as [| c0 s];
    try reflexivity.
  - apply process_string_main, Hk.
  - rewrite <- Hk. apply process_string_section. rewrite Hk. discriminate.
Qed.

Lemma process_src_command_SECTION env expand args context cmt src simplify filename :
  process_src_command env expand (txt "SECTION") args context cmt src simplify filename
  = Ok (set_currentSection (hd [] args) context).
Proof. destruct args; reflexivity. Qed.

(** Selecting a section, producing a text and clearing the selector: the
    text is in the section's buffer, after what the buffer held, the main
    buffer is as it was, and the main selector is current. *)
Theorem section_routes_text env expand context cmt src simplify filename
    (name : text) (c0 : ascii) (s : text) :
  name <> [] ->
  exists context1 context3,
    process_src_command env expand (txt "SECTION") [name] context cmt src simplify filename
    = Ok context1
    /\ sections context1 = sections context
    /\ process_src_command env expand (txt "SECTION") []
         (process_string (c0 :: s) context1) cmt src simplify filename
       = Ok context3
    /\ sections context3 !! name
       = Some (default [] (sections context !! name) ++ c0 :: s)
    /\ (forall other, other <> name ->
          sections context3 !! other = sections context !! other)
    /\ mainSection context3 = mainSection context
    /\ currentSection context3 = [].
Proof.
  intros Hname. exists (set_currentSection name context).
  exists (set_currentSection []
            (process_string (c0 :: s) (set_currentSection name context))).
  split; [apply process_src_command_SECTION |]. split; [reflexivity |].
  split; [apply process_src_command_SECTION |].
  rewrite process_string_section by (simpl; exact Hname). simpl.
  rewrite lookup_insert_eq. repeat split.
  intros other Hne. apply lookup_insert_ne. congruence.
Qed.

Lemma section_routes_text_witness :
  exists context3,
    process_src_command bare_env (fun _ _ => DepthExceeded) (txt "SECTION") []
      (process_string (txt "ab")
         (set_currentSection (txt "x") bare_context))
      sample_decl_comment sample_decl false (txt "f.cpp")
    = Ok context3
    /\ sections context3 !! txt "x" = Some (txt "ab")
    /\ mainSection context3 = [].
Proof.
  destruct (section_routes_text bare_env (fun _ _ => DepthExceeded) bare_context
              sample_decl_comment sample_decl false (txt "f.cpp") (txt "x") "a" (txt "b")
              ltac:(discriminate))
    as (c1 & c3 & H1 & _ & H3 & Hs & _ & Hm & _).
  rewrite process_src_command_SECTION in H1. injection H1 as <-.
  exists c3. split; [exact H3 |]. split; [exact Hs | exact Hm].
Defined.

(** ** [simplify_whitespace] *)

Lemma collapse_ws_single_spaced (s : text) (k : bool) :
  single_spaced (collapse_ws s k) = true
  /\ (k = true -> isspace (hd "a" (collapse_ws s k)) = false).
Proof.
  revert k. induction s as [| c s IH]; intros k; simpl.
  - split; reflexivity.
  - destruct (isspace c) eqn:Hc.
    + destruct k.
      * apply IH.
      * destruct (IH true) as [H1 H2]. split; [| discriminate].
        simpl. rewrite H1, (H2 eq_refl). reflexivity.
    + destruct (IH false) as [H1 _]. split.
      * simpl. rewrite Hc, H1. reflexivity.
      * intros _. exact Hc.
Qed.

Lemma collapse_ws_visible (s : text) (k : bool) :
  visible (collapse_ws s k) = visible s.
Proof.
  revert k. induction s as [| c s IH]; intros k; simpl; [reflexivity |].
  unfold visible in *. simpl.
  destruct (isspace c) eqn:Hc; simpl.
  - destruct k; simpl; apply IH.
  - rewrite Hc. simpl. f_equal. apply IH.
Qed.

Lemma collapse_ws_fixed (m : text) (k : bool) :
  single_spaced m = true -> (k = true -> isspace (hd "a" m) = false) ->
  collapse_ws m k = m.
Proof.
  revert k. induction m as [| c m IH]; intros k Hs Hk; simpl; [reflexivity |].
  simpl in Hs. apply andb_true_iff in Hs as [Hc Hs].
  destruct (isspace c) eqn:Hsp.
  - simpl in Hc. apply andb_true_iff in Hc as [Hb Hn].
    apply Ascii.eqb_eq in Hb. subst c. apply negb_true_iff in Hn.
    destruct k; [simpl in Hk; specialize (Hk eq_refl); congruence |].
    f_equal. apply IH; [exact Hs | intros _; exact Hn].
  - f_equal. apply IH; [exact Hs | discriminate].
Qed.

Lemma single_spaced_suffix (l m : text) :
  single_spaced (l ++ m) = true -> single_spaced m = true.
Proof.
  induction l as [| c l IH]; simpl; [auto |].
  intros H. apply andb_true_iff in H as [_ H]. apply IH, H.
Qed.

Lemma single_spaced_prefix (m r : text) :
  single_spaced (m ++ r) = true -> single_spaced m = true.
Proof.
  induction m as [| c m IH]; simpl; [reflexivity |].
  intros H. apply andb_true_iff in H as [Hc H]. rewrite (IH H), andb_true_r.
  destruct (isspace c); [| reflexivity]. simpl in *.
  apply andb_true_iff in Hc as [-> Hn]. simpl.
  destruct m as [| x m]; [reflexivity | exact Hn].
Qed.

Lemma visible_spaces (l : text) : forallb isspace l = true -> visible l = [].
Proof.
  induction l as [| c l IH]; simpl; [reflexivity |].
  intros H. apply andb_true_iff in H as [Hc H]. unfold visible in *. simpl.
  rewrite Hc. simpl. apply IH, H.
Qed.

(** What [simplify_whitespace] returns: a text with single blanks as its
    only white space and none at either end, which holds the characters
    of the argument that are not white space, in the same order.
    Simplifying it again changes nothing. *)
Theorem simplify_whitespace_normal_form (s : text) :
  single_spaced (simplify_whitespace s) = true
  /\ trimmed (simplify_whitespace s)
  /\ visible (simplify_whitespace s) = visible s
  /\ simplify_whitespace (simplify_whitespace s) = simplify_whitespace s.
Proof.
  unfold simplify_whitespace.
  destruct (strip_exists (collapse_ws s false)) as (l & m & r & Hw & Hl & Hr & Hm).
  assert (Hstrip : strip (collapse_ws s false) = m)
    by (rewrite Hw; apply strip_decomp; assumption).
  destruct (collapse_ws_single_spaced s false) as [Hss _].
  rewrite Hw in Hss. apply single_spaced_suffix in Hss.
  apply single_spaced_prefix in Hss.
  rewrite Hstrip. split; [exact Hss |]. split; [exact Hm |]. split.
  - rewrite <- (collapse_ws_visible s false), Hw.
    unfold visible. rewrite !List.filter_app.
    fold (visible l). fold (visible r). fold (visible m).
    rewrite (visible_spaces l Hl), (visible_spaces r Hr), app_nil_r. reflexivity.
  - rewrite collapse_ws_fixed by (try exact Hss; discriminate).
    apply strip_fixed, Hm.
Qed.

(** ** The three spellings of the simplifying meta-command *)

Lemma trimmed_S_prefix (name : text) :
  trimmed name -> trimmed ("S" :: "_" :: name).
Proof.
  intros Hn. right. split; [reflexivity |].
  destruct Hn as [-> | [_ Hl]]; [reflexivity |].
  destruct name as [| c name]; [reflexivity |].
  exact Hl.
Qed.

(** [@SIMPLIFY(NAME, ...)], [@S(NAME, ...)] and [@S_NAME(...)] are the same
    command: each runs [NAME] on the remaining arguments with its output
    simplified.  (For the prefixed form the name is as the interpreter
    hands it over, with no white space around it, and does not itself
    start with the prefix.) *)
Theorem simplify_forms_agree env expand name args context cmt src simplify filename :
  trimmed name ->
  Ascii.eqb (at_ name 0) "S" && Ascii.eqb (at_ name 1) "_" = false ->
  let target :=
    process_src_command env expand name args context cmt src true filename in
  process_src_command env expand (txt "SIMPLIFY") (name :: args) context cmt src
    simplify filename = target
  /\ process_src_command env expand (txt "S") (name :: args) context cmt src
       simplify filename = target
  /\ process_src_command env expand ("S" :: "_" :: name) args context cmt src
       simplify filename = target.
Proof.
  intros Hn Hp target. split; [reflexivity |]. split; [reflexivity |].
  unfold target.
  pose proof (strip_fixed _ (trimmed_S_prefix name Hn)) as H1.
  pose proof (strip_fixed _ Hn) as H2.
  destruct args as [| a args]; cbn [process_src_command]; rewrite H1, H2, Hp;
    change (at_ ("S" :: "_" :: name) 0) with "S";
    change (at_ ("S" :: "_" :: name) 1) with "_";
    change (drop 2 ("S" :: "_" :: name)) with name;
    change (Ascii.eqb "S" "S" && Ascii.eqb "_" "_") with true;
    cbv iota; reflexivity.
Qed.

Lemma simplify_forms_agree_witness :
  trimmed (txt "NEXT_LINE")
  /\ process_src_command bare_env (fun _ _ => DepthExceeded) (txt "S_NEXT_LINE") []
       bare_context sample_decl_comment sample_decl false (txt "f.cpp")
     = process_src_command bare_env (fun _ _ => DepthExceeded) (txt "SIMPLIFY")
         [txt "NEXT_LINE"] bare_context sample_decl_comment sample_decl false
         (txt "f.cpp").
Proof.
  assert (Ht : trimmed (txt "NEXT_LINE")) by (right; split; reflexivity).
  split; [exact Ht |].
  destruct (simplify_forms_agree bare_env (fun _ _ => DepthExceeded) (txt "NEXT_LINE") []
              bare_context sample_decl_comment sample_decl false (txt "f.cpp")
              Ht eq_refl) as (H1 & _ & H3).
  etransitivity; [exact H3 | symmetry; exact H1].
Defined.

(** ** [NEXT_DECL] and [NEXT_LINE] *)

Lemma strip_cons_space (c : ascii) (s : text) :
  isspace c = true -> strip (c :: s) = strip s.
Proof.
  intros Hc. destruct (strip_exists s) as (l & m & r & -> & Hl & Hr & Hm).
  rewrite strip_decomp by assumption.
  change (c :: l ++ m ++ r) with ((c :: l) ++ m ++ r).
  apply strip_decomp; try assumption. simpl. rewrite Hc, Hl. reflexivity.
Qed.

(** [NEXT_DECL] throws when the comment ends the file (or runs past its
    end); otherwise the text it gives is trimmed, holds none of the
    characters [;], [=] and [{], and is followed by one [;]. *)
Theorem next_decl_result (src : text) (ei : nat) :
  if ei <? length src then
    exists a, next_decl src ei = Ok (a ++ txt ";")
              /\ trimmed a
              /\ forall c, In c a -> c <> ";" /\ c <> "=" /\ c <> "{"
  else next_decl src ei = Throw std_out_of_range.
Proof.
  unfold next_decl. cbv zeta.
  set (stop := fun c => Ascii.eqb c ";" || Ascii.eqb c "=" || Ascii.eqb c "{").
  set (e := scan_while _ (drop (S ei) src) (S ei)).
  destruct (Nat.ltb_spec ei (length src)) as [Hlt | Hge].
  - assert (He : S ei <= e <= S ei + length (drop (S ei) src))
      by apply scan_while_ge.
    rewrite substr_ok by lia. cbn [bind].
    eexists. split; [reflexivity |]. split; [apply strip_trimmed |].
    intros c Hin. apply In_strip in Hin.
    rewrite size_sub_exact, slice_exact in Hin by lia.
    apply In_take_drop in Hin as (j & Hj & Hc).
    assert (Hb : negb (stop (nth (j - S ei) (drop (S ei) src) zero)) = true)
      by (apply (scan_while_between (fun c => negb (stop c)));
          change (S ei <= j < e); lia).
    cbv beta in Hb.
    rewrite nth_drop_at in Hb. replace (S ei + (j - S ei)) with j in Hb by lia.
    rewrite Hc in Hb. unfold stop in Hb. apply negb_true_iff in Hb.
    apply orb_false_iff in Hb as [Hb H3]. apply orb_false_iff in Hb as [H1 H2].
    repeat split; intros ->; discriminate.
  - unfold substr. destruct (Nat.ltb_spec (length src) (S ei)); [reflexivity | lia].
Qed.

(** [NEXT_LINE] throws only when the comment runs past the end of the text
    (an unterminated block comment); otherwise the text it gives is
    trimmed and holds no line feed. *)
Theorem next_line_result (src : text) (ei : nat) :
  if ei <=? length src then
    exists a, next_line src ei = Ok a /\ trimmed a /\ ~ In newline a
  else next_line src ei = Throw std_out_of_range.
Proof.
  unfold next_line. cbv zeta.
  set (e := scan_while _ (drop (S ei) src) (S ei)).
  destruct (Nat.leb_spec ei (length src)) as [Hle | Hgt].
  - assert (He : S ei <= e <= S ei + length (drop (S ei) src))
      by apply scan_while_ge.
    rewrite substr_ok by lia. cbn [bind].
    eexists. split; [reflexivity |]. split; [apply strip_trimmed |].
    rewrite size_sub_exact, slice_exact by lia.
    assert (Hrest : forall c, In c (take (e - S ei) (drop (S ei) src)) -> c <> newline).
    { intros c Hin. apply In_take_drop in Hin as (j & Hj & Hc).
      assert (Hb : not_char newline (nth (j - S ei) (drop (S ei) src) zero) = true)
        by (apply scan_while_between; change (S ei <= j < e); lia).
      rewrite nth_drop_at in Hb. replace (S ei + (j - S ei)) with j in Hb by lia.
      rewrite Hc in Hb. intros ->. discriminate Hb. }
    replace (Z.to_nat (Z.of_nat e - Z.of_nat ei - 0)) with (S (e - S ei)) by lia.
    destruct (drop ei src) as [| c rest] eqn:Hd.
    + rewrite take_nil. intros Hin. apply In_strip in Hin. exact Hin.
    + apply drop_cons_at in Hd as (_ & _ & Hd). rewrite Hd in Hrest.
      cbn [take firstn]. intros Hin.
      destruct (isspace c) eqn:Hc.
      * rewrite strip_cons_space in Hin by exact Hc.
        apply In_strip in Hin. apply (Hrest _ Hin). reflexivity.
      * apply In_strip in Hin. destruct Hin as [Heq | Hin];
          [rewrite Heq in Hc; discriminate Hc |].
        apply (Hrest _ Hin). reflexivity.
  - unfold substr. destruct (Nat.ltb_spec (length src) ei); [reflexivity | lia].
Qed.

(** ** [FUNC_ARGS] and the argument list of [FUNC_ARG] *)

Lemma process_src_command_FUNC_ARGS env expand args context cmt src simplify filename :
  process_src_command env expand (txt "FUNC_ARGS") args context cmt src simplify filename
  = emit simplify (func_args src (end_index cmt)) context.
Proof. destruct args; reflexivity. Qed.

Lemma scan_to_end (p : ascii -> bool) (src : text) (i : nat) :
  forallb p (drop i src) = true ->
  scan_while p (drop i src) i = Nat.max i (length src).
Proof.
  intros H. rewrite scan_while_all by exact H. rewrite length_drop. lia.
Qed.

(** When no opening round bracket follows the comment, [FUNC_ARGS] and
    [FUNC_ARG] both end the run: the first asks [substr] for a position
    past the end of the source, the second hands the splitter an empty
    buffer. *)
Theorem func_args_without_bracket env expand context cmt src simplify filename arg :
  forallb (not_char "(") (drop (S (end_index cmt)) src) = true ->
  process_src_command env expand (txt "FUNC_ARGS") [] context cmt src simplify filename
  = Throw std_out_of_range
  /\ process_src_command env expand (txt "FUNC_ARG") [arg] context cmt src simplify
       filename
     = Throw std_out_of_range.
Proof.
  intros H. rewrite process_src_command_FUNC_ARGS, process_src_command_FUNC_ARG.
  unfold func_args, func_arg, func_arg_list. cbv zeta.
  rewrite (scan_to_end _ _ _ H).
  set (start := Nat.max (S (end_index cmt)) (length src)).
  assert (Hs : length src <= start) by (unfold start; lia).
  rewrite (drop_ge src start) by exact Hs. cbn [match_paren].
  split.
  - unfold substr. destruct (Nat.ltb_spec (length src) (S start)); [reflexivity | lia].
  - unfold substr. destruct (Nat.ltb_spec (length src) start) as [Hlt | Hge];
      [reflexivity |].
    rewrite slice_at_end by exact Hs. reflexivity.
Qed.

Lemma func_args_without_bracket_witness :
  forallb (not_char "(") (drop 8 (txt "/* c */ int x;")) = true
  /\ process_src_command bare_env (fun _ _ => DepthExceeded) (txt "FUNC_ARG") [txt "0"]
       bare_context (mkCommentData 0 7 (txt "c")) (txt "/* c */ int x;") false
       (txt "f.cpp")
     = Throw std_out_of_range.
Proof.
  assert (H : forallb (not_char "(") (drop 8 (txt "/* c */ int x;")) = true)
    by (vm_compute; reflexivity).
  split; [exact H |].
  apply (func_args_without_bracket bare_env (fun _ _ => DepthExceeded) bare_context
           (mkCommentData 0 7 (txt "c")) (txt "/* c */ int x;") false (txt "f.cpp")
           (txt "0") H).
Defined.

Lemma match_paren_balanced (body rest : text) (i : nat) (d : Z) :
  inner_balanced body d = true ->
  match_paren (body ++ ")" :: rest) i d = i + length body.
Proof.
  revert i d. induction body as [| c body IH]; intros i d H; simpl in *.
  - apply Z.eqb_eq in H. subst d. simpl. lia.
  - apply andb_true_iff in H as [Hn H]. apply negb_true_iff in Hn.
    rewrite Hn. rewrite IH by exact H. lia.
Qed.

(** When the first opening round bracket after the comment has a matching
    closing bracket, [FUNC_ARGS] gives the trimmed text between the two,
    and the list [FUNC_ARG] splits is that text with its brackets. *)
Theorem func_args_between_brackets (pre body post : text) (ei : nat) :
  let src := pre ++ "(" :: body ++ ")" :: post in
  S ei <= length pre ->
  forallb (not_char "(") (drop (S ei) pre) = true ->
  inner_balanced body 1 = true ->
  func_args src ei = Ok (strip body)
  /\ func_arg_list src ei
     = (let* r := parse_args ("(" :: body ++ [")"]) 0 in Ok (fst r)).
Proof.
  intros src Hei Hpre Hbal.
  assert (Hstart : scan_while (not_char "(") (drop (S ei) src) (S ei) = length pre).
  { unfold src. rewrite drop_app_le by lia.
    rewrite scan_while_stop by (try exact Hpre; reflexivity).
    rewrite length_drop. lia. }
  assert (Hdrop : drop (length pre) src = "(" :: body ++ ")" :: post)
    by (unfold src; apply drop_app_length).
  assert (Hend : match_paren (drop (length pre) src) (length pre) 0
                 = S (length pre) + length body).
  { rewrite Hdrop. cbn [match_paren]. simpl.
    rewrite match_paren_balanced by exact Hbal. lia. }
  assert (Hlen : length src = length pre + S (length body + S (length post))).
  { unfold src. rewrite length_app. simpl. rewrite length_app. simpl. lia. }
  unfold func_args, func_arg_list. cbv zeta. rewrite Hstart, Hend.
  rewrite !substr_ok by lia. cbn [bind].
  rewrite !size_sub_exact by lia. rewrite !slice_exact by lia.
  replace (Z.to_nat (Z.of_nat (S (length pre) + length body) - Z.of_nat (length pre) - 1))
    with (length body) by lia.
  replace (Z.to_nat (Z.of_nat (S (length pre) + length body) - Z.of_nat (length pre) - -1))
    with (length ("(" :: body ++ [")"])) by (simpl; rewrite length_app; simpl; lia).
  replace (S (length pre)) with (length pre + 1) at 1 by lia.
  rewrite <- drop_drop, Hdrop. cbn [drop skipn].
  rewrite drop_0, take_app_length.
  replace ("(" :: body ++ ")" :: post) with (("(" :: body ++ [")"]) ++ post)
    by (simpl; rewrite <- app_assoc; reflexivity).
  rewrite take_app_length. split; reflexivity.
Qed.

Lemma func_args_between_brackets_witness :
  8 <= length (txt "/* c */ int f")
  /\ forallb (not_char "(") (drop 8 (txt "/* c */ int f")) = true
  /\ inner_balanced (txt " int a, g(b) ") 1 = true
  /\ func_args (txt "/* c */ int f( int a, g(b) );") 7 = Ok (txt "int a, g(b)").
Proof.
  assert (H1 : 8 <= length (txt "/* c */ int f")) by (vm_compute; lia).
  assert (H2 : forallb (not_char "(") (drop 8 (txt "/* c */ int f")) = true)
    by (vm_compute; reflexivity).
  assert (H3 : inner_balanced (txt " int a, g(b) ") 1 = true)
    by (vm_compute; reflexivity).
  split; [exact H1 |]. split; [exact H2 |]. split; [exact H3 |].
  destruct (func_args_between_brackets (txt "/* c */ int f") (txt " int a, g(b) ")
              (txt ";") 7 H1 H2 H3) as [H _].
  etransitivity; [exact H | vm_compute; reflexivity].
Defined.

(** ** [FUNC_NAME] outside the operator case *)

(** [FUNC_NAME] is undefined when the comment runs past the end of the
    text and otherwise never throws.  Unless the identifier it finds is
    [operator], what it gives is that identifier: identifier characters
    only, possibly none at all. *)
Theorem func_name_result (src : text) (ei : nat) :
  let start := fst (ident_before_bracket src ei) in
  let e2 := snd (ident_before_bracket src ei) in
  if ei <=? length src then
    exists a, func_name src ei = Ok a
              /\ (a = take (e2 - start) (drop start src) /\ forallb is_ident a = true
                  \/ take (e2 - start) (drop start src) = txt "operator")
  else func_name src ei = Undefined.
Proof.
  intros start e2. unfold func_name.
  destruct (Nat.leb_spec ei (length src)) as [Hle | Hgt].
  - destruct (Nat.ltb_spec (length src) ei); [lia |].
    destruct (ident_before_bracket_bounds src ei Hle) as [Hse He2].
    fold start in Hse. fold e2 in Hse, He2.
    rewrite (surjective_pairing (ident_before_bracket src ei)).
    fold start. fold e2.
    rewrite substr_ok by lia. cbn [bind].
    rewrite size_sub_exact by lia. rewrite slice_exact by lia.
    replace (Z.to_nat (Z.of_nat e2 - Z.of_nat start - 0)) with (e2 - start) by lia.
    assert (Hid : forall c, In c (take (e2 - start) (drop start src)) ->
                            is_ident c = true).
    { intros c Hin. apply In_take_drop in Hin as (j & Hj & <-).
      apply (back_while_between is_ident src e2 j).
      unfold start, e2, ident_before_bracket in *. simpl in *. lia. }
    assert (Hfix : strip (take (e2 - start) (drop start src))
                   = take (e2 - start) (drop start src)).
    { apply strip_fixed, trimmed_no_space.
      intros c Hin. apply is_ident_not_space, Hid, Hin. }
    rewrite Hfix.
    destruct (text_eqb (take (e2 - start) (drop start src)) (txt "operator")) eqn:Hop.
    + apply text_eqb_eq in Hop.
      pose proof (scan_while_ge (not_char "(") (drop e2 src) e2) as He3.
      rewrite length_drop in He3.
      rewrite substr_ok by lia. cbn [bind].
      eexists. split; [reflexivity |]. right. exact Hop.
    + eexists. split; [reflexivity |]. left. split; [reflexivity |].
      apply forallb_In, Hid.
  - destruct (Nat.ltb_spec (length src) ei); [reflexivity | lia].
Qed.

(** ** The comment extractor *)

Lemma find_in_bound (pat rest : text) (i e : nat) :
  pat <> [] -> find_in pat rest i = Some e -> i <= e < i + length rest.
Proof.
  intros Hpat. revert i. induction rest as [| c rest IH]; intros i; simpl.
  - destruct pat; [congruence | discriminate].
  - destruct (text_eqb _ pat).
    + intros H. injection H as <-. lia.
    + intros H. apply IH in H. lia.
Qed.

Lemma spans_from_weaken (src : text) (lo lo' : nat) (cs : list CommentData) :
  lo <= lo' -> spans_from src lo' cs -> spans_from src lo cs.
Proof.
  destruct cs as [| c cs]; simpl; [auto |].
  intros Hle (H1 & H2 & H3 & H4). repeat split; try assumption; lia.
Qed.

Lemma extract_spans (src rest : text) (idx skip : nat) :
  rest = drop idx src ->
  spans_from src (idx + skip) (extract rest idx skip).
Proof.
  revert idx skip. induction rest as [| c rest IH]; intros idx skip Hrest; [exact I |].
  symmetry in Hrest. pose proof Hrest as Hd.
  apply drop_cons_at in Hd as (Hlt & _ & Hd). symmetry in Hd.
  assert (Hlen : idx + length (c :: rest) = length src).
  { rewrite <- Hrest, length_drop. lia. }
  cbn [extract]. destruct skip as [| k].
  - destruct (Ascii.eqb_spec c "/") as [-> | Hc]; cbn [andb].
    + destruct rest as [| c1 rest]; [apply (spans_from_weaken _ _ (S idx + 0)); [lia | apply IH, Hd] |].
      cbn [hd].
      destruct (Ascii.eqb_spec c1 "/") as [-> | Hc1].
      * set (e := default (idx + length ("/" :: "/" :: rest))
                    (find_in [newline] ("/" :: "/" :: rest) idx)).
        assert (He : idx + 2 <= e <= length src).
        { unfold e. change (find_in [newline] ("/" :: "/" :: rest) idx)
            with (find_in [newline] rest (S (S idx))).
          destruct (find_in [newline] rest (S (S idx))) as [p |] eqn:Hf; simpl.
          - apply find_in_bound in Hf; [| discriminate]. simpl in Hlen. lia.
          - simpl in Hlen. lia. }
        cbn [spans_from index end_index]. rewrite Hrest.
        split; [lia |]. split; [left; reflexivity |]. split; [lia |].
        apply (spans_from_weaken _ _ (S idx + (e - idx - 1))); [lia | apply IH, Hd].
      * destruct (Ascii.eqb_spec c1 "*") as [-> | Hc2].
        -- set (e := default (idx + length ("/" :: "*" :: rest))
                       (find_in (txt "*/") ("/" :: "*" :: rest) idx)).
           assert (He : idx + 1 <= e <= length src).
           { unfold e. change (find_in (txt "*/") ("/" :: "*" :: rest) idx)
               with (find_in (txt "*/") ("*" :: rest) (S idx)).
             destruct (find_in (txt "*/") ("*" :: rest) (S idx)) as [p |] eqn:Hf; simpl.
             - apply find_in_bound in Hf; [| discriminate]. simpl in Hf, Hlen. lia.
             - simpl in Hlen. lia. }
           cbn [spans_from index end_index]. rewrite Hrest.
           split; [lia |]. split; [right; reflexivity |]. split; [lia |].
           apply (spans_from_weaken _ _ (S idx + (e + 2 - idx - 1)));
             [lia | apply IH, Hd].
        -- apply (spans_from_weaken _ _ (S idx + 0)); [lia | apply IH, Hd].
    + apply (spans_from_weaken _ _ (S idx + 0)); [lia | apply IH, Hd].
  - replace (idx + S k) with (S idx + k) by lia. apply IH, Hd.
Qed.

Lemma spans_from_lower (src : text) (lo : nat) (cs : list CommentData) (c : CommentData) :
  spans_from src lo cs -> In c cs -> lo <= index c.
Proof.
  revert lo. induction cs as [| c0 cs IH]; intros lo H Hin; [destruct Hin |].
  destruct H as (H1 & _ & H3 & H4). destruct Hin as [<- | Hin]; [exact H1 |].
  specialize (IH _ H4 Hin). lia.
Qed.

Lemma spans_from_pairwise (src : text) (lo : nat) (cs : list CommentData) :
  spans_from src lo cs ->
  forall i j c1 c2, cs !! i = Some c1 -> cs !! j = Some c2 -> i < j ->
                    end_index c1 <= index c2.
Proof.
  revert lo. induction cs as [| c cs IH]; intros lo H i j c1 c2 Hi Hj Hij.
  - discriminate Hi.
  - destruct H as (_ & _ & _ & H4).
    destruct j as [| j]; [lia |]. simpl in Hj.
    destruct i as [| i]; simpl in Hi.
    + injection Hi as <-. apply (spans_from_lower _ _ _ _ H4).
      apply list_elem_of_In. eapply list_elem_of_lookup_2. exact Hj.
    + apply (IH _ H4 i j); [exact Hi | exact Hj | lia].
Qed.

(** The comments the extractor yields are laid out in source order and do
    not overlap: each starts on a comment opener, at or after the end of
    the one before it. *)
Theorem extract_comments_ordered (src : text) :
  spans_from src 0 (extract_comments src)
  /\ forall i j c1 c2,
       extract_comments src !! i = Some c1 ->
       extract_comments src !! j = Some c2 ->
       i < j -> end_index c1 <= index c2.
Proof.
  assert (H : spans_from src 0 (extract_comments src)).
  { unfold extract_comments. apply (extract_spans src src 0 0).
    rewrite drop_0. reflexivity. }
  split; [exact H | exact (spans_from_pairwise _ _ _ H)].
Qed.

(** ** [simplify_md] *)

Lemma skip_blanks_spec (s : text) (n : nat) :
  exists bl, s = bl ++ fst (skip_blanks s n)
             /\ snd (skip_blanks s n) = n + length bl
             /\ printed bl = [].
Proof.
  revert n. induction s as [| c s IH]; intros n; simpl.
  - exists []. repeat split. simpl. lia.
  - destruct (isblank c) eqn:Hc.
    + destruct (IH (S n)) as (bl & H1 & H2 & H3).
      exists (c :: bl). rewrite H2. simpl. split; [f_equal; exact H1 |].
      split; [lia |]. unfold printed in *. simpl. rewrite Hc. simpl. exact H3.
    + exists []. simpl. repeat split. lia.
Qed.

Lemma md_match_head (c : ascii) (s : text) :
  c <> newline -> md_match (c :: s) = None.
Proof.
  intros Hc. destruct c as [[] [] [] [] [] [] [] []]; try reflexivity.
  exfalso. apply Hc. reflexivity.
Qed.

(** A match covers at least three characters of the text, all of them
    blanks, tabs or line feeds. *)
Lemma md_match_spec (s : text) (n : nat) :
  md_match s = Some n ->
  exists w rest, s = w ++ rest /\ length w = n /\ 3 <= n /\ printed w = [].
Proof.
  destruct s as [| c s1]; [discriminate |].
  destruct (ascii_dec c newline) as [-> | Hc];
    [| rewrite md_match_head by exact Hc; discriminate].
  change (md_match (newline :: s1))
    with (match skip_blanks s1 1 with
          | ("010" :: s2, n) =>
              match skip_blanks s2 (S n) with
              | ("010" :: _, m) => Some (S m)
              | _ => None
              end
          | _ => None
          end).
  destruct (skip_blanks_spec s1 1) as (b1 & H1 & N1 & P1).
  destruct (skip_blanks s1 1) as [t1 n1]. simpl in H1, N1.
  destruct t1 as [| c2 s2]; [discriminate |].
  destruct (ascii_dec c2 newline) as [-> | Hc2];
    [| destruct c2 as [[] [] [] [] [] [] [] []]; try discriminate;
       exfalso; apply Hc2; reflexivity].
  change (match (newline :: s2, n1) with
          | ("010" :: s2, n) =>
              match skip_blanks s2 (S n) with
              | ("010" :: _, m) => Some (S m)
              | _ => None
              end
          | _ => None
          end)
    with (match skip_blanks s2 (S n1) with
          | ("010" :: _, m) => Some (S m)
          | _ => None
          end).
  destruct (skip_blanks_spec s2 (S n1)) as (b2 & H2 & N2 & P2).
  destruct (skip_blanks s2 (S n1)) as [t2 n2]. simpl in H2, N2.
  destruct t2 as [| c3 s3]; [discriminate |].
  destruct (ascii_dec c3 newline) as [-> | Hc3];
    [| destruct c3 as [[] [] [] [] [] [] [] []]; try discriminate;
       exfalso; apply Hc3; reflexivity].
  intros H. injection H as <-.
  exists (newline :: b1 ++ newline :: b2 ++ [newline]), s3.
  split; [| split; [| split]].
  - rewrite H1, H2. simpl. rewrite <- !app_assoc. simpl.
    rewrite <- !app_assoc. reflexivity.
  - simpl. rewrite length_app. simpl. rewrite length_app. simpl. lia.
  - lia.
  - unfold printed in *. simpl. rewrite List.filter_app. simpl.
    rewrite List.filter_app. simpl. rewrite P1, P2. reflexivity.
Qed.

Lemma md_replace_skip (s : text) (skip : nat) :
  md_replace s skip = md_replace (drop skip s) 0.
Proof.
  revert skip. induction s as [| c s IH]; intros [| k]; try reflexivity.
  simpl md_replace at 1. rewrite IH. reflexivity.
Qed.

Lemma md_replace_step (c : ascii) (s : text) :
  md_replace (c :: s) 0
  = match md_match (c :: s) with
    | Some n => newline :: newline :: md_replace (drop n (c :: s)) 0
    | None => c :: md_replace s 0
    end.
Proof.
  cbn [md_replace]. destruct (md_match (c :: s)) as [n |] eqn:Hm; [| reflexivity].
  rewrite md_replace_skip. apply md_match_spec in Hm as (w & rest & _ & _ & Hn & _).
  destruct n as [| n]; [lia |]. simpl. rewrite Nat.sub_0_r. reflexivity.
Qed.

Lemma md_replace_preserves (n : nat) (s : text) :
  length s <= n ->
  printed (md_replace s 0) = printed s /\ length (md_replace s 0) <= length s.
Proof.
  revert s. induction n as [| n IH]; intros s Hlen.
  - destruct s; [split; reflexivity | simpl in Hlen; lia].
  - destruct s as [| c s]; [split; reflexivity |].
    rewrite md_replace_step. destruct (md_match (c :: s)) as [k |] eqn:Hm.
    + apply md_match_spec in Hm as (w & rest & Hs & Hw & Hk & Pw).
      rewrite Hs, <- Hw, drop_app_length.
      assert (Hrest : length rest <= n).
      { apply (f_equal length) in Hs. rewrite length_app in Hs. simpl in *. lia. }
      destruct (IH rest Hrest) as [IH1 IH2]. split.
      * unfold printed in *. rewrite List.filter_app. rewrite Pw. simpl. exact IH1.
      * rewrite length_app. simpl. lia.
    + destruct (IH s ltac:(simpl in Hlen; lia)) as [IH1 IH2]. split.
      * unfold printed in *. simpl. rewrite IH1. reflexivity.
      * simpl. lia.
Qed.

(** [simplify_md] touches white space only: the characters that are not
    blanks, tabs or line feeds come out unchanged and in order, the text
    does not get longer, and a text with no line feed is returned as it
    is. *)
Theorem simplify_md_keeps_text (s : text) :
  printed (simplify_md s) = printed s
  /\ length (simplify_md s) <= length s
  /\ (~ In newline s -> simplify_md s = s).
Proof.
  unfold simplify_md.
  destruct (md_replace_preserves (length s) s (le_n _)) as [H1 H2].
  split; [exact H1 |]. split; [exact H2 |]. clear H1 H2.
  induction s as [| c s IH]; intros Hnl; [reflexivity |].
  rewrite md_replace_step, md_match_head.
  - f_equal. apply IH. intros Hin. apply Hnl. right. exact Hin.
  - intros ->. apply Hnl. left. reflexivity.
Qed.

Lemma md_match_short (c : ascii) (b : text) :
  isblank c = false -> c <> newline ->
  md_match (newline :: c :: b) = None
  /\ md_match (newline :: newline :: c :: b) = None.
Proof.
  intros Hb Hc.
  destruct c as [[] [] [] [] [] [] [] []];
    try (exfalso; apply Hc; reflexivity); try discriminate Hb; split; reflexivity.
Qed.

Lemma md_match_three (rest : text) :
  md_match (newline :: newline :: newline :: rest) = Some 3.
Proof. reflexivity. Qed.

Lemma md_replace_run (q r : nat) (c : ascii) (b : text) :
  r < 3 -> isblank c = false -> c <> newline ->
  md_replace (repeat newline (3 * q + r) ++ c :: b) 0
  = repeat newline (2 * q + r) ++ md_replace (c :: b) 0.
Proof.
  intros Hr Hb Hc. induction q as [| q IH].
  - destruct (md_match_short c b Hb Hc) as [M1 M2].
    destruct r as [| [| [| r]]]; [reflexivity | | | lia].
    + change (repeat newline (3 * 0 + 1) ++ c :: b) with (newline :: c :: b).
      rewrite md_replace_step, M1. reflexivity.
    + change (repeat newline (3 * 0 + 2) ++ c :: b) with (newline :: newline :: c :: b).
      rewrite md_replace_step, M2, md_replace_step, M1. reflexivity.
  - replace (3 * S q + r) with (3 + (3 * q + r)) by lia.
    replace (2 * S q + r) with (2 + (2 * q + r)) by lia.
    cbn [repeat Nat.add app].
    rewrite md_replace_step, md_match_three. cbn [drop skipn]. rewrite drop_0.
    rewrite IH. reflexivity.
Qed.

Lemma md_replace_no_newline (a t : text) :
  ~ In newline a -> md_replace (a ++ t) 0 = a ++ md_replace t 0.
Proof.
  induction a as [| c a IH]; intros Hnl; [reflexivity |].
  change ((c :: a) ++ t) with (c :: a ++ t).
  rewrite md_replace_step, md_match_head.
  - simpl. f_equal. apply IH. intros Hin. apply Hnl. right. exact Hin.
  - intros ->. apply Hnl. left. reflexivity.
Qed.

(** What one pass does to a run of line feeds.  After a text that holds no
    line feed and before a character that is not white space, a run of
    [n] line feeds comes out as [2 * (n / 3) + n mod 3] line feeds: one,
    two and three line feeds give one, two and two, but four give
    three. *)
Theorem simplify_md_run (a : text) (n : nat) (c : ascii) (b : text) :
  ~ In newline a -> isblank c = false -> c <> newline ->
  simplify_md (a ++ repeat newline n ++ c :: b)
  = a ++ repeat newline (2 * (n / 3) + n mod 3) ++ simplify_md (c :: b).
Proof.
  intros Ha Hb Hc. unfold simplify_md. rewrite md_replace_no_newline by exact Ha.
  f_equal. rewrite (Nat.div_mod_eq n 3) at 1.
  apply md_replace_run; try assumption. apply Nat.mod_upper_bound. lia.
Qed.

Lemma simplify_md_run_witness :
  ~ In newline (txt "a")
  /\ simplify_md (txt "a" ++ repeat newline 7 ++ txt "b")
     = txt "a" ++ repeat newline 5 ++ txt "b".
Proof.
  assert (Ha : ~ In newline (txt "a")).
  { simpl. intros [H | []]. discriminate H. }
  split; [exact Ha |].
  exact (simplify_md_run (txt "a") 7 "b" [] Ha eq_refl ltac:(discriminate)).
Defined.

(** ** [NEW_ALIAS] *)

(** [NEW_ALIAS] trims the replacement text; when what is left starts with
    a round, curly or square bracket or a double quote, it drops that
    character and the last one, whatever the last one is.  A lone opening
    character gives the empty text, and a text that starts otherwise is
    only trimmed. *)
Theorem unwrap_alias_cases (o c : ascii) (body t : text) :
  (is_opener o = true -> isspace c = false ->
     unwrap_alias (o :: body ++ [c]) = body)
  /\ (is_opener o = true -> unwrap_alias [o] = [])
  /\ (is_opener (at_ (strip t) 0) = false -> unwrap_alias t = strip t).
Proof.
  assert (Hsp : is_opener o = true -> isspace o = false).
  { unfold is_opener. intros H.
    repeat (apply orb_true_iff in H as [H | H]);
      apply Ascii.eqb_eq in H; subst o; reflexivity. }
  split; [| split].
  - intros Ho Hc. unfold unwrap_alias.
    assert (Hfix : strip (o :: body ++ [c]) = o :: body ++ [c]).
    { apply strip_fixed. right. split; [apply Hsp, Ho |].
      change (o :: body ++ [c]) with ((o :: body) ++ [c]).
      rewrite last_last. exact Hc. }
    rewrite Hfix. change (at_ (o :: body ++ [c]) 0) with o.
    fold (is_opener o). rewrite Ho.
    rewrite size_sub_exact by (simpl; rewrite length_app; simpl; lia).
    rewrite slice_exact by (simpl; rewrite length_app; simpl; lia).
    replace (Z.to_nat (Z.of_nat (length (o :: body ++ [c])) - Z.of_nat 0 - 2))
      with (length body) by (simpl; rewrite length_app; simpl; lia).
    simpl. rewrite drop_0. apply take_app_length.
  - intros Ho. unfold unwrap_alias.
    assert (Hfix : strip [o] = [o])
      by (apply strip_fixed; right; split; apply Hsp, Ho).
    rewrite Hfix. change (at_ [o] 0) with o. fold (is_opener o). rewrite Ho.
    apply slice_at_end. simpl. lia.
  - intros Hn. unfold unwrap_alias. fold (is_opener (at_ (strip t) 0)).
    rewrite Hn. reflexivity.
Qed.

(** ** The template reader *)

Lemma list_last_app (p : text) (c : ascii) (s : text) :
  List.last (p ++ c :: s) zero = List.last (c :: s) zero.
Proof.
  induction p as [| x p IH]; [reflexivity |].
  rewrite <- IH. change ((x :: p) ++ c :: s) with (x :: (p ++ c :: s)).
  destruct (p ++ c :: s) as [| y t] eqn:E; [destruct p; discriminate E |].
  reflexivity.
Qed.

Lemma with_final_newline_app (p s : text) :
  with_final_newline (p ++ newline :: s) = p ++ newline :: with_final_newline s.
Proof.
  unfold with_final_newline at 1.
  destruct (p ++ newline :: s) as [| x y] eqn:Hp.
  - destruct p; discriminate Hp.
  - rewrite <- Hp. clear x y Hp.
    destruct s as [| c s].
    + change (p ++ [newline]) with (p ++ [newline]). rewrite last_last. reflexivity.
    + replace (List.last (p ++ newline :: c :: s) zero) with (List.last (c :: s) zero).
      * unfold with_final_newline.
        destruct (Ascii.eqb (List.last (c :: s) zero) newline); [reflexivity |].
        rewrite <- app_assoc. reflexivity.
      * change (p ++ newline :: c :: s) with (p ++ [newline] ++ (c :: s)).
        rewrite app_assoc. symmetry. apply list_last_app.
Qed.

Lemma getlines_spec (s acc : text) :
  ~ In newline acc ->
  join_lines (getlines s acc) = with_final_newline (acc ++ s)
  /\ Forall (fun l => ~ In newline l) (getlines s acc).
Proof.
  revert acc. induction s as [| c s IH]; intros acc Hacc.
  - rewrite app_nil_r. simpl. destruct acc as [| a acc]; [split; constructor |].
    split; [| constructor; [exact Hacc | constructor]].
    unfold join_lines, with_final_newline. simpl concat. rewrite app_nil_r.
    destruct (Ascii.eqb_spec (List.last (a :: acc) zero) newline) as [He | _];
      [| reflexivity].
    exfalso. apply Hacc. rewrite <- He.
    destruct (@exists_last _ (a :: acc)) as (t & d & ->); [discriminate |].
    rewrite last_last. apply in_or_app. right. left. reflexivity.
  - simpl. destruct (Ascii.eqb_spec c newline) as [-> | Hc].
    + destruct (IH [] ltac:(intros [])) as [IH1 IH2].
      split; [| constructor; assumption].
      rewrite with_final_newline_app. unfold join_lines in *. simpl.
      rewrite IH1. rewrite <- app_assoc. reflexivity.
    + destruct (IH (acc ++ [c])) as [IH1 IH2].
      { intros Hin. apply in_app_or in Hin as [Hin | [Hin | []]];
          [exact (Hacc Hin) | congruence]. }
      rewrite <- app_assoc in IH1. split; assumption.
Qed.

(** Reading the template line by line loses nothing: the lines hold no
    line feed, and put back together, each with its line feed, they give
    the text, completed by a final line feed when it lacked one. *)
Theorem getlines_join (s : text) :
  join_lines (getlines s []) = with_final_newline s
  /\ Forall (fun l => ~ In newline l) (getlines s []).
Proof. apply (getlines_spec s []). intros []. Qed.




(** ** Template commands cannot end the run *)







(** The way in which a template command does end the run: a [NEW_COMMAND]
    with two or three arguments, when the directory of the command modules
    is not there and cannot be made. *)
Lemma new_command_needs_directory depth env (context : DocContext) :
  process_md_command depth env (txt "NEW_COMMAND(hi, {return code;})") context
  = if commands_dir_ready env (built context)
    then Ok (set_built (fun b => b ++ [[txt "hi"; txt "{return code;}"]]) context)
    else Throw fs_filesystem_error.
Proof.
  unfold process_md_command.
  assert (Hp : strip (txt "NEW_COMMAND(hi, {return code;})")
               = txt "NEW_COMMAND(hi, {return code;})") by (vm_compute; reflexivity).
  rewrite Hp.
  assert (Hf : find (txt "(") (txt "NEW_COMMAND(hi, {return code;})") 0 = Some 11)
    by (vm_compute; reflexivity).
  rewrite Hf.
  assert (Hn : substr (txt "NEW_COMMAND(hi, {return code;})") 0 (Z.of_nat 11)
               = Ok (txt "NEW_COMMAND")) by (vm_compute; reflexivity).
  assert (Ha : parse_args (txt "NEW_COMMAND(hi, {return code;})") 11
               = Ok ([txt "hi"; txt "{return code;}"], 30)) by (vm_compute; reflexivity).
  rewrite Hn, Ha. cbn [bind fst].
  assert (Hc : strip (txt "NEW_COMMAND") = txt "NEW_COMMAND") by (vm_compute; reflexivity).
  rewrite Hc.
  change (named (txt "NEW_COMMAND") "NEW_COMMAND") with true.
  reflexivity.
Qed.


(** A command is unknown until [NEW_COMMAND] has built it and answers
    afterwards: the first pass over the file reports it, the second one
    produces what its module returns. *)
Example command_used_after_build :
  main 0 rebuilt_env = Ok (Some (txt "<int x;>"))
  /\ exists context,
       main_loop 0 rebuilt_env (getlines rebuilt_template []) None
         (empty_context (txt "docs") rebuilt_template) = Ok context
       /\ cerr context = [txt "Error: Unknown command HI" ++ [newline]]
       /\ built context = [[txt "HI"; txt "{return code;}"]].
Proof.
  split; [vm_compute; reflexivity |].
  eexists. split; [vm_compute; reflexivity |]. split; reflexivity.
Qed.

(** ** Comments outside any documentation span *)

Lemma find_in_none (pat rest : text) (i : nat) :
  find_in pat rest i = None <->
  forall k, text_eqb (take (length pat) (drop k rest)) pat = false.
Proof.
  revert i. induction rest as [| c rest IH]; intros i.
  - simpl. destruct (text_eqb (take (length pat) []) pat) eqn:He.
    + split; [discriminate |]. intros H. specialize (H 0). simpl in H. congruence.
    + split; [| reflexivity]. intros _ k. rewrite drop_nil. exact He.
  - rewrite find_in_cons.
    destruct (text_eqb (take (length pat) (c :: rest)) pat) eqn:He.
    + split; [discriminate |]. intros H. specialize (H 0). rewrite drop_0 in H. congruence.
    + rewrite IH. split.
      * intros H [| k]; [rewrite drop_0; exact He | apply H].
      * intros H k. apply (H (S k)).
Qed.

Lemma take_take_drop (pat : text) (k n m : nat) (s : text) :
  pat <> [] ->
  text_eqb (take (length pat) (drop k (take n (drop m s)))) pat = true ->
  text_eqb (take (length pat) (drop (m + k) s)) pat = true.
Proof.
  intros Hpat H. apply text_eqb_eq in H. apply text_eqb_eq.
  assert (Hp : 0 < length pat) by (destruct pat; [congruence | simpl; lia]).
  pose proof (f_equal length H) as Hl.
  rewrite length_take, length_drop, length_take, length_drop in Hl.
  rewrite <- drop_drop.
  rewrite <- (take_drop n (drop m s)) at 1.
  rewrite drop_app_le by (rewrite length_take, length_drop; lia).
  rewrite take_app_le by (rewrite length_drop, length_take, length_drop; lia).
  exact H.
Qed.

Lemma find_in_none_infix (pat s : text) (n m : nat) :
  pat <> [] -> find_in pat s 0 = None -> find_in pat (take n (drop m s)) 0 = None.
Proof.
  intros Hpat H. rewrite find_in_none in *. intros k.
  destruct (text_eqb (take (length pat) (drop k (take n (drop m s)))) pat) eqn:He;
    [| reflexivity].
  apply take_take_drop in He; [| exact Hpat]. rewrite H in He. discriminate He.
Qed.

Lemma find_in_none_slice (pat s : text) (pos : nat) (n : Z) :
  pat <> [] -> find_in pat s 0 = None -> find_in pat (slice s pos n) 0 = None.
Proof. intros Hpat H. unfold slice. apply find_in_none_infix; assumption. Qed.

Lemma find_in_none_strip (pat s : text) :
  pat <> [] -> find_in pat s 0 = None -> find_in pat (strip s) 0 = None.
Proof. intros Hpat H. unfold strip. apply find_in_none_slice; assumption. Qed.

Lemma find_in_none_tail (pat : text) (c : ascii) (rest : text) :
  find_in pat (c :: rest) 0 = None -> find_in pat rest 0 = None.
Proof.
  rewrite !find_in_none. intros H k. apply (H (S k)).
Qed.

Lemma extract_no_occurrence (pat rest : text) (idx skip : nat) :
  pat <> [] -> find_in pat rest 0 = None ->
  Forall (fun c => find_in pat (comment c) 0 = None) (extract rest idx skip).
Proof.
  intros Hpat. revert idx skip.
  induction rest as [| c rest IH]; intros idx skip H; [constructor |].
  pose proof (find_in_none_tail _ _ _ H) as Ht.
  cbn [extract]. destruct skip as [| k]; [| apply IH, Ht].
  destruct (Ascii.eqb c "/" && Ascii.eqb (hd zero rest) "/").
  { constructor; [| apply IH, Ht]. cbn [comment].
    apply find_in_none_strip, find_in_none_slice; assumption. }
  destruct (Ascii.eqb c "/" && Ascii.eqb (hd zero rest) "*").
  { constructor; [| apply IH, Ht]. cbn [comment].
    apply find_in_none_strip, find_in_none_slice; assumption. }
  apply IH, Ht.
Qed.

Lemma at_nonzero_lt (s : text) (i : nat) : at_ s i <> zero -> i < length s.
Proof.
  intros H. destruct (Nat.lt_ge_cases i (length s)) as [Hlt | Hge]; [exact Hlt |].
  exfalso. apply H. unfold at_. apply nth_overflow. exact Hge.
Qed.

Lemma take_eq_prefix (n : nat) (l pre : text) :
  take n l = pre -> take (length pre) l = pre.
Proof.
  intros H. rewrite <- H at 2. rewrite <- H. rewrite length_take.
  destruct (Nat.le_ge_cases n (length l)) as [Hle | Hge].
  - rewrite Nat.min_l by exact Hle. reflexivity.
  - rewrite Nat.min_r by exact Hge. rewrite !take_ge by lia. reflexivity.
Qed.

Lemma comment_loop_no_doc run (cmt rest : text) (idx skip : nat) (context : DocContext) :
  rest = drop idx cmt ->
  find_in (txt "@DOC") rest 0 = None ->
  comment_loop run cmt rest idx skip false context = Ok context.
Proof.
  revert idx skip. induction rest as [| c rest IH]; intros idx skip Hrest Hno;
    [reflexivity |].
  symmetry in Hrest. apply drop_cons_at in Hrest as (Hlt & _ & Hrest).
  symmetry in Hrest. pose proof (find_in_none_tail _ _ _ Hno) as Ht.
  cbn [comment_loop]. destruct skip as [| k]; [| apply IH; assumption].
  destruct (Ascii.eqb c "@" && isupper (hd zero rest)) eqn:Hcmd;
    [| apply IH; assumption].
  apply andb_true_iff in Hcmd as [Hc _]. apply Ascii.eqb_eq in Hc. subst c.
  set (e := scan_while is_ident rest (S idx)).
  assert (He : S idx <= e) by apply scan_while_ge.
  rewrite substr_ok by lia. cbn [bind].
  rewrite size_sub_exact by lia. rewrite slice_exact by lia.
  rewrite <- Hrest.
  assert (Hparsed : exists ar i1,
            (if Ascii.eqb (at_ cmt e) "("
             then let* r := parse_args cmt e in Ok (fst r, S (snd r))
             else Ok ([], e)) = Ok (ar, i1)).
  { destruct (Ascii.eqb_spec (at_ cmt e) "(") as [Hp | _]; [| eauto].
    assert (Hel : e < length cmt) by (apply at_nonzero_lt; rewrite Hp; discriminate).
    destruct (parse_loop_returns cmt (drop (S e) cmt) (S e) (parse_init e) e eq_refl
                ltac:(lia) ltac:(simpl; lia) ltac:(simpl; lia)) as (ar & p & Hr & _).
    unfold parse_args. rewrite Hr. cbn [bind fst snd]. eauto. }
  destruct Hparsed as (ar & i1 & ->). cbn [bind].
  destruct (named (take (Z.to_nat (Z.of_nat e - Z.of_nat idx - 1)) rest) "DOC") eqn:Hdoc.
  { exfalso. unfold named in Hdoc. apply text_eqb_eq in Hdoc.
    apply take_eq_prefix in Hdoc.
    rewrite find_in_none in Hno. specialize (Hno 0). rewrite drop_0 in Hno.
    change (take (length (txt "@DOC")) ("@" :: rest))
      with ("@" :: take (length (txt "DOC")) rest) in Hno.
    rewrite Hdoc in Hno. discriminate Hno. }
  destruct (named _ "END"); cbn [bind]; apply IH; assumption.
Qed.

(** A source text in which [@DOC] occurs nowhere contributes nothing and
    cannot fail, whatever its comments hold: interpreted as a real source
    it only clears the section selector (and that only if it has a
    comment); interpreted as the pseudo-source of an alias it leaves the
    context as it was. *)
Theorem source_without_doc_ignored depth env (src : text) (context : DocContext)
    (filename : text) :
  find_in (txt "@DOC") src 0 = None ->
  process_source depth env src context false filename = Ok context
  /\ process_source depth env src context true filename
     = Ok (match extract_comments src with
           | [] => context
           | _ => set_currentSection [] context
           end).
Proof.
  intros Hno. rewrite !process_source_unfold.
  generalize (alias_expander depth env filename). intros expand.
  pose proof (extract_no_occurrence (txt "@DOC") src 0 0 ltac:(discriminate) Hno) as Hall.
  fold (extract_comments src) in Hall.
  assert (Hone : forall realSource cmt ctx,
            find_in (txt "@DOC") (comment cmt) 0 = None ->
            process_comment env expand src realSource filename cmt ctx
            = Ok (if realSource then set_currentSection [] ctx else ctx)).
  { intros realSource cmt ctx Hc. unfold process_comment.
    rewrite comment_loop_no_doc; [reflexivity | rewrite drop_0; reflexivity | exact Hc]. }
  assert (Hreset : forall ctx, currentSection ctx = [] -> set_currentSection [] ctx = ctx).
  { intros ctx Hc. destruct ctx. simpl in Hc. subst. reflexivity. }
  assert (Hmain : forall cs ctx,
            Forall (fun c => find_in (txt "@DOC") (comment c) 0 = None) cs ->
            currentSection ctx = [] ->
            process_comments env expand src true filename cs ctx = Ok ctx).
  { intros cs. induction cs as [| cmt cs IH]; intros ctx Hcs Hc; [reflexivity |].
    inversion Hcs as [| ? ? H1 H2]; subst.
    cbn [process_comments]. rewrite Hone by exact H1. cbn [bind].
    rewrite Hreset by exact Hc. apply IH; assumption. }
  split.
  - revert context. induction Hall as [| cmt cs Hc _ IH]; intros context; [reflexivity |].
    cbn [process_comments]. rewrite Hone by exact Hc. cbn [bind]. apply IH.
  - destruct Hall as [| cmt cs Hc Hall]; [reflexivity |].
    cbn [process_comments]. rewrite Hone by exact Hc. cbn [bind].
    apply Hmain; [exact Hall | reflexivity].
Qed.

Lemma source_without_doc_ignored_witness :
  find_in (txt "@DOC") (txt "// @FUNC_ARG(x) plain /* @FOO */ int f();") 0 = None
  /\ process_source 0 bare_env (txt "// @FUNC_ARG(x) plain /* @FOO */ int f();")
       bare_context false (txt "f.cpp") = Ok bare_context.
Proof.
  assert (H : find_in (txt "@DOC") (txt "// @FUNC_ARG(x) plain /* @FOO */ int f();") 0
              = None) by (vm_compute; reflexivity).
  split; [exact H |].
  apply (source_without_doc_ignored 0 bare_env _ bare_context (txt "f.cpp") H).
Defined.

(** ** The text of a documentation span *)






(** ** What processing a source leaves alone *)

Lemma grows_refl (c : DocContext) : grows c c.
Proof.
  unfold grows. repeat split; try reflexivity.
  intros k v H. exists v. split; [exact H | reflexivity].
Qed.

Lemma grows_trans (c1 c2 c3 : DocContext) : grows c1 c2 -> grows c2 c3 -> grows c1 c3.
Proof.
  intros (Ha & Hb & Hc & Hd & He & Hf & Hg) (Ha' & Hb' & Hc' & Hd' & He' & Hf' & Hg').
  unfold grows. repeat split; try congruence.
  - etransitivity; eassumption.
  - etransitivity; eassumption.
  - intros k v H. destruct (Hg k v H) as (v' & H' & Hp).
    destruct (Hg' k v' H') as (v'' & H'' & Hp').
    exists v''. split; [exact H'' | etransitivity; eassumption].
Qed.

Lemma grows_process_char (ch : ascii) (c : DocContext) : grows c (process_char ch c).
Proof.
  unfold process_char. destruct (currentSection c) as [| a s] eqn:Hs.
  - unfold grows. cbn. repeat split; try reflexivity.
    + apply prefix_app_r. reflexivity.
    + intros k v H. exists v. split; [exact H | reflexivity].
  - unfold grows. cbn. repeat split; try reflexivity.
    intros k v H. unfold append_to.
    destruct (decide (k = a :: s)) as [-> | Hne].
    + rewrite lookup_insert_eq, H. cbn. eexists. split; [reflexivity |].
      apply prefix_app_r. reflexivity.
    + rewrite lookup_insert_ne by congruence.
      exists v. split; [exact H | reflexivity].
Qed.

Lemma grows_process_string (s : text) (c : DocContext) : grows c (process_string s c).
Proof.
  unfold process_string. revert c.
  induction s as [| ch s IH]; intros c; cbn [fold_left]; [apply grows_refl |].
  eapply grows_trans; [apply grows_process_char | apply IH].
Qed.

Lemma grows_process_str (b : bool) (s : text) (c : DocContext) : grows c (process_str b s c).
Proof. unfold process_str. destruct b; apply grows_process_string. Qed.

Lemma grows_report (msg : text) (c : DocContext) : grows c (report msg c).
Proof.
  unfold grows, report. cbn. repeat split; try reflexivity.
  - apply prefix_app_r. reflexivity.
  - intros k v H. exists v. split; [exact H | reflexivity].
Qed.

Lemma grows_set_currentSection (s : text) (c : DocContext) :
  grows c (set_currentSection s c).
Proof.
  unfold grows, set_currentSection. cbn. repeat split; try reflexivity.
  intros k v H. exists v. split; [exact H | reflexivity].
Qed.

Lemma grows_emit (b : bool) (a : outcome text) (c c' : DocContext) :
  emit b a c = Ok c' -> grows c c'.
Proof.
  unfold emit. destruct a; cbn [bind]; intros H; try discriminate.
  injection H as <-. apply grows_process_str.
Qed.

Lemma grows_func_arg b args src ei (c c' : DocContext) :
  func_arg b args src ei c = Ok c' -> grows c c'.
Proof.
  unfold func_arg. destruct args as [| arg [| a2 args]].
  - intros H. injection H as <-. apply grows_report.
  - destruct (func_arg_list src ei); cbn [bind]; try discriminate.
    destruct (stoi arg); cbn [bind]; try discriminate.
    match goal with |- context [if ?b then Ok (report _ _) else _] => destruct b end;
      intros H; injection H as <-; [apply grows_report | apply grows_process_str].
  - intros H. injection H as <-. apply grows_report.
Qed.

Lemma grows_run_plugin env b command args src ei (c c' : DocContext) :
  run_plugin env b command args src ei c = Ok c' -> grows c c'.
Proof.
  unfold run_plugin. destruct (lib_lookup env (built c) command).
  1-3: intros H; injection H as <-; apply grows_report.
  destruct (substr_from src (S ei)); cbn [bind]; intros H; try discriminate.
  injection H as <-. apply grows_process_str.
Qed.

Lemma grows_process_src_command env expand command_ args cmt src simplify filename
    (c c' : DocContext) :
  (forall pseudo ctx ctx', expand pseudo ctx = Ok ctx' -> grows ctx ctx') ->
  process_src_command env expand command_ args c cmt src simplify filename = Ok c' ->
  grows c c'.
Proof.
  intros Hexp. revert command_ simplify.
  induction args as [| a args IH]; intros command_ simplify.
  - cbn [process_src_command].
    repeat (match goal with
            | |- context [if ?b then _ else _] => destruct b
            end).
    all: try (intros H; injection H as <-;
              first [apply grows_set_currentSection | apply grows_report]).
    all: try apply grows_emit.
    all: try apply grows_func_arg.
    all: destruct (aliases c !! _); [| apply grows_run_plugin].
    all: destruct (alias_source _ _ _); cbn [bind]; try discriminate; apply Hexp.
  - cbn [process_src_command].
    repeat (match goal with
            | |- context [if ?b then _ else _] => destruct b
            end).
    all: try (intros H; injection H as <-; apply grows_set_currentSection).
    all: try apply grows_emit.
    all: try apply grows_func_arg.
    all: try apply IH.
    all: destruct (aliases c !! _); [| apply grows_run_plugin].
    all: destruct (alias_source _ _ _); cbn [bind]; try discriminate; apply Hexp.
Qed.

Lemma grows_comment_loop run cmt rest idx skip doc (c c' : DocContext) :
  (forall cmdName args ctx ctx', run cmdName args ctx = Ok ctx' -> grows ctx ctx') ->
  comment_loop run cmt rest idx skip doc c = Ok c' -> grows c c'.
Proof.
  intros Hrun. revert idx skip doc c.
  induction rest as [| ch rest IH]; intros idx skip doc c.
  - cbn [comment_loop]. intros H. injection H as <-. apply grows_refl.
  - cbn [comment_loop]. destruct skip as [| k]; [| apply IH].
    destruct (Ascii.eqb ch "@" && isupper (hd zero rest)).
    + destruct (substr cmt (S idx) _) as [cmdName | | |]; try discriminate.
      cbn [bind].
      destruct (if Ascii.eqb (at_ cmt (scan_while is_ident rest (S idx))) "(" then _ else _)
        as [[args index1] | | |]; try discriminate.
      cbn [bind].
      destruct (named cmdName "DOC"); [apply IH |].
      destruct (named cmdName "END"); [apply IH |].
      destruct doc; [| apply IH].
      destruct (run cmdName args c) as [c1 | | |] eqn:H1; try discriminate.
      cbn [bind]. intros H. eapply grows_trans; [eapply Hrun, H1 | eapply IH, H].
    + intros H. apply IH in H. destruct doc; [| exact H].
      eapply grows_trans; [apply grows_process_char | exact H].
Qed.

Lemma grows_process_comments env expand src realSource filename comments
    (c c' : DocContext) :
  (forall pseudo ctx ctx', expand pseudo ctx = Ok ctx' -> grows ctx ctx') ->
  process_comments env expand src realSource filename comments c = Ok c' ->
  grows c c'.
Proof.
  intros Hexp. revert c.
  induction comments as [| cmt comments IH]; intros c.
  - cbn [process_comments]. intros H. injection H as <-. apply grows_refl.
  - cbn [process_comments]. unfold process_comment.
    destruct (comment_loop _ (comment cmt) (comment cmt) 0 0 false c) as [c1 | | |] eqn:H1;
      try discriminate.
    cbn [bind]. intros H. apply IH in H.
    apply grows_comment_loop in H1;
      [| intros ? ? ? ?; apply grows_process_src_command; exact Hexp].
    eapply grows_trans; [exact H1 |].
    eapply grows_trans; [| exact H].
    destruct realSource; [apply grows_set_currentSection | apply grows_refl].
Qed.

Lemma grows_process_source depth env (src : text) (context context' : DocContext)
    (realSource : bool) (filename : text) :
  process_source depth env src context realSource filename = Ok context' ->
  grows context context'.
Proof.
  revert src context context' realSource.
  induction depth as [| depth IH]; intros src context context' realSource;
    rewrite process_source_unfold; apply grows_process_comments.
  - intros pseudo ctx ctx' H. discriminate H.
  - intros pseudo ctx ctx' H. cbn [alias_expander] in H. eapply IH, H.
Qed.

(** Processing a source file, whatever it holds and however deep its
    aliases nest, changes nothing of the document text, the alias table
    and the two paths of the context; the main buffer, the messages and
    every section buffer that existed are only extended at their end. *)
Theorem process_source_only_appends depth env (src : text) (context context' : DocContext)
    (realSource : bool) (filename : text) :
  process_source depth env src context realSource filename = Ok context' ->
  grows context context'.
Proof. apply grows_process_source. Qed.

Lemma process_source_only_appends_witness :
  process_source 0 bare_env (txt "/* @DOC hi @END */") bare_context true (txt "f.cpp")
  = Ok (set_currentSection [] (process_string (txt " hi ") bare_context))
  /\ grows bare_context (set_currentSection [] (process_string (txt " hi ") bare_context)).
Proof.
  assert (H : process_source 0 bare_env (txt "/* @DOC hi @END */") bare_context true
                (txt "f.cpp")
              = Ok (set_currentSection [] (process_string (txt " hi ") bare_context)))
    by (vm_compute; reflexivity).
  split; [exact H |].
  exact (process_source_only_appends 0 bare_env (txt "/* @DOC hi @END */") bare_context
           (set_currentSection [] (process_string (txt " hi ") bare_context)) true
           (txt "f.cpp") H).
Defined.

(** ** More of the texts derived from the source *)

Lemma back_while_below (p : ascii -> bool) (s : text) (e j : nat) :
  (forall k, j <= k < e -> p (at_ s k) = true) -> back_while p s e <= Nat.min j e.
Proof.
  induction e as [| e IH]; intros H; cbn [back_while]; [lia |].
  destruct (Nat.le_gt_cases j e) as [Hle | Hgt].
  - rewrite (H e) by lia.
    assert (back_while p s e <= Nat.min j e) by (apply IH; intros; apply H; lia).
    lia.
  - pose proof (back_while_le p s e).
    destruct (p (at_ s e)); lia.
Qed.

(** With no white space at all from the character the comment ends on to
    the first opening round bracket, the backward search of [FUNC_RET]
    ends before the place the text starts at, the length given to [substr]
    wraps around, and the command produces all the rest of the file. *)
Theorem func_ret_without_space (head mid tail : text) (c : ascii) :
  let src := head ++ c :: mid ++ "(" :: tail in
  (Z.of_nat (length src) <= size_max)%Z ->
  isspace c = false ->
  forallb (fun x => negb (isspace x)) mid = true ->
  forallb (not_char "(") mid = true ->
  func_ret src (length head) = Ok (strip (mid ++ "(" :: tail)).
Proof.
  intros src Hlen Hc Hsp Hbr. set (ei := length head).
  assert (Hdrop : drop (S ei) src = mid ++ "(" :: tail).
  { unfold src, ei. change (head ++ c :: mid ++ "(" :: tail)
      with (head ++ [c] ++ (mid ++ "(" :: tail)).
    rewrite app_assoc.
    replace (S (length head)) with (length (head ++ [c]))
      by (rewrite length_app; simpl; lia).
    apply drop_app_length. }
  assert (Hsize : length src = S ei + length mid + S (length tail)).
  { unfold src, ei. rewrite length_app. cbn [length]. rewrite length_app. cbn [length]. lia. }
  unfold func_ret. cbv zeta. rewrite Hdrop.
  rewrite (scan_while_stop (not_char "(") mid tail "(" (S ei) Hbr eq_refl).
  destruct (Nat.ltb_spec (length src) ei); [lia |].
  set (e2 := back_while _ src (S ei + length mid)).
  assert (He2 : e2 <= ei).
  { pose proof (back_while_below (fun x => negb (isspace x)) src (S ei + length mid) ei) as Hb.
    fold e2 in Hb. cut (e2 <= Nat.min ei (S ei + length mid)); [lia |].
    apply Hb. intros k Hk.
    destruct (Nat.eq_dec k ei) as [-> | Hne].
    - unfold at_, src, ei. rewrite app_nth2 by lia. rewrite Nat.sub_diag. cbn [nth].
      rewrite Hc. reflexivity.
    - replace k with (S ei + (k - S ei)) by lia. rewrite <- nth_drop_at, Hdrop.
      rewrite app_nth1 by lia.
      rewrite forallb_forall in Hsp. apply Hsp, nth_In. lia. }
  rewrite substr_ok by lia. cbn [bind]. f_equal. f_equal.
  unfold slice, size_sub.
  destruct (Z.ltb_spec (Z.of_nat e2 - Z.of_nat (S ei) - 0) 0) as [Hneg | Hpos]; [| lia].
  rewrite Z.min_r by lia. rewrite Nat2Z.id.
  rewrite take_ge by (rewrite length_drop; lia).
  exact Hdrop.
Qed.

Lemma func_ret_without_space_witness :
  func_ret (txt "/* c */Foo(int); int g();") 7 = Ok (txt "oo(int); int g();").
Proof.
  assert (Hs : strip (txt "oo" ++ "(" :: txt "int); int g();") = txt "oo(int); int g();")
    by (vm_compute; reflexivity).
  rewrite <- Hs.
  apply (func_ret_without_space (txt "/* c */") (txt "oo") (txt "int); int g();") "F").
  - vm_compute. discriminate.
  - reflexivity.
  - reflexivity.
  - reflexivity.
Defined.

Lemma class_back_spec (src : text) (e s : nat) :
  class_back src e = Ok s ->
  s <= e /\ forall j, s <= j < e -> is_ident (at_ src j) = true.
Proof.
  induction e as [| e IH]; cbn [class_back]; [discriminate |].
  destruct (is_ident (at_ src e)) eqn:Hid.
  - intros H. destruct (IH H) as [Hle Hall]. split; [lia |].
    intros j Hj. destruct (Nat.eq_dec j e) as [-> | Hne]; [exact Hid | apply Hall; lia].
  - intros H. injection H as <-. split; [lia |]. intros j Hj. lia.
Qed.

(** What [CLASS_NAME] produces, when it produces something, is made of
    identifier characters only: the run of them that ends where the white
    space before the first [{], [:] or [;] after the comment begins. *)
Theorem class_name_result (src : text) (ei : nat) (a : text) :
  class_name src ei = Ok a -> forallb is_ident a = true.
Proof.
  unfold class_name. cbv zeta.
  destruct (Nat.ltb_spec (length src) ei); [discriminate |].
  set (e2 := back_while isspace src _).
  destruct (class_back src e2) as [start | | |] eqn:Hback; try discriminate.
  cbn [bind]. apply class_back_spec in Hback as [Hle Hall].
  unfold substr. destruct (Nat.ltb_spec (length src) start); [discriminate |].
  cbn [bind]. intros Hres. injection Hres as <-.
  rewrite size_sub_exact by lia. rewrite slice_exact by lia.
  replace (Z.to_nat (Z.of_nat e2 - Z.of_nat start - 0)) with (e2 - start) by lia.
  assert (Hid : forall c, In c (take (e2 - start) (drop start src)) -> is_ident c = true).
  { intros c Hin. apply In_take_drop in Hin as (j & Hj & <-). apply Hall. lia. }
  rewrite strip_fixed.
  - apply forallb_In, Hid.
  - apply trimmed_no_space. intros c Hin. apply is_ident_not_space, Hid, Hin.
Qed.

Lemma class_name_result_witness :
  class_name (txt "/* c */ class Foo : Bar {};") 7 = Ok (txt "Foo")
  /\ forallb is_ident (txt "Foo") = true.
Proof.
  assert (H : class_name (txt "/* c */ class Foo : Bar {};") 7 = Ok (txt "Foo"))
    by (vm_compute; reflexivity).
  split; [exact H |].
  exact (class_name_result (txt "/* c */ class Foo : Bar {};") 7 (txt "Foo") H).
Defined.

(** [NEXT_MACRO] throws exactly when nothing follows the comment, not
    even a line feed (its end index is then the length of the text or
    more).  Otherwise what it produces ends in a
    closing round bracket and holds no other one: the text stops at the
    first closing bracket after the [#], also when the macro takes no
    arguments and the bracket belongs to what follows. *)
Theorem next_macro_result (src : text) (ei : nat) :
  if S ei <=? length src then
    exists m, next_macro src ei = Ok (m ++ txt ")")
              /\ forallb (not_char ")") m = true
  else next_macro src ei = Throw std_out_of_range.
Proof.
  unfold next_macro. cbv zeta.
  set (start := scan_while (not_char "#") (drop (S ei) src) (S ei)).
  set (end_ := scan_while (not_char ")") (drop start src) start).
  pose proof (scan_while_ge (not_char "#") (drop (S ei) src) (S ei)) as Hs.
  fold start in Hs. rewrite length_drop in Hs.
  pose proof (scan_while_ge (not_char ")") (drop start src) start) as He.
  fold end_ in He. rewrite length_drop in He.
  destruct (Nat.leb_spec (S ei) (length src)) as [Hle | Hgt].
  - rewrite substr_ok by lia. cbn [bind].
    eexists. split; [reflexivity |].
    apply forallb_In. intros c Hin.
    apply In_strip in Hin.
    rewrite size_sub_exact, slice_exact in Hin by lia.
    replace (Z.to_nat (Z.of_nat end_ - Z.of_nat start - 0)) with (end_ - start) in Hin
      by lia.
    apply In_take_drop in Hin as (j & Hj & <-).
    replace j with (start + (j - start)) by lia. rewrite <- nth_drop_at.
    apply (scan_while_between (not_char ")") (drop start src) start j).
    fold end_. lia.
  - unfold substr. destruct (Nat.ltb_spec (length src) start); [reflexivity | lia].
Qed.

(** When no [#] follows the comment, [NEXT_MACRO] produces a closing round
    bracket and nothing else, provided something follows the comment (its
    end index is inside the text); when nothing does, it throws. *)
Theorem next_macro_without_hash (src : text) (ei : nat) :
  forallb (not_char "#") (drop (S ei) src) = true ->
  next_macro src ei
  = if S ei <=? length src then Ok (txt ")") else Throw std_out_of_range.
Proof.
  intros H. unfold next_macro. cbv zeta.
  rewrite (scan_to_end _ _ _ H).
  destruct (Nat.leb_spec (S ei) (length src)) as [Hle | Hgt].
  - replace (Nat.max (S ei) (length src)) with (length src) by lia.
    rewrite drop_all. cbn [scan_while].
    rewrite substr_ok by lia. cbn [bind].
    rewrite slice_at_end by lia. reflexivity.
  - replace (Nat.max (S ei) (length src)) with (S ei) by lia.
    rewrite drop_ge by lia. cbn [scan_while].
    unfold substr. destruct (Nat.ltb_spec (length src) (S ei)); [reflexivity | lia].
Qed.

Lemma next_macro_without_hash_witness :
  next_macro (txt "// c" ++ [newline] ++ txt "int f(int);") 4 = Ok (txt ")")
  /\ next_macro (txt "// @DOC @NEXT_MACRO") 19 = Throw std_out_of_range.
Proof.
  split.
  - apply (next_macro_without_hash (txt "// c" ++ [newline] ++ txt "int f(int);") 4).
    vm_compute. reflexivity.
  - apply (next_macro_without_hash (txt "// @DOC @NEXT_MACRO") 19).
    vm_compute. reflexivity.
Defined.




(** ** What reading the template leaves alone *)

Lemma md_grows_refl (c : DocContext) : md_grows c c.
Proof.
  unfold md_grows. repeat split; try reflexivity.
  - intros k v H. exists v. split; [exact H | reflexivity].
  - intros k H. exact H.
Qed.

Lemma md_grows_trans (c1 c2 c3 : DocContext) :
  md_grows c1 c2 -> md_grows c2 c3 -> md_grows c1 c3.
Proof.
  intros (Ha & Hb & Hc & Hd & He & Hf & Hg) (Ha' & Hb' & Hc' & Hd' & He' & Hf' & Hg').
  unfold md_grows. repeat split; try congruence.
  - etransitivity; eassumption.
  - etransitivity; eassumption.
  - etransitivity; eassumption.
  - intros k v H. destruct (Hf k v H) as (v' & H' & Hp).
    destruct (Hf' k v' H') as (v'' & H'' & Hp').
    exists v''. split; [exact H'' | etransitivity; eassumption].
  - intros k H. apply Hg', Hg, H.
Qed.

Lemma grows_md_grows (c c' : DocContext) : grows c c' -> md_grows c c'.
Proof.
  intros (Ha & Hb & Hc & Hd & He & Hf & Hg).
  unfold md_grows. repeat split; try assumption.
  - rewrite Hc. reflexivity.
  - intros k H. rewrite Hd. exact H.
Qed.

Lemma md_grows_report (msg : text) (c : DocContext) : md_grows c (report msg c).
Proof. apply grows_md_grows, grows_report. Qed.

Lemma md_grows_reports (msgs : list text) (c : DocContext) :
  md_grows c (fold_left (fun ctx s => report (s ++ [newline]) ctx) msgs c).
Proof.
  revert c. induction msgs as [| m msgs IH]; intros c; cbn [fold_left];
    [apply md_grows_refl |].
  eapply md_grows_trans; [apply md_grows_report | apply IH].
Qed.

Lemma md_grows_process_sources depth env sources (c c' : DocContext) :
  process_sources depth env sources c = Ok c' -> grows c c'.
Proof.
  revert c. induction sources as [| [path src] sources IH]; intros c; cbn [process_sources].
  - intros H. injection H as <-. apply grows_refl.
  - destruct (process_source depth env src c true path) as [c1 | | |] eqn:H1;
      try discriminate.
    cbn [bind]. intros H. eapply grows_trans; [| apply IH, H].
    eapply grows_process_source, H1.
Qed.

Lemma md_grows_process_md_command depth env command_ (c c' : DocContext) :
  process_md_command depth env command_ c = Ok c' -> md_grows c c'.
Proof.
  unfold process_md_command. cbv zeta.
  match goal with
  | |- bind ?m _ = _ -> _ => destruct m as [[cmdName args] | | |]; try discriminate
  end.
  cbn [bind].
  destruct (named cmdName "NEW_COMMAND").
  { destruct (negb (length args =? 2) && negb (length args =? 3));
      [intros H; injection H as <-; apply md_grows_report |].
    destruct (commands_dir_ready env (built c)); [| discriminate].
    intros H; injection H as <-.
    unfold md_grows, set_built. cbn. repeat split; try reflexivity.
    - intros k v H. exists v. split; [exact H | reflexivity].
    - intros k H. exact H. }
  destruct (named cmdName "PROCESS_SOURCES").
  { destruct (process_sources depth env (rglob env (built c) args) c) as [c1 | | |] eqn:H1;
      try discriminate.
    cbn [bind]. apply md_grows_process_sources, grows_md_grows in H1.
    destruct (rglob env (built c) args); intros H; injection H as <-; [| exact H1].
    eapply md_grows_trans; [exact H1 |].
    eapply md_grows_trans; [apply md_grows_report | apply md_grows_reports]. }
  destruct (named cmdName "INSERT_SECTION").
  { destruct args as [| name [| a2 args]].
    - intros H; injection H as <-; apply md_grows_report.
    - destruct (sections c !! name); intros H; injection H as <-;
        [| apply md_grows_report].
      unfold md_grows, set_output. cbn. repeat split; try reflexivity.
      + apply prefix_app_r. reflexivity.
      + intros k v H. exists v. split; [exact H | reflexivity].
      + intros k H. exact H.
    - intros H; injection H as <-; apply md_grows_report. }
  destruct (named cmdName "NEW_ALIAS").
  { destruct args as [| name [| replacement [| a3 args]]].
    1, 2, 4: intros H; injection H as <-; apply md_grows_report.
    intros H; injection H as <-.
    unfold md_grows, set_aliases. cbn. repeat split; try reflexivity.
    - intros k v H. exists v. split; [exact H | reflexivity].
    - intros k H. destruct (decide (k = name)) as [-> | Hne].
      + rewrite lookup_insert_eq. eexists. reflexivity.
      + rewrite lookup_insert_ne by congruence. exact H. }
  intros H; injection H as <-; apply md_grows_report.
Qed.

(** Reading the template never takes back what was written: through any
    lines, commands and source files, the document text, the main buffer,
    the messages and every section buffer are only extended at their end,
    the two paths stay, and no alias is ever removed. *)
Theorem main_loop_only_appends depth env (lines : list text) (pending : option text)
    (context context' : DocContext) :
  main_loop depth env lines pending context = Ok context' ->
  md_grows context context'.
Proof.
  revert pending context.
  induction lines as [| line lines IH]; intros pending context; cbn [main_loop].
  - destruct pending as [command |].
    + apply md_grows_process_md_command.
    + intros H. injection H as <-. apply md_grows_refl.
  - destruct pending as [command |].
    + destruct (is_command_line line); [| apply IH].
      destruct (process_md_command depth env _ context) as [c1 | | |] eqn:H1;
        try discriminate.
      cbn [bind]. intros H. eapply md_grows_trans; [| eapply IH, H].
      eapply md_grows_process_md_command, H1.
    + destruct (is_command_line line).
      * destruct (find (txt "@@") line 2); [| apply IH].
        destruct (substr line 2 _) as [command | | |]; try discriminate.
        cbn [bind].
        destruct (process_md_command depth env command context) as [c1 | | |] eqn:H1;
          try discriminate.
        cbn [bind]. intros H. eapply md_grows_trans; [| eapply IH, H].
        eapply md_grows_process_md_command, H1.
      * intros H. apply IH in H. eapply md_grows_trans; [| exact H].
        unfold md_grows, set_output. cbn. repeat split; try reflexivity.
        -- apply prefix_app_r. reflexivity.
        -- intros k v Hk. exists v. split; [exact Hk | reflexivity].
        -- intros k Hk. exact Hk.
Qed.

Lemma main_loop_only_appends_witness :
  main_loop 0 bare_env [txt "hello"; txt "@@ INSERT_SECTION(t) @@"] None bare_context
  = Ok (report (txt "Error: Section t not found" ++ [newline])
          (set_output (fun o => o ++ txt "hello" ++ [newline]) bare_context))
  /\ md_grows bare_context
       (report (txt "Error: Section t not found" ++ [newline])
          (set_output (fun o => o ++ txt "hello" ++ [newline]) bare_context)).
Proof.
  assert (H : main_loop 0 bare_env [txt "hello"; txt "@@ INSERT_SECTION(t) @@"] None
                bare_context
              = Ok (report (txt "Error: Section t not found" ++ [newline])
                      (set_output (fun o => o ++ txt "hello" ++ [newline]) bare_context)))
    by (vm_compute; reflexivity).
  split; [exact H |].
  exact (main_loop_only_appends 0 bare_env [txt "hello"; txt "@@ INSERT_SECTION(t) @@"]
           None bare_context
           (report (txt "Error: Section t not found" ++ [newline])
              (set_output (fun o => o ++ txt "hello" ++ [newline]) bare_context)) H).
Defined.

Lemma unwrap_alias_cases_witness : unwrap_alias (txt "(ab)") = txt "ab".
Proof.
  exact (proj1 (unwrap_alias_cases "(" ")" (txt "ab") []) eq_refl eq_refl).
Defined.
